(** * Card-scanner front end: QR payload classification, detection cascade,
      image preprocessing and business-card field extraction

    Shallow embedding of the TypeScript sources

    - [QRDetectionService] (detectQRCodes, detectWithGoQRAPI, preprocessImage,
      increaseContrast, convertToGrayscale, applyThreshold, resizeImage,
      removeDuplicates, parseQRContent, parseVCard, parseWiFi, parseSMS),
    - [extractTextInfoEnhanced] of the scan view, and
    - [CardDetectionService] (enhanceContrast, getContourBounds),

    together with the properties stated about them.

    Conventions of the embedding.
    - A JavaScript string is a [string]: a sequence of code units, here the
      code units 0..255.  On that range the case mappings of the source
      ([toUpperCase], [toLowerCase], the [i] flag of a regular expression) agree
      with the ASCII case mappings wherever the source compares the result with
      ASCII text, which is everywhere it uses them.
    - A regular expression literal is a value of [regex], run by a backtracking
      matcher that follows the priorities of the ECMAScript matcher (leftmost
      start, greedy quantifiers, alternatives left to right).
    - A typed array is a [list Z]; reads out of range give [None] (undefined),
      writes out of range are dropped, as for a [Uint8ClampedArray].
    - A [Record<string, any>] whose values are all strings is a
      [gmap string string].
    - Where the source computes with fractions ([enhanceContrast], and the
      luminance of a pixel when a transform is run on a sample image), a
      number is a double: a primitive float, with the operations of
      IEEE 754. *)

From Stdlib Require Import ZArith QArith Ascii String Lia.
From Stdlib Require Uint63.
From Corelib Require PrimFloat.
From stdpp Require Import base option list strings gmap.

Local Open Scope string_scope.
Local Open Scope list_scope.
Local Open Scope nat_scope.
Set Warnings "-clear-no-such-hyp".

(** ** String primitives of the host language *)

Module JS.

Definition code (c : ascii) : nat := nat_of_ascii c.

Definition in_range (lo hi c : ascii) : bool :=
  (code lo <=? code c)%nat && (code c <=? code hi)%nat.

Definition is_upper (c : ascii) : bool := in_range "A" "Z" c.
Definition is_lower (c : ascii) : bool := in_range "a" "z" c.
Definition is_digit (c : ascii) : bool := in_range "0" "9" c.
Definition is_alpha (c : ascii) : bool := is_upper c || is_lower c.

(** WhiteSpace and LineTerminator code units below 256: TAB, LF, VT, FF, CR,
    SPACE and NO-BREAK SPACE.  This is the set of [\s] and of [trim]. *)
Definition is_space (c : ascii) : bool :=
  let n := code c in
  (n =? 9)%nat || (n =? 10)%nat || (n =? 11)%nat || (n =? 12)%nat
  || (n =? 13)%nat || (n =? 32)%nat || (n =? 160)%nat.

(** [\w] of a regular expression, used by [\b]. *)
Definition is_word (c : ascii) : bool :=
  is_alpha c || is_digit c || Ascii.eqb c "_".

Definition upper_char (c : ascii) : ascii :=
  if is_lower c then ascii_of_nat (code c - 32) else c.
Definition lower_char (c : ascii) : ascii :=
  if is_upper c then ascii_of_nat (code c + 32) else c.

Fixpoint map_chars (f : ascii -> ascii) (s : string) : string :=
  match s with
  | EmptyString => EmptyString
  | String c s' => String (f c) (map_chars f s')
  end.

Definition toUpperCase : string -> string := map_chars upper_char.
Definition toLowerCase : string -> string := map_chars lower_char.

Fixpoint forall_chars (p : ascii -> bool) (s : string) : bool :=
  match s with
  | EmptyString => true
  | String c s' => p c && forall_chars p s'
  end.

Fixpoint exists_char (p : ascii -> bool) (s : string) : bool :=
  match s with
  | EmptyString => false
  | String c s' => p c || exists_char p s'
  end.

Fixpoint filter_chars (p : ascii -> bool) (s : string) : string :=
  match s with
  | EmptyString => EmptyString
  | String c s' => if p c then String c (filter_chars p s') else filter_chars p s'
  end.

(** [s.startsWith(p)] *)
Fixpoint startsWith (p s : string) : bool :=
  match p, s with
  | EmptyString, _ => true
  | String a p', String b s' => Ascii.eqb a b && startsWith p' s'
  | String _ _, EmptyString => false
  end.

(** [s.includes(p)] *)
Fixpoint includes (p s : string) : bool :=
  startsWith p s ||
  match s with
  | EmptyString => false
  | String _ s' => includes p s'
  end.

(** [s.substring(n)] *)
Fixpoint str_drop (n : nat) (s : string) : string :=
  match n, s with
  | O, _ => s
  | S n', String _ s' => str_drop n' s'
  | S _, EmptyString => EmptyString
  end.

(** The first [n] code units. *)
Fixpoint str_take (n : nat) (s : string) : string :=
  match n, s with
  | S n', String c s' => String c (str_take n' s')
  | _, _ => EmptyString
  end.

Fixpoint last_char (d : option ascii) (s : string) : option ascii :=
  match s with
  | EmptyString => d
  | String c s' => last_char (Some c) s'
  end.

Fixpoint trimStart (s : string) : string :=
  match s with
  | String c s' => if is_space c then trimStart s' else s
  | EmptyString => EmptyString
  end.

Fixpoint trimEnd (s : string) : string :=
  match s with
  | EmptyString => EmptyString
  | String c s' =>
      match trimEnd s' with
      | EmptyString => if is_space c then EmptyString else String c EmptyString
      | t => String c t
      end
  end.

(** [s.trim()] *)
Definition trim (s : string) : string := trimEnd (trimStart s).

(** [s.split(sep)] for a separator of one code unit: the pieces between the
    separators, always at least one piece. *)
Fixpoint split (sep : ascii) (s : string) : list string :=
  match s with
  | EmptyString => [EmptyString]
  | String c s' =>
      if Ascii.eqb c sep then EmptyString :: split sep s'
      else match split sep s' with
           | p :: ps => String c p :: ps
           | [] => [String c EmptyString]
           end
  end.

(** [s.split(sep, limit)]: the first [limit] pieces of [s.split(sep)]; the
    remainder of the string is dropped, not kept in the last piece. *)
Definition split_limit (sep : ascii) (limit : nat) (s : string) : list string :=
  firstn limit (split sep s).

End JS.

(** ** Regular expressions

    The fragment of ECMAScript regular expressions that the sources use:
    literals, character classes, sequence, alternation, greedy quantifiers,
    the assertions [^], [$] and [\b], and the [i] flag.  Groups only group:
    the sources read the whole match, or group 1 of a pattern whose group 1
    spans the whole pattern. *)

Module Regex.
Import JS.

Inductive regex : Type :=
  | Eps
  | Chr (c : ascii)
  | Cls (neg : bool) (ranges : list (ascii * ascii))
  | Cat (r1 r2 : regex)
  | Alt (r1 r2 : regex)
  | Rep (lo : nat) (hi : option nat) (r : regex)
  | Bol
  | Eol
  | WordB.

(** Character classes. *)
Definition one (c : ascii) : ascii * ascii := (c, c).
Definition cls_d : list (ascii * ascii) := [("0", "9")]%char.
Definition cls_s : list (ascii * ascii) :=
  [(ascii_of_nat 9, ascii_of_nat 13); one " "%char; one (ascii_of_nat 160)].

Definition in_ranges (rs : list (ascii * ascii)) (c : ascii) : bool :=
  existsb (fun r => in_range (fst r) (snd r) c) rs.

(** Under the [i] flag two code units match when their canonical (upper-case)
    forms agree. *)
Definition chr_matches (ic : bool) (a c : ascii) : bool :=
  if ic then Ascii.eqb (upper_char a) (upper_char c) else Ascii.eqb a c.

Definition cls_matches (ic neg : bool) (rs : list (ascii * ascii)) (c : ascii) : bool :=
  let found :=
    in_ranges rs c || (ic && (in_ranges rs (upper_char c) || in_ranges rs (lower_char c))) in
  if neg then negb found else found.

(** Derived forms. *)
Fixpoint lit (s : string) : regex :=
  match s with
  | EmptyString => Eps
  | String c EmptyString => Chr c
  | String c s' => Cat (Chr c) (lit s')
  end.

Fixpoint cat (rs : list regex) : regex :=
  match rs with
  | [] => Eps
  | [r] => r
  | r :: rs' => Cat r (cat rs')
  end.

Fixpoint alt (rs : list regex) : regex :=
  match rs with
  | [] => Cls false []
  | [r] => r
  | r :: rs' => Alt r (alt rs')
  end.

Definition opt (r : regex) : regex := Rep 0 (Some 1) r.
Definition star (r : regex) : regex := Rep 0 None r.
Definition plus (r : regex) : regex := Rep 1 None r.
Definition times (n : nat) (r : regex) : regex := Rep n (Some n) r.
Definition at_least (n : nat) (r : regex) : regex := Rep n None r.
Definition between (n m : nat) (r : regex) : regex := Rep n (Some m) r.

(** A matcher state is the code unit before the current position ([None] at
    the start of the input) and the rest of the input; a continuation returns
    the rest of the input at the end of the whole match. *)
Definition cont : Type := option ascii -> string -> option string.

Definition word_before (prev : option ascii) : bool :=
  match prev with Some c => is_word c | None => false end.
Definition word_after (s : string) : bool :=
  match s with String c _ => is_word c | EmptyString => false end.

(** RepeatMatcher: an iteration that consumes nothing is refused once the
    minimum is reached; greedy, so one more iteration is tried before the
    continuation.  [fuel] bounds the iterations: each one lowers the
    minimum or consumes input, so [lo + length s] is enough. *)
Fixpoint rep_loop (m : cont -> cont) (fuel lo : nat) (hi : option nat) (k : cont) : cont :=
  fun prev s =>
    match hi with
    | Some O => k prev s
    | _ =>
        match fuel with
        | O => k prev s
        | S fuel' =>
            let d : cont := fun prev' s' =>
              if (lo =? 0)%nat && (String.length s' =? String.length s)%nat then None
              else rep_loop m fuel' (Nat.pred lo) (Nat.pred <$> hi) k prev' s' in
            match lo with
            | O => match m d prev s with
                   | Some e => Some e
                   | None => k prev s
                   end
            | S _ => m d prev s
            end
        end
    end.

Fixpoint rmatch (ic : bool) (r : regex) (k : cont) : cont :=
  match r with
  | Eps => k
  | Chr a => fun _ s =>
      match s with
      | String c s' => if chr_matches ic a c then k (Some c) s' else None
      | EmptyString => None
      end
  | Cls neg rs => fun _ s =>
      match s with
      | String c s' => if cls_matches ic neg rs c then k (Some c) s' else None
      | EmptyString => None
      end
  | Cat r1 r2 => rmatch ic r1 (rmatch ic r2 k)
  | Alt r1 r2 => fun prev s =>
      match rmatch ic r1 k prev s with
      | Some e => Some e
      | None => rmatch ic r2 k prev s
      end
  | Rep lo hi r1 => fun prev s =>
      rep_loop (rmatch ic r1) (lo + String.length s) lo hi k prev s
  | Bol => fun prev s =>
      match prev with None => k prev s | Some _ => None end
  | Eol => fun prev s =>
      match s with EmptyString => k prev s | String _ _ => None end
  | WordB => fun prev s =>
      if xorb (word_before prev) (word_after s) then k prev s else None
  end.

(** The continuation of a whole pattern: the match ends here. *)
Definition at_end : cont := fun _ s' => Some s'.

(** A match starting exactly at the current position: the rest of the input
    after it. *)
Definition match_here (ic : bool) (r : regex) (prev : option ascii) (s : string)
  : option string :=
  rmatch ic r at_end prev s.

(** The result of a successful search: the text before the match, the match,
    and the text after it. *)
Record found : Type := Found { before : string; matched : string; after : string }.

(** The leftmost match at or after the current position. *)
Fixpoint search (ic : bool) (r : regex) (prev : option ascii) (s : string) : option found :=
  match match_here ic r prev s with
  | Some s' => Some (Found EmptyString (str_take (String.length s - String.length s') s) s')
  | None =>
      match s with
      | EmptyString => None
      | String c s1 =>
          match search ic r (Some c) s1 with
          | Some f => Some (Found (String c (before f)) (matched f) (after f))
          | None => None
          end
      end
  end.

(** [re.test(s)] *)
Definition test (ic : bool) (r : regex) (s : string) : bool :=
  match search ic r None s with Some _ => true | None => false end.

(** [s.match(re)[0]], for a pattern with or without the [g] flag: in both
    cases element 0 is the text of the leftmost match ([None]: no match). *)
Definition first_match (ic : bool) (r : regex) (s : string) : option string :=
  matched <$> search ic r None s.

(** [s.replace(re, by)] without the [g] flag: the leftmost match only. *)
Definition replace_first (ic : bool) (r : regex) (by_ : string) (s : string) : string :=
  match search ic r None s with
  | Some f => before f +:+ by_ +:+ after f
  | None => s
  end.

(** [s.replace(re, by)] with the [g] flag: every match, left to right, each
    search starting where the previous match ended (one code unit further
    after an empty match). *)
Fixpoint replace_all_go (fuel : nat) (ic : bool) (r : regex) (by_ : string)
    (prev : option ascii) (s : string) : string :=
  match fuel with
  | O => s
  | S fuel' =>
      match search ic r prev s with
      | None => s
      | Some f =>
          before f +:+ by_ +:+
          match matched f, after f with
          | EmptyString, EmptyString => EmptyString
          | EmptyString, String c rest =>
              String c (replace_all_go fuel' ic r by_ (Some c) rest)
          | String _ _, rest =>
              replace_all_go fuel' ic r by_
                (last_char prev (before f +:+ matched f)) rest
          end
      end
  end.

Definition replace_all (ic : bool) (r : regex) (by_ : string) (s : string) : string :=
  replace_all_go (S (String.length s)) ic r by_ None s.

End Regex.

(** ** Field extraction from recognised text: [extractTextInfoEnhanced] *)

Module Extract.
Import JS Regex.

Record info : Type := Info {
  name : string;
  title : string;
  company : string;
  phone : string;
  email : string;
  website : string;
  address : string;
  otherInfo : list string
}.

Definition info_empty : info := Info "" "" "" "" "" "" "" [].

Definition az : ascii * ascii := ("a", "z")%char.
Definition AZ : ascii * ascii := ("A", "Z")%char.
Definition d09 : ascii * ascii := ("0", "9")%char.

(** [\s+] *)
Definition re_spaces : regex := plus (Cls false cls_s).
(** [[\s\-]?] *)
Definition re_sep_opt : regex := opt (Cls false (cls_s ++ [one "-"%char])).
Definition re_digit : regex := Cls false cls_d.

(** [/[a-zA-Z0-9._%+-]+@[a-zA-Z0-9.-]+\.[a-zA-Z]{2,}/] *)
Definition emailPattern : regex :=
  cat [ plus (Cls false [az; AZ; d09; one "."; one "_"; one "%"; one "+"; one "-"]%char);
        Chr "@";
        plus (Cls false [az; AZ; d09; one "."; one "-"]%char);
        Chr ".";
        at_least 2 (Cls false [az; AZ]) ].

(** The four phone patterns, each with its [i] flag:
    [/(\+?91[\s\-]?[6-9]\d{9})/g], [/(M\s*\+?91[\s\-]?[6-9]\d{9})/g],
    [/(Tel[:\s]*\+?91[\s\-]?\d{2,3}[\s\-]?\d{7,8})/gi],
    [/(\+?91[\s\-]?\d{2,3}[\s\-]?\d{7,8})/g]. *)
Definition re_mobile : regex :=
  cat [ opt (Chr "+"); lit "91"; re_sep_opt; Cls false [("6", "9")]%char; times 9 re_digit ].
Definition re_landline : regex :=
  cat [ opt (Chr "+"); lit "91"; re_sep_opt; between 2 3 re_digit; re_sep_opt;
        between 7 8 re_digit ].
Definition phonePatterns : list (bool * regex) :=
  [ (false, re_mobile);
    (false, cat [ Chr "M"; star (Cls false cls_s); re_mobile ]);
    (true, cat [ lit "Tel"; star (Cls false (one ":"%char :: cls_s)); re_landline ]);
    (false, re_landline) ].

(** The label at the start of a phone match, flag [i]: [^] followed by
    [Tel[:\s]*] or [M\s*]. *)
Definition re_phone_label : regex :=
  Cat Bol (Alt (Cat (lit "Tel") (star (Cls false (one ":"%char :: cls_s))))
               (Cat (Chr "M") (star (Cls false cls_s)))).

(** [/(https?:\/\/[^\s]+|www\.[^\s]+)/i] *)
Definition websitePattern : regex :=
  Alt (cat [ lit "http"; opt (Chr "s"); lit "://"; plus (Cls true cls_s) ])
      (cat [ lit "www."; plus (Cls true cls_s) ]).

(** [[A-Z][a-z]+] *)
Definition re_capword : regex := Cat (Cls false [AZ]) (plus (Cls false [az])).

(** [/^([A-Z][a-z]+\s+[A-Z][a-z]+(?:\s+[A-Z][a-z]+)?)/] and
    [/^([A-Z][a-z]+\s+[A-Z])/] *)
Definition namePattern1 : regex :=
  cat [ Bol; re_capword; re_spaces; re_capword; opt (Cat re_spaces re_capword) ].
Definition namePattern2 : regex :=
  cat [ Bol; re_capword; re_spaces; Cls false [AZ] ].
Definition namePatterns : list regex := [ namePattern1; namePattern2 ].

Definition name_stopwords : list string :=
  [ "ltd"; "inc"; "corp"; "analyst"; "manager" ].

(** The title pattern, flags [gi]. *)
Definition titlePatterns : list regex :=
  [ alt [ cat [ lit "Systems"; re_spaces; lit "Analyst" ];
          cat [ lit "Project"; re_spaces; lit "Manager" ];
          cat [ lit "Software"; re_spaces; lit "Engineer" ];
          cat [ lit "Senior"; re_spaces; lit "Developer" ];
          cat [ lit "Team"; re_spaces; lit "Lead" ];
          lit "Director"; lit "Manager"; lit "Analyst"; lit "Engineer";
          lit "Developer"; lit "Consultant"; lit "Specialist"; lit "Executive";
          lit "President"; lit "CEO"; lit "CTO"; lit "VP"; lit "Designer";
          lit "Coordinator"; lit "Assistant" ] ].

(** The two company patterns, flags [gi]. *)
Definition companyPatterns : list regex :=
  [ cat [ Cls false [AZ];
          plus (Cls false (az :: AZ :: cls_s ++ [one "&"%char]));
          alt (lit <$> [ "Ltd"; "Inc"; "Corp"; "Company"; "Services"; "Technologies";
                         "Solutions"; "Systems"; "Computer"; "Software"; "Tech";
                         "Group"; "Holdings"; "Enterprises"; "Private"; "Pvt" ]) ];
    cat [ lit "Satyam"; re_spaces; lit "Computer"; re_spaces; lit "Services";
          re_spaces; lit "Ltd" ] ].

(** The three address patterns, flags [gi]. *)
Definition addressPatterns : list regex :=
  [ cat [ plus (Cls false (AZ :: az :: cls_s));
          alt [ Cat (lit "Tower") (opt (Chr "s")); lit "Building"; lit "Complex";
                lit "Road"; lit "Street"; lit "Avenue"; lit "Lane"; lit "Colony";
                lit "Nagar"; lit "Area"; lit "Village"; lit "Town"; lit "City";
                lit "State"; lit "Country" ] ];
    cat [ lit "Ohri"; re_spaces; lit "Tower"; opt (Chr "s"); star (Cls true [one ","%char]) ];
    cat [ lit "Sebastian"; re_spaces; lit "Road"; star (Cls true [one ","%char]) ] ].

(** [/\d{2,3}[\s\-]?\d{7,8}/g]: the phone shape removed from an address. *)
Definition re_phone_shape : regex :=
  cat [ between 2 3 re_digit; re_sep_opt; between 7 8 re_digit ].

(** [/\b\d{6}\b/] *)
Definition pincodePattern : regex := cat [ WordB; times 6 re_digit; WordB ].

(** [text.replace(/\s+/g, ' ').trim()] *)
Definition clean (text : string) : string :=
  trim (replace_all false re_spaces " " text).

(** The loop over the phone patterns: the first pattern whose leftmost match,
    once its label and its white space are removed, has 10 code units or more. *)
Fixpoint find_phone (ps : list (bool * regex)) (cleanedText : string) : option string :=
  match ps with
  | [] => None
  | (ic, pattern) :: ps' =>
      match first_match ic pattern cleanedText with
      | Some m =>
          let phone := trim m in
          let phone := replace_first true re_phone_label "" phone in
          let phone := replace_all false re_spaces "" phone in
          if (10 <=? String.length phone)%nat then Some phone
          else find_phone ps' cleanedText
      | None => find_phone ps' cleanedText
      end
  end.

(** The validation of a candidate name. *)
Definition name_ok (potentialName : string) : bool :=
  forallb (fun w => negb (includes w (toLowerCase potentialName))) name_stopwords
  && (String.length potentialName <? 50)%nat.

(** The loop over the name patterns.  Group 1 spans the whole pattern after
    [^], so [nameMatch[1]] is the matched text. *)
Fixpoint find_name (ps : list regex) (cleanedText : string) : option string :=
  match ps with
  | [] => None
  | pattern :: ps' =>
      match first_match false pattern cleanedText with
      | Some m =>
          let potentialName := trim m in
          if name_ok potentialName then Some potentialName
          else find_name ps' cleanedText
      | None => find_name ps' cleanedText
      end
  end.

(** The loops over the title and the company patterns: the first pattern that
    matches decides. *)
Fixpoint find_trimmed (ps : list regex) (cleanedText : string) : option string :=
  match ps with
  | [] => None
  | pattern :: ps' =>
      match first_match true pattern cleanedText with
      | Some m => Some (trim m)
      | None => find_trimmed ps' cleanedText
      end
  end.

(** The loop over the address patterns. *)
Fixpoint find_address (ps : list regex) (cleanedText : string) : option string :=
  match ps with
  | [] => None
  | pattern :: ps' =>
      match first_match true pattern cleanedText with
      | Some m =>
          let address := trim m in
          let address := replace_all false re_phone_shape "" address in
          let address := trim (replace_all false re_spaces " " address) in
          if (10 <? String.length address)%nat then Some address
          else find_address ps' cleanedText
      | None => find_address ps' cleanedText
      end
  end.

Definition extractTextInfoEnhanced (text : string) : info :=
  match text with
  | EmptyString => info_empty
  | _ =>
      let cleanedText := clean text in
      {| email := default "" (first_match false emailPattern cleanedText);
         phone := default "" (find_phone phonePatterns cleanedText);
         website := default "" (first_match true websitePattern cleanedText);
         name := default "" (find_name namePatterns cleanedText);
         title := default "" (find_trimmed titlePatterns cleanedText);
         company := default "" (find_trimmed companyPatterns cleanedText);
         address := default "" (find_address addressPatterns cleanedText);
         otherInfo :=
           match first_match false pincodePattern cleanedText with
           | Some m => [ "Pincode: " +:+ m ]
           | None => []
           end |}
  end.

End Extract.

(** ** Classification of a decoded payload: [parseQRContent] *)

Module QRContent.
Import JS Regex.

Record ParsedQRData : Type := {
  content_type : string;
  title : string;
  details : gmap string string;
  raw_data : string
}.

(** The completion of a block that may throw. *)
Inductive completion (A : Type) : Type :=
  | Normal (a : A)
  | Throw (error : string).
Arguments Normal {A} a.
Arguments Throw {A} error.

Definition newline : ascii := ascii_of_nat 10.

(** [const [key, value] = line.split(':', 2)] *)
Definition key_value (line : string) : string * string :=
  match split_limit ":" 2 line with
  | [key; value] => (key, value)
  | [key] => (key, "")
  | _ => ("", "")
  end.

(** One round of the loop of [parseVCard]. *)
Definition parseVCard_line (details : gmap string string) (line : string)
  : gmap string string :=
  let trimmedLine := trim line in
  if includes ":" trimmedLine then
    let '(key, value) := key_value trimmedLine in
    let upperKey := toUpperCase key in
    if String.eqb upperKey "FN" then <["name" := value]> details
    else if String.eqb upperKey "ORG" then <["company" := value]> details
    else if String.eqb upperKey "TITLE" then <["title" := value]> details
    else if String.eqb upperKey "EMAIL" then <["email" := value]> details
    else if String.eqb upperKey "TEL" then <["phone" := value]> details
    else if String.eqb upperKey "URL" then <["website" := value]> details
    else if String.eqb upperKey "ADR" then <["address" := value]> details
    else details
  else details.

Definition parseVCard (vcardData : string) : gmap string string :=
  foldl parseVCard_line ∅ (split newline vcardData).

Definition parseWiFi_part (details : gmap string string) (part : string)
  : gmap string string :=
  if includes ":" part then
    let '(key, value) := key_value part in
    if String.eqb key "S" then <["ssid" := value]> details
    else if String.eqb key "P" then <["password" := value]> details
    else if String.eqb key "T" then <["security" := value]> details
    else details
  else details.

Definition parseWiFi (wifiData : string) : gmap string string :=
  foldl parseWiFi_part ∅ (split ";" (str_drop 5 wifiData)).

Definition parseSMS (smsData : string) : gmap string string :=
  if includes ":" smsData then
    match split ":" smsData with
    | _ :: p1 :: p2 :: _ => {[ "phone" := p1; "message" := p2 ]}
    | _ => {[ "raw" := smsData ]}
    end
  else {[ "raw" := smsData ]}.

(** [/^\+?[\d\s\-\(\)]{10,}$/] *)
Definition phone_class : list (ascii * ascii) :=
  cls_d ++ cls_s ++ [one "-"; one "("; one ")"]%char.
Definition phonePattern : regex :=
  cat [ Bol; opt (Chr "+"); at_least 10 (Cls false phone_class); Eol ].

Definition socialPlatforms : list string :=
  [ "twitter.com"; "facebook.com"; "instagram.com"; "youtube.com" ].

(** [platform.split('.')[0]] *)
Definition first_label (platform : string) : string :=
  match split "." platform with
  | l :: _ => l
  | [] => ""
  end.

(** The body of the [try] block.  Every operation it uses is defined on every
    string, so it completes normally on every path. *)
Definition parseQRContent_try (qrData : string) : completion ParsedQRData :=
  let parsed ct ti de :=
    Normal {| content_type := ct; title := ti; details := de; raw_data := qrData |} in
  if startsWith "http://" qrData || startsWith "https://" qrData
     || startsWith "www." qrData then
    parsed "url" "Website Link" {[ "url" := qrData ]}
  else if includes "@" qrData && includes "." qrData then
    parsed "email" "Email Address" {[ "email" := qrData ]}
  else if test false phonePattern qrData then
    parsed "phone" "Phone Number" {[ "phone" := qrData ]}
  else if startsWith "BEGIN:VCARD" qrData then
    parsed "vcard" "Business Card" (parseVCard qrData)
  else if startsWith "WIFI:" qrData then
    parsed "wifi" "WiFi Network" (parseWiFi qrData)
  else if startsWith "sms:" qrData then
    parsed "sms" "SMS Message" (parseSMS qrData)
  else if includes "linkedin.com" qrData then
    parsed "linkedin" "LinkedIn Profile" {[ "url" := qrData; "platform" := "LinkedIn" ]}
  else
    match List.find (fun p => includes p qrData) socialPlatforms with
    | Some platform =>
        parsed "social" (first_label platform +:+ " Profile")
               {[ "url" := qrData; "platform" := first_label platform ]}
    | None =>
        parsed "text" "Text Content" {[ "text" := qrData ]}
    end.

(** [parseQRContent]: the record starts as ['unknown'] and is returned from
    the [try] block, or from the [catch] block with kind ['error']. *)
Definition parseQRContent (qrData : string) : ParsedQRData :=
  match parseQRContent_try qrData with
  | Normal parsed => parsed
  | Throw error =>
      {| content_type := "error"; title := "Unknown Content";
         details := {[ "error" := error ]}; raw_data := qrData |}
  end.

End QRContent.

(** ** Image preprocessing *)

Module Image.

(** An [ImageData]: RGBA bytes, row by row.  The platform keeps
    [data.length = 4 * width * height] and [width, height >= 1], and every
    element of the byte array in 0..255. *)
Record ImageData : Type := {
  width : nat;
  height : nat;
  data : list Z
}.

Definition is_byte (v : Z) : Prop := (0 <= v <= 255)%Z.

Record wf_image (img : ImageData) : Prop := {
  wf_width : 1 <= width img;
  wf_height : 1 <= height img;
  wf_length : length (data img) = 4 * width img * height img;
  wf_bytes : Forall is_byte (data img)
}.

(** [new ImageData(w, h)]: transparent black. *)
Definition new_ImageData (w h : nat) : ImageData :=
  {| width := w; height := h; data := replicate (4 * w * h) 0%Z |}.

(** A write of an integer-valued number into a [Uint8ClampedArray]; [None] is
    NaN (arithmetic on [undefined]), written as 0. *)
Definition clamp255 (v : Z) : Z := Z.max 0 (Z.min 255 v).
Definition store_int (v : option Z) : Z :=
  match v with Some x => clamp255 x | None => 0%Z end.

(** A write of the number [n / 2]: clamped to 0..255 and rounded to the
    nearest integer, ties to the even one. *)
Definition store_halves (n : Z) : Z :=
  if (n <=? 0)%Z then 0%Z
  else if (510 <=? n)%Z then 255%Z
  else
    let q := (n / 2)%Z in
    if Z.even n then q else if Z.even q then q else (q + 1)%Z.

(** [for (let i = 0; i < len; i += 4)]: the values taken by [i]. *)
Definition offsets (len : nat) : list nat :=
  (fun k => 4 * k) <$> seq 0 ((len + 3) / 4).

(** [Math.min(255, Math.max(0, (v - 128) * 1.5 + 128))] written into the byte
    array: the number is [(3 * v - 128) / 2]. *)
Definition contrast (v : option Z) : Z :=
  match v with
  | Some x => store_halves (3 * x - 128)
  | None => 0%Z
  end.

Definition increaseContrast_body (originalData : list Z) (data : list Z) (i : nat)
  : list Z :=
  let data := <[i := contrast (originalData !! i)]> data in
  let data := <[i + 1 := contrast (originalData !! (i + 1))]> data in
  let data := <[i + 2 := contrast (originalData !! (i + 2))]> data in
  <[i + 3 := store_int (originalData !! (i + 3))]> data.

Definition increaseContrast (imageData : ImageData) : ImageData :=
  let newImageData := new_ImageData (width imageData) (height imageData) in
  let originalData := data imageData in
  {| width := width newImageData; height := height newImageData;
     data := foldl (increaseContrast_body originalData) (data newImageData)
               (offsets (length originalData)) |}.

(** [Math.round(sum / total)] for integers [sum >= 0] and [total]; [0 / 0]
    is NaN. *)
Definition round_div (sum total : Z) : option Z :=
  if (total =? 0)%Z then None
  else Some ((2 * sum + total) / (2 * total))%Z.

(** [Math.floor(x / 0.5)] and [Math.round(n * 0.5)] for integers. *)
Definition unscale_half (x : nat) : nat := 2 * x.
Definition scale_half (n : nat) : nat := (n + 1) / 2.

Section Luma.

(** [Math.round(0.299 * r + 0.587 * g + 0.114 * b)] on numbers: a
    floating-point expression, kept abstract. *)
Variable luma : Z -> Z -> Z -> Z.

Definition gray_at (originalData : list Z) (i : nat) : option Z :=
  match originalData !! i, originalData !! (i + 1), originalData !! (i + 2) with
  | Some r, Some g, Some b => Some (luma r g b)
  | _, _, _ => None
  end.

Definition convertToGrayscale_body (originalData : list Z) (data : list Z) (i : nat)
  : list Z :=
  let gray := gray_at originalData i in
  let data := <[i := store_int gray]> data in
  let data := <[i + 1 := store_int gray]> data in
  let data := <[i + 2 := store_int gray]> data in
  <[i + 3 := store_int (originalData !! (i + 3))]> data.

Definition convertToGrayscale (imageData : ImageData) : ImageData :=
  let newImageData := new_ImageData (width imageData) (height imageData) in
  let originalData := data imageData in
  {| width := width newImageData; height := height newImageData;
     data := foldl (convertToGrayscale_body originalData) (data newImageData)
               (offsets (length originalData)) |}.

(** [histogram[gray]++]: only the entries 0..255 are read afterwards. *)
Definition histogram_body (originalData : list Z) (histogram : list Z) (i : nat)
  : list Z :=
  match gray_at originalData i with
  | Some gray =>
      if (0 <=? gray)%Z then alter Z.succ (Z.to_nat gray) histogram else histogram
  | None => histogram
  end.

Definition histogram_of (originalData : list Z) : list Z :=
  foldl (histogram_body originalData) (replicate 256 0%Z)
        (offsets (length originalData)).

(** The second loop: [sum += i * histogram[i]; total += histogram[i]]. *)
Definition weighted_sum (histogram : list Z) : Z :=
  foldl (fun sum ih => (sum + Z.of_nat ih.1 * ih.2)%Z) 0%Z (imap pair histogram).
Definition total_count (histogram : list Z) : Z :=
  foldl Z.add 0%Z histogram.

Definition threshold_of (originalData : list Z) : option Z :=
  let histogram := histogram_of originalData in
  round_div (weighted_sum histogram) (total_count histogram).

(** [gray > threshold ? 255 : 0]; a comparison with NaN is false. *)
Definition binarize (gray threshold : option Z) : Z :=
  match gray, threshold with
  | Some g, Some t => if (t <? g)%Z then 255%Z else 0%Z
  | _, _ => 0%Z
  end.

Definition applyThreshold_body (originalData : list Z) (threshold : option Z)
    (data : list Z) (i : nat) : list Z :=
  let value := binarize (gray_at originalData i) threshold in
  let data := <[i := value]> data in
  let data := <[i + 1 := value]> data in
  let data := <[i + 2 := value]> data in
  <[i + 3 := store_int (originalData !! (i + 3))]> data.

Definition applyThreshold (imageData : ImageData) : ImageData :=
  let newImageData := new_ImageData (width imageData) (height imageData) in
  let originalData := data imageData in
  let threshold := threshold_of originalData in
  {| width := width newImageData; height := height newImageData;
     data := foldl (applyThreshold_body originalData threshold) (data newImageData)
               (offsets (length originalData)) |}.

(** [resizeImage(imageData, 0.5)], the only scale the source uses. *)
Definition resizeImage_body (imageData : ImageData) (newWidth : nat)
    (data' : list Z) (yx : nat * nat) : list Z :=
  let '(y, x) := yx in
  let sourceIndex := (unscale_half y * width imageData + unscale_half x) * 4 in
  let targetIndex := (y * newWidth + x) * 4 in
  let data' := <[targetIndex := store_int (data imageData !! sourceIndex)]> data' in
  let data' := <[targetIndex + 1 := store_int (data imageData !! (sourceIndex + 1))]> data' in
  let data' := <[targetIndex + 2 := store_int (data imageData !! (sourceIndex + 2))]> data' in
  <[targetIndex + 3 := store_int (data imageData !! (sourceIndex + 3))]> data'.

Definition resizeImage (imageData : ImageData) : ImageData :=
  let newWidth := scale_half (width imageData) in
  let newHeight := scale_half (height imageData) in
  let newImageData := new_ImageData newWidth newHeight in
  {| width := newWidth; height := newHeight;
     data := foldl (resizeImage_body imageData newWidth) (data newImageData)
               (y ← seq 0 newHeight; x ← seq 0 newWidth; [(y, x)]) |}.

(** [preprocessImage]: the four renderings, in this order. *)
Definition preprocessImage (imageData : ImageData) : list ImageData :=
  [ increaseContrast imageData;
    increaseContrast (convertToGrayscale imageData);
    applyThreshold imageData;
    resizeImage imageData ].

End Luma.

End Image.

(** ** The remote decoder wrapper: [detectWithGoQRAPI] *)

Module RemoteDecoder.
Import JS.

(** A parsed JSON document.  An object keeps its members in document order;
    the last member with a given key is the one a property read sees. *)
#[warnings="-register-all"]
Inductive json : Type :=
  | JNull
  | JBool (b : bool)
  | JNum (q : Q)
  | JStr (s : string)
  | JArr (items : list json)
  | JObj (members : list (string * json)).

(** How an awaited promise settles. *)
Inductive settled (A : Type) : Type :=
  | Fulfilled (a : A)
  | Rejected (error : string)
  | Pending.
Arguments Fulfilled {A} a.
Arguments Rejected {A} error.
Arguments Pending {A}.

(** What [fetch] and [response.json()] do.  The request fails (no connection,
    or a time limit of the network stack); or it is never answered, and
    [fetch] never settles: the source sets no time limit and passes no abort
    signal; or a response arrives with its status, and its body is read as a
    JSON document, turns out not to be JSON, or never arrives in full, so
    that [response.json()] never settles. *)
Inductive fetch_result : Type :=
  | FetchRejects
  | FetchHangs
  | Response (status : nat) (body : option json)
  | ResponseHangs (status : nat).

(** [response.ok] *)
Definition ok (status : nat) : bool := (200 <=? status)%nat && (status <=? 299)%nat.

(** The surroundings of one call. *)
Record env : Type := {
  context2d : bool;       (* canvas.getContext('2d') is not null *)
  blob : bool;            (* canvas.toBlob hands over a blob, not null *)
  fetched : fetch_result
}.

(** An entry of the returned array: the four properties read from a decoded
    entry, [None] for [undefined]. *)
Record entry : Type := {
  e_data : option json;
  e_type : option json;
  e_location : option json;
  e_method : option json
}.

Fixpoint lookup_last (key : string) (members : list (string * json)) : option json :=
  match members with
  | [] => None
  | (k, v) :: rest =>
      match lookup_last key rest with
      | Some v' => Some v'
      | None => if String.eqb k key then Some v else None
      end
  end.

(** [v.key] for a key that no prototype defines: a [TypeError] on [null],
    the member of an object, [undefined] on anything else. *)
Definition get (v : json) (key : string) : string + option json :=
  match v with
  | JNull => inl "TypeError"
  | JObj members => inr (lookup_last key members)
  | _ => inr None
  end.

Definition truthy (v : option json) : bool :=
  match v with
  | None | Some JNull => false
  | Some (JBool b) => b
  | Some (JNum q) => negb (Qnum q =? 0)%Z
  | Some (JStr s) => negb (String.eqb s "")
  | Some (JArr _) | Some (JObj _) => true
  end.

Section Parse.

(** [x > 0] on a JSON value that is not a number; the host language converts
    it to a number first.  Only reached for the [length] member of an object
    standing where the array of entries should be. *)
Variable gt_zero_coerced : json -> bool.

Definition gt_zero (v : option json) : bool :=
  match v with
  | None => false
  | Some (JNum q) => (0 <? Qnum q)%Z
  | Some w => gt_zero_coerced w
  end.

(** [qr => ({data: qr.data, type: qr.type, location: qr.rect, method: qr.method})] *)
Definition to_entry (qr : json) : string + entry :=
  match get qr "data", get qr "type", get qr "rect", get qr "method" with
  | inr d, inr t, inr r, inr m =>
      inr {| e_data := d; e_type := t; e_location := r; e_method := m |}
  | _, _, _, _ => inl "TypeError"
  end.

Fixpoint map_entries (items : list json) : string + list entry :=
  match items with
  | [] => inr []
  | qr :: rest =>
      match to_entry qr with
      | inl e => inl e
      | inr x =>
          match map_entries rest with
          | inl e => inl e
          | inr xs => inr (x :: xs)
          end
      end
  end.

(** [qr_codes.length > 0] followed by [qr_codes.map(...)], for a truthy
    [qr_codes]: only an array has a callable [map]. *)
Definition map_qr_codes (qr_codes : json) : string + list entry :=
  match qr_codes with
  | JArr items =>
      if (0 <? length items)%nat then map_entries items else inr []
  | JStr s =>
      if (0 <? String.length s)%nat then inl "TypeError" else inr []
  | JObj members =>
      if gt_zero (lookup_last "length" members) then inl "TypeError" else inr []
  | _ => inr []
  end.

(** The statements after [const result = await response.json()]. *)
Definition parse_response (result : json) : string + list entry :=
  match get result "success" with
  | inl e => inl e
  | inr success =>
      if truthy success then
        match get result "qr_codes" with
        | inl e => inl e
        | inr qr_codes =>
            if truthy qr_codes then
              match qr_codes with
              | Some v => map_qr_codes v
              | None => inr []
              end
            else inr []
        end
      else inr []
  end.

(** The body of the [try] block: a value, an exception, or an [await] that
    never resumes. *)
Definition detectWithGoQRAPI_try (e : env) : settled (list entry) :=
  if negb (context2d e) then Fulfilled []
  else if negb (blob e) then Pending
  else
    match fetched e with
    | FetchRejects => Rejected "TypeError: Failed to fetch"
    | FetchHangs => Pending
    | Response status body =>
        if negb (ok status) then Rejected "Backend API request failed"
        else
          match body with
          | None => Rejected "SyntaxError"
          | Some result =>
              match parse_response result with
              | inl error => Rejected error
              | inr entries => Fulfilled entries
              end
          end
    | ResponseHangs status =>
        if negb (ok status) then Rejected "Backend API request failed"
        else Pending
    end.

(** [detectWithGoQRAPI]: the [catch] block turns every exception into the
    empty array. *)
Definition detectWithGoQRAPI (e : env) : settled (list entry) :=
  match detectWithGoQRAPI_try e with
  | Rejected _ => Fulfilled []
  | r => r
  end.

End Parse.

(** The body the wrapper is written for, as its reads of [result] and the
    element type [QRCodeResult] of what it returns say: an object with a
    boolean [success]; when [success] is true, [qr_codes] is an array of
    objects, each with strings under [data], [type] and [method]. *)
Definition is_string (v : option json) : bool :=
  match v with
  | Some (JStr _) => true
  | _ => false
  end.

Definition well_formed_code (qr : json) : bool :=
  match qr with
  | JObj members =>
      is_string (lookup_last "data" members)
      && is_string (lookup_last "type" members)
      && is_string (lookup_last "method" members)
  | _ => false
  end.

Definition well_formed_body (result : json) : bool :=
  match result with
  | JObj members =>
      match lookup_last "success" members with
      | Some (JBool true) =>
          match lookup_last "qr_codes" members with
          | Some (JArr items) => forallb well_formed_code items
          | _ => false
          end
      | Some (JBool false) => true
      | _ => false
      end
  | _ => false
  end.

(** The failures of the remote call, as listed: no answer within the time
    limit (the only time limit there is being that of the network stack, which
    makes [fetch] reject), a status outside 200..299, or a malformed body:
    one that is not JSON, or JSON that is not a well-formed body. *)
Inductive remote_failure : fetch_result -> Prop :=
  | fail_timeout : remote_failure FetchRejects
  | fail_status status body : ok status = false -> remote_failure (Response status body)
  | fail_not_json status : remote_failure (Response status None)
  | fail_malformed status result :
      well_formed_body result = false -> remote_failure (Response status (Some result)).

End RemoteDecoder.

(** ** The detection cascade: [detectQRCodes] *)

Module Detection.
Import Image.

Record Point : Type := { px : Z; py : Z }.

Record Location : Type := {
  topLeftCorner : Point;
  topRightCorner : Point;
  bottomLeftCorner : Point;
  bottomRightCorner : Point
}.

Record QRCodeResult : Type := {
  data : string;
  type : string;
  location : option Location;
  method : string
}.

(** [removeDuplicates]: the filter with its set of data strings seen so far. *)
Fixpoint removeDuplicates_from (seen : gset string) (results : list QRCodeResult)
  : list QRCodeResult :=
  match results with
  | [] => []
  | result :: rest =>
      if decide (data result ∈ seen) then removeDuplicates_from seen rest
      else result :: removeDuplicates_from ({[ data result ]} ∪ seen) rest
  end.

Definition removeDuplicates (results : list QRCodeResult) : list QRCodeResult :=
  removeDuplicates_from ∅ results.

(** Where in the cascade a decoder is called: on the original image, or on
    the [i]-th preprocessed image. *)
Inductive level : Type :=
  | Raw
  | Pre (i : nat).

(** A decoder call, as observed from outside. *)
Inductive event : Type :=
  | Local (l : level) (img : ImageData)
  | Remote (l : level) (img : ImageData).

Section Cascade.

Variable luma : Z -> Z -> Z -> Z.

(** [detectWithJSQR] and the awaited [detectWithGoQRAPI], as functions of the
    image: what the two decoders answer.  Neither throws. *)
Variable detectWithJSQR : ImageData -> option QRCodeResult.
Variable detectWithGoQRAPI : ImageData -> list QRCodeResult.

(** [detectWithZXing]: skipped by the source, always empty. *)
Definition detectWithZXing (_ : ImageData) : list QRCodeResult := [].

(** The loop over the preprocessed images, from index [i]: the results pushed
    and the decoder calls made. *)
Fixpoint preprocessed_loop (i : nat) (preprocessedImages : list ImageData)
  : list QRCodeResult * list event :=
  match preprocessedImages with
  | [] => ([], [])
  | processedImage :: rest =>
      match detectWithJSQR processedImage with
      | Some processedResult =>
          ([processedResult], [Local (Pre i) processedImage])
      | None =>
          match detectWithGoQRAPI processedImage with
          | [] =>
              let '(results, events) := preprocessed_loop (S i) rest in
              (results,
               Local (Pre i) processedImage :: Remote (Pre i) processedImage :: events)
          | goQRResults =>
              (goQRResults,
               [Local (Pre i) processedImage; Remote (Pre i) processedImage])
          end
      end
  end.

(** [detectQRCodes], after [initialize]: the array returned and the decoder
    calls made, in order. *)
Definition detectQRCodes_run (imageData : ImageData)
  : list QRCodeResult * list event :=
  let '(results, events) :=
    match detectWithJSQR imageData with
    | Some jsQRResult => ([jsQRResult], [Local Raw imageData])
    | None =>
        let '(results, events) :=
          preprocessed_loop 0 (preprocessImage luma imageData) in
        (results, Local Raw imageData :: events)
    end in
  match results with
  | [] =>
      match detectWithGoQRAPI imageData with
      | [] =>
          (removeDuplicates (results ++ detectWithZXing imageData),
           events ++ [Remote Raw imageData])
      | goQRResults =>
          (* return results; the early return *)
          (results ++ goQRResults, events ++ [Remote Raw imageData])
      end
  | _ =>
      (removeDuplicates (results ++ detectWithZXing imageData), events)
  end.

Definition detectQRCodes (imageData : ImageData) : list QRCodeResult :=
  (detectQRCodes_run imageData).1.

Definition detectQRCodes_trace (imageData : ImageData) : list event :=
  (detectQRCodes_run imageData).2.

End Cascade.

End Detection.

(** ** The card finder: [CardDetectionService] *)

Module CardDetection.

(** *** [enhanceContrast] *)

(** An integer from 0 up to 2^53 as a number (a double): exact. *)
Definition number_of (z : Z) : PrimFloat.float :=
  PrimFloat.of_uint63 (Uint63.of_Z z).

(** [Math.round(x)] for [0 <= x < 256]: the closest integer, the upper one
    of two equally close; that is the least [k] with [x < k + 0.5]. *)
Fixpoint round_from (fuel : nat) (k : Z) (x : PrimFloat.float) : Z :=
  match fuel with
  | O => k
  | S fuel' =>
      if PrimFloat.ltb x
           (PrimFloat.add (number_of k) (PrimFloat.div (number_of 1) (number_of 2)))
      then k
      else round_from fuel' (k + 1)%Z x
  end.
Definition Math_round (x : PrimFloat.float) : Z := round_from 256 0%Z x.

(** A write into a [Uint8Array]: modulo 256. *)
Definition to_uint8 (v : Z) : Z := (v mod 256)%Z.

(** [Math.round(((d - min) / range) * 255)] *)
Definition stretched (d min range : Z) : Z :=
  Math_round (PrimFloat.mul
                (PrimFloat.div (number_of (d - min)) (number_of range))
                (number_of 255)).

(** [enhanceContrast(data)] on a [Uint8Array]: the bytes stretched to the
    full range, or copied when the range is empty. *)
Definition enhanceContrast (data : list Z) : list Z :=
  let min := foldl Z.min 255%Z data in
  let max := foldl Z.max 0%Z data in
  let range := (max - min)%Z in
  if (0 <? range)%Z
  then (fun d => to_uint8 (stretched d min range)) <$> data
  else data.

(** *** [getContourBounds] *)

(** A number that may be infinite, or no number. *)
Inductive num : Type := NaN | NegInf | Num (z : Z) | PosInf.

(** [Math.min], [Math.max] and the difference. *)
Definition num_min (a b : num) : num :=
  match a, b with
  | NaN, _ | _, NaN => NaN
  | NegInf, _ | _, NegInf => NegInf
  | PosInf, c | c, PosInf => c
  | Num x, Num y => Num (Z.min x y)
  end.
Definition num_max (a b : num) : num :=
  match a, b with
  | NaN, _ | _, NaN => NaN
  | PosInf, _ | _, PosInf => PosInf
  | NegInf, c | c, NegInf => c
  | Num x, Num y => Num (Z.max x y)
  end.
Definition num_sub (a b : num) : num :=
  match a, b with
  | NaN, _ | _, NaN => NaN
  | Num x, Num y => Num (x - y)
  | PosInf, PosInf | NegInf, NegInf => NaN
  | PosInf, _ | _, NegInf => PosInf
  | NegInf, _ | _, PosInf => NegInf
  end.

Record point : Type := XY { p_x : Z; p_y : Z }.

Record bounds : Type := Bounds {
  b_x : num; b_y : num; b_width : num; b_height : num;
  corners : list (num * num)
}.

Definition getContourBounds (contour : list point) : bounds :=
  let minX := foldl (fun m p => num_min m (Num (p_x p))) PosInf contour in
  let minY := foldl (fun m p => num_min m (Num (p_y p))) PosInf contour in
  let maxX := foldl (fun m p => num_max m (Num (p_x p))) NegInf contour in
  let maxY := foldl (fun m p => num_max m (Num (p_y p))) NegInf contour in
  {| b_x := minX; b_y := minY;
     b_width := num_sub maxX minX; b_height := num_sub maxY minY;
     corners := [ (minX, minY); (maxX, minY); (maxX, maxY); (minX, maxY) ] |}.

End CardDetection.

(** * Reference definitions

    The sample inputs, the readings of the stated properties, and the
    auxiliary functions the proofs compare the code with. *)

Import JS Regex Extract QRContent Image RemoteDecoder Detection.

(** ** Sample inputs *)

(** The business-card text of the field-isolation example. *)
Definition card_text : string :=
  "M +91 9848806006 Tel: 91-40-55316666 Ohri Towers, Road No. 2, 500034".

(** The vCard payload of the classification examples; its lines are separated
    by line feeds. *)
Definition vcard_sample : string :=
  "BEGIN:VCARD" +:+ String newline
  ("FN:Jane Doe" +:+ String newline
  ("ORG:Acme Ltd" +:+ String newline
  ("EMAIL:jane@acme.com" +:+ String newline
   "END:VCARD"))).

(** A text whose second line is a name. *)
Definition two_line_text : string :=
  "hello" +:+ String newline "Jane Doe".

(** The luminance expression of the source on bytes, computed as the host
    language computes it, on doubles:
    [Math.round(0.299 * r + 0.587 * g + 0.114 * b)], each product and each sum
    rounded to the nearest double.  A decimal literal denotes the double
    nearest to it, which is what the division of two integers gives.  This is
    the reading of [luma] used to run the transforms on sample images. *)
Definition decimal (n d : Z) : PrimFloat.float :=
  PrimFloat.div (CardDetection.number_of n) (CardDetection.number_of d).

Definition luma_double (r g b : Z) : Z :=
  CardDetection.Math_round
    (PrimFloat.add
       (PrimFloat.add
          (PrimFloat.mul (decimal 299 1000) (CardDetection.number_of r))
          (PrimFloat.mul (decimal 587 1000) (CardDetection.number_of g)))
       (PrimFloat.mul (decimal 114 1000) (CardDetection.number_of b))).

(** A two-pixel image, its red and green bytes different, and a decoded entry. *)
Definition dup_image : ImageData :=
  {| width := 2; height := 1;
     Image.data := [100; 50; 100; 255; 200; 128; 0; 7]%Z |}.

Definition dup_result : QRCodeResult :=
  {| Detection.data := "https://example.com"; type := "QRCODE";
     location := None; method := "goqr" |}.

(** Decoders for that image: the local one finds nothing; the remote one
    reads the code twice from the original image and nothing from any other
    image. *)
Definition no_local : ImageData → option QRCodeResult := fun _ => None.
Definition remote_twice (img : ImageData) : list QRCodeResult :=
  if decide (Image.data img = Image.data dup_image)
  then [dup_result; dup_result] else [].

(** A flat frame: one pixel, every byte 100. *)
Definition flat_image : ImageData :=
  {| width := 1; height := 1; Image.data := [100; 100; 100; 100]%Z |}.

(** A request that runs into a time limit of the network stack: [fetch]
    rejects. *)
Definition timed_out : env :=
  {| context2d := true; blob := true; fetched := FetchRejects |}.

(** ** Classification *)

(** The kinds a classification can end with. *)
Definition kinds : list string :=
  [ "url"; "email"; "phone"; "vcard"; "wifi"; "sms"; "linkedin"; "social"; "text" ].

(** A payload that the URL rule and the e-mail rule have let through. *)
Definition reaches_phone_rule (qrData : string) : Prop :=
  startsWith "http://" qrData || startsWith "https://" qrData
    || startsWith "www." qrData = false
  ∧ includes "@" qrData && includes "." qrData = false.

(** The phone rule as stated: digits and punctuation only, and at least 10
    characters left once the separators (space, dash, parentheses) are
    stripped. *)
Definition is_separator (c : ascii) : bool :=
  Ascii.eqb c " " || Ascii.eqb c "-" || Ascii.eqb c "(" || Ascii.eqb c ")".

Definition phone_by_stripped_length (s : string) : bool :=
  forall_chars (fun c => is_digit c || is_separator c || Ascii.eqb c "+") s
  && (10 <=? String.length (filter_chars (fun c => negb (is_separator c)) s)).

(** The phone rule as the code has it: after one optional plus sign, at least
    10 characters, each a digit, a white-space character, a dash or a
    parenthesis; the separators count. *)
Definition phone_char (c : ascii) : bool :=
  is_digit c || is_space c || Ascii.eqb c "-" || Ascii.eqb c "(" || Ascii.eqb c ")".

Definition strip_plus (s : string) : string :=
  match s with
  | String c s' => if Ascii.eqb c "+" then s' else s
  | EmptyString => s
  end.

Definition phone_shape (s : string) : bool :=
  forall_chars phone_char (strip_plus s) && (10 <=? String.length (strip_plus s)).

(** ** Scanning without the matcher *)

(** A greedy run over a character class, by recursion on the input: what the
    matcher does for a quantified class. *)
Fixpoint greedy (p : ascii → bool) (lo : nat) (k : cont) (prev : option ascii) (s : string)
  : option string :=
  let stop := if (lo =? 0) then k prev s else None in
  match s with
  | String c s' =>
      if p c then
        match greedy p (Nat.pred lo) k (Some c) s' with
        | Some e => Some e
        | None => stop
        end
      else stop
  | EmptyString => stop
  end.

(** The longest prefix in a class, and what follows it. *)
Fixpoint span (p : ascii → bool) (s : string) : string * string :=
  match s with
  | String c s' =>
      if p c then (String c (span p s').1, (span p s').2) else (EmptyString, s)
  | EmptyString => (EmptyString, EmptyString)
  end.

(** One or more characters of a class, as many as there are, and the rest. *)
Definition run (p : ascii → bool) (s : string) : option (string * string) :=
  match (span p s).1 with
  | EmptyString => None
  | w => Some (w, (span p s).2)
  end.

(** A string that is not empty and holds no white space. *)
Definition solid (b : string) : Prop :=
  b ≠ "" ∧ forall_chars (fun c => negb (is_space c)) b = true.

(** ** The name, in words *)

(** A capital letter followed by small letters, at least one and as many as
    there are. *)
Definition capitalised_word (s : string) : option (string * string) :=
  match s with
  | String c s' =>
      if is_upper c then
        match run is_lower s' with
        | Some (w, r) => Some (String c w, r)
        | None => None
        end
      else None
  | EmptyString => None
  end.

(** White space and a capitalised word. *)
Definition next_word (s : string) : option (string * string) :=
  match run is_space s with
  | Some (sp, r) =>
      match capitalised_word r with
      | Some (w, r') => Some (sp +:+ w, r')
      | None => None
      end
  | None => None
  end.

(** Two capitalised words, and a third one when it follows. *)
Definition two_or_three_words (s : string) : option (string * string) :=
  match capitalised_word s with
  | Some (w1, r1) =>
      match next_word r1 with
      | Some (w2, r2) =>
          match next_word r2 with
          | Some (w3, r3) => Some (w1 +:+ w2 +:+ w3, r3)
          | None => Some (w1 +:+ w2, r2)
          end
      | None => None
      end
  | None => None
  end.

(** A capitalised word, white space and one capital letter. *)
Definition word_and_initial (s : string) : option (string * string) :=
  match capitalised_word s with
  | Some (w1, r1) =>
      match run is_space r1 with
      | Some (sp, String c r2) =>
          if is_upper c then Some (w1 +:+ sp +:+ String c "", r2) else None
      | _ => None
      end
  | None => None
  end.

(** The white space and third word of the first name pattern, as a group. *)
Definition re_next_word : regex := Cat re_spaces re_capword.

(** The name at the head of a normalised text: its two or three leading
    capitalised words, or else its leading capitalised word and initial,
    whichever comes first and is acceptable (no stop word, under 50
    characters). *)
Definition leading_name (t : string) : option string :=
  let initial :=
    match word_and_initial t with
    | Some (n, _) => if name_ok n then Some n else None
    | None => None
    end in
  match two_or_three_words t with
  | Some (n, _) => if name_ok n then Some n else initial
  | None => initial
  end.

(** The name as the code has it: read off the head of the normalised text. *)
Definition name_at_head (text : string) : string :=
  match text with
  | EmptyString => ""
  | _ => default "" (leading_name (clean text))
  end.

(** The name as stated: the text is split on line breaks, and the first line
    that starts with two or three capitalised words free of stop words gives
    the name. *)
Definition line_name (line : string) : option string :=
  match two_or_three_words line with
  | Some (n, _) =>
      if forallb (fun w => negb (includes w (toLowerCase n))) name_stopwords
      then Some n else None
  | None => None
  end.

Fixpoint first_line_name (lines : list string) : option string :=
  match lines with
  | [] => None
  | l :: rest =>
      match line_name l with
      | Some n => Some n
      | None => first_line_name rest
      end
  end.

Definition name_by_lines (text : string) : string :=
  default "" (first_line_name (split newline text)).

(** ** The cascade *)

(** The full schedule of the preprocessed tier from index [i]: on each image
    the local decoder, then the remote one. *)
Fixpoint schedule (i : nat) (preprocessedImages : list ImageData) : list event :=
  match preprocessedImages with
  | [] => []
  | img :: rest => Local (Pre i) img :: Remote (Pre i) img :: schedule (S i) rest
  end.

(** A decoder call that produced a payload. *)
Definition yields (detectWithJSQR : ImageData → option QRCodeResult)
    (detectWithGoQRAPI : ImageData → list QRCodeResult) (e : event) : bool :=
  match e with
  | Local _ img => bool_decide (is_Some (detectWithJSQR img))
  | Remote _ img => bool_decide (detectWithGoQRAPI img ≠ [])
  end.

(** ** Image preprocessing *)

(** The loops of the three transforms all write one pixel per round, each of
    its four bytes computed from the original data alone. *)
Definition write_pixel (a : nat → nat → Z) (data : list Z) (i : nat) : list Z :=
  <[i + 3 := a 3 i]> (<[i + 2 := a 2 i]> (<[i + 1 := a 1 i]> (<[i := a 0 i]> data))).

(** The bytes each transform writes for the pixel at offset [i]. *)
Definition contrast_bytes (original : list Z) (k i : nat) : Z :=
  match k with
  | 0 => contrast (original !! i)
  | 1 => contrast (original !! (i + 1))
  | 2 => contrast (original !! (i + 2))
  | _ => store_int (original !! (i + 3))
  end.

Definition gray_bytes (luma : Z → Z → Z → Z) (original : list Z) (k i : nat) : Z :=
  match k with
  | 0 | 1 | 2 => store_int (gray_at luma original i)
  | _ => store_int (original !! (i + 3))
  end.

Definition threshold_bytes (luma : Z → Z → Z → Z) (original : list Z) (k i : nat) : Z :=
  match k with
  | 0 | 1 | 2 => binarize (gray_at luma original i) (threshold_of luma original)
  | _ => store_int (original !! (i + 3))
  end.

(** What makes a transform keep the frame: same dimensions, same number of
    bytes, same alpha in every pixel. *)
Definition keeps_frame (img out : ImageData) : Prop :=
  width out = width img
  ∧ height out = height img
  ∧ length (Image.data out) = length (Image.data img)
  ∧ ∀ p, p < width img * height img →
         Image.data out !! (4 * p + 3) = Image.data img !! (4 * p + 3).

(** The smallest and the largest byte of a frame. *)
Definition global_min (img : ImageData) : Z := foldr Z.min 255%Z (Image.data img).
Definition global_max (img : ImageData) : Z := foldr Z.max 0%Z (Image.data img).

(** The number written for a colour byte [v], doubled and before rounding:
    [2 * ((v - 128) * 1.5 + 128)] clamped to [2 * 0 .. 2 * 255]. *)
Definition doubled_gain (v : Z) : Z := Z.max 0 (Z.min 510 (3 * v - 128)).

Definition contrast_check (v : Z) : bool :=
  let r := contrast (Some v) in
  (0 <=? r)%Z && (r <=? 255)%Z
  && (Z.abs (2 * r - doubled_gain v) <=? 1)%Z
  && Bool.eqb (r =? v)%Z ((v =? 0)%Z || (v =? 128)%Z || (v =? 255)%Z).

(** ** More sample inputs *)

(** A local decoder that reads every image, and a remote one that reads
    none. *)
Definition local_once : ImageData → option QRCodeResult := fun _ => Some dup_result.
Definition no_remote : ImageData → list QRCodeResult := fun _ => [].

(** A vCard without an e-mail address. *)
Definition vcard_plain : string :=
  "BEGIN:VCARD" +:+ String newline ("FN:Jane Doe" +:+ String newline "END:VCARD").

(** ** Structured payloads *)

(** The part of a string before its first occurrence of a separator. *)
Definition before_sep (sep : ascii) (s : string) : string :=
  (span (fun c => negb (Ascii.eqb c sep)) s).1.

(** A string free of a given character. *)
Definition free_of (sep : ascii) (s : string) : bool :=
  forall_chars (fun c => negb (Ascii.eqb c sep)) s.

(** The field names [parseVCard] and [parseWiFi] can set. *)
Definition vcard_fields : gset string :=
  {[ "name"; "company"; "title"; "email"; "phone"; "website"; "address" ]}.
Definition wifi_fields : gset string :=
  {[ "ssid"; "password"; "security" ]}.

(** A WiFi payload, as a generator writes it. *)
Definition wifi_payload (ssid password security : string) : string :=
  "WIFI:S:" +:+ ssid +:+ ";P:" +:+ password +:+ ";T:" +:+ security +:+ ";;".

(** The URL rule and the e-mail rule. *)
Definition url_rule (qrData : string) : bool :=
  startsWith "http://" qrData || startsWith "https://" qrData
    || startsWith "www." qrData.
Definition email_rule (qrData : string) : bool :=
  includes "@" qrData && includes "." qrData.

(** A vCard, as a generator writes it. *)
Definition vcard_payload (name org email : string) : string :=
  "BEGIN:VCARD" +:+ String newline
  ("FN:" +:+ name +:+ String newline
  ("ORG:" +:+ org +:+ String newline
  ("EMAIL:" +:+ email +:+ String newline
   "END:VCARD"))).

(** An invariant of the two field loops: the fields set so far are among the
    known ones, and no value holds a colon. *)
Definition fields_ok (fields : gset string) (details : gmap string string) : Prop :=
  dom details ⊆ fields ∧ map_Forall (fun _ v => free_of ":" v = true) details.

(** ** Counting decoder calls *)

Definition is_remote (e : event) : bool :=
  match e with Remote _ _ => true | Local _ _ => false end.

(** ** The renderings, byte by byte *)

(** The bytes [resizeImage] writes at target offset [i]: those of the source
    pixel twice as far right and twice as far down. *)
Definition resize_bytes (imageData : ImageData) (newWidth : nat) (k i : nat) : Z :=
  let j := i / 4 in
  let sourceIndex :=
    (unscale_half (j / newWidth) * width imageData + unscale_half (j mod newWidth)) * 4 in
  match k with
  | 0 => store_int (Image.data imageData !! sourceIndex)
  | 1 => store_int (Image.data imageData !! (sourceIndex + 1))
  | 2 => store_int (Image.data imageData !! (sourceIndex + 2))
  | _ => store_int (Image.data imageData !! (sourceIndex + 3))
  end.

(** A byte pair ordered by brightness stays ordered, and a byte moves away
    from mid-grey or stays. *)
Definition contrast_order_check (u : Z) : bool :=
  forallb (fun v => implb (u <=? v)%Z (contrast (Some u) <=? contrast (Some v))%Z)
          (seqZ 0 256)
  && implb (128 <=? u)%Z (u <=? contrast (Some u))%Z
  && implb (u <=? 128)%Z (contrast (Some u) <=? u)%Z.

(** ** Remote answers *)

(** An answer of the expected shape with one decoded entry. *)
Definition one_code : env :=
  {| context2d := true; blob := true;
     fetched := Response 200
       (Some (JObj [ ("success", JBool true);
                     ("qr_codes", JArr [ JObj [ ("data", JStr "https://example.com");
                                                 ("type", JStr "QRCODE") ] ]) ])) |}.

(** A 2xx answer that announces success and lists three codes, none of them
    of the expected shape: a number, a string and an object without
    members. *)
Definition unchecked_body : json :=
  JObj [ ("success", JBool true);
         ("qr_codes", JArr [ JNum (42 # 1); JStr "x"; JObj [] ]) ].

Definition unchecked : env :=
  {| context2d := true; blob := true;
     fetched := Response 200 (Some unchecked_body) |}.

(** An entry whose four properties are all [undefined]. *)
Definition undefined_entry : entry :=
  {| e_data := None; e_type := None; e_location := None; e_method := None |}.

(** The codes a body announces: the items of [qr_codes], when the body is an
    object with a truthy [success] and [qr_codes] is an array; none
    otherwise. *)
Definition announced_codes (result : json) : list json :=
  match result with
  | JObj members =>
      if truthy (lookup_last "success" members) then
        match lookup_last "qr_codes" members with
        | Some (JArr items) => items
        | _ => []
        end
      else []
  | _ => []
  end.

Definition is_null (v : json) : bool :=
  match v with
  | JNull => true
  | _ => false
  end.

(** A code as it is passed on: its members [data], [type], [rect] and
    [method] as they are, [undefined] for a member it lacks and for every
    member of a code that is no object. *)
Definition member (qr : json) (key : string) : option json :=
  match qr with
  | JObj members => lookup_last key members
  | _ => None
  end.

Definition passed_on (qr : json) : entry :=
  {| e_data := member qr "data"; e_type := member qr "type";
     e_location := member qr "rect"; e_method := member qr "method" |}.

(** ** What a match is *)

(** [lang ic r prev m rest]: the pattern [r] matches the text [m] when [m]
    comes after the code unit [prev] ([None]: at the start of the input) and
    before [rest].  An iteration of a quantifier whose minimum is reached
    matches something. *)
Inductive lang (ic : bool) : regex → option ascii → string → string → Prop :=
  | lang_eps prev rest : lang ic Eps prev "" rest
  | lang_chr a c prev rest :
      chr_matches ic a c = true → lang ic (Chr a) prev (String c "") rest
  | lang_cls neg rs c prev rest :
      cls_matches ic neg rs c = true → lang ic (Cls neg rs) prev (String c "") rest
  | lang_cat r1 r2 prev m1 m2 rest :
      lang ic r1 prev m1 (m2 +:+ rest) →
      lang ic r2 (last_char prev m1) m2 rest →
      lang ic (Cat r1 r2) prev (m1 +:+ m2) rest
  | lang_alt_l r1 r2 prev m rest :
      lang ic r1 prev m rest → lang ic (Alt r1 r2) prev m rest
  | lang_alt_r r1 r2 prev m rest :
      lang ic r2 prev m rest → lang ic (Alt r1 r2) prev m rest
  | lang_rep_stop hi r prev rest : lang ic (Rep 0 hi r) prev "" rest
  | lang_rep_more lo hi r prev m1 m2 rest :
      hi ≠ Some 0 →
      (lo = 0 → m1 ≠ "") →
      lang ic r prev m1 (m2 +:+ rest) →
      lang ic (Rep (Nat.pred lo) (Nat.pred <$> hi) r) (last_char prev m1) m2 rest →
      lang ic (Rep lo hi r) prev (m1 +:+ m2) rest
  | lang_bol rest : lang ic Bol None "" rest
  | lang_eol prev : lang ic Eol prev "" ""
  | lang_wordb prev rest :
      xorb (word_before prev) (word_after rest) = true → lang ic WordB prev "" rest.

(** A pattern the source can hold: no quantifier with its bounds out of
    order, which is a syntax error. *)
Fixpoint bounded (r : regex) : bool :=
  match r with
  | Cat r1 r2 | Alt r1 r2 => bounded r1 && bounded r2
  | Rep lo (Some h) r1 => (lo <=? h) && bounded r1
  | Rep _ None r1 => bounded r1
  | _ => true
  end.

(** [s] holds a match of [r]. *)
Definition holds (ic : bool) (r : regex) (s : string) : Prop :=
  ∃ b m a, s = b +:+ m +:+ a ∧ lang ic r (last_char None b) m a.

(** What the matcher passes to its continuation. *)
Definition sound_at (ic : bool) (r : regex) (m : cont → cont) : Prop :=
  ∀ k prev s e, m k prev s = Some e →
    ∃ m1 rest, s = m1 +:+ rest ∧ lang ic r prev m1 rest
               ∧ k (last_char prev m1) rest = Some e.

Definition complete_at (ic : bool) (r : regex) (m : cont → cont) : Prop :=
  ∀ k prev s, m k prev s = None →
    ∀ m1 rest, s = m1 +:+ rest → lang ic r prev m1 rest →
               k (last_char prev m1) rest = None.

(** A literal matches itself, and under the [i] flag any text with the same
    upper-case form. *)
Definition same_text (ic : bool) (w m : string) : Prop :=
  if ic then toUpperCase m = toUpperCase w else m = w.

(** ** The fields, in words *)

(** The characters of the local part and of the domain of an address. *)
Definition local_char (c : ascii) : bool :=
  is_alpha c || is_digit c
  || Ascii.eqb c "." || Ascii.eqb c "_" || Ascii.eqb c "%" || Ascii.eqb c "+"
  || Ascii.eqb c "-".
Definition domain_char (c : ascii) : bool :=
  is_alpha c || is_digit c || Ascii.eqb c "." || Ascii.eqb c "-".

(** An address: a local part, an at sign, a domain, a dot and two letters or
    more. *)
Definition email_shape (m : string) : Prop :=
  ∃ l d t, m = l +:+ "@" +:+ d +:+ "." +:+ t
           ∧ l ≠ "" ∧ forall_chars local_char l = true
           ∧ d ≠ "" ∧ forall_chars domain_char d = true
           ∧ 2 ≤ String.length t ∧ forall_chars is_alpha t = true.

(** A web address: one of three prefixes, in any case, and one character or
    more, none of them white space. *)
Definition web_prefixes : list string := [ "HTTP://"; "HTTPS://"; "WWW." ].
Definition web_shape (m : string) : Prop :=
  ∃ p w, m = p +:+ w ∧ toUpperCase p ∈ web_prefixes
         ∧ w ≠ "" ∧ forall_chars (fun c => negb (is_space c)) w = true.

(** A postal code: six digits that no letter, digit or underscore touches. *)
Definition pin_shape (prev : option ascii) (m rest : string) : Prop :=
  String.length m = 6 ∧ forall_chars is_digit m = true
  ∧ word_before prev = false ∧ word_after rest = false.

(** ** Normalised text *)

Definition not_space (c : ascii) : bool := negb (is_space c).

Definition starts_space (s : string) : bool :=
  match s with String c _ => is_space c | EmptyString => false end.

(** Every run of white space replaced by [by_], by recursion on the text;
    [in_run] says that the character before was white space. *)
Fixpoint collapse (by_ : string) (in_run : bool) (s : string) : string :=
  match s with
  | EmptyString => EmptyString
  | String c s' =>
      if is_space c then
        if in_run then collapse by_ true s' else by_ +:+ collapse by_ true s'
      else String c (collapse by_ false s')
  end.

(** Every white-space character is a space and is followed by a character
    that is not white space. *)
Fixpoint tight (s : string) : bool :=
  match s with
  | EmptyString => true
  | String c s' =>
      (if is_space c then
         Ascii.eqb c " " && match s' with
                            | String c' _ => not_space c'
                            | EmptyString => false
                            end
       else true)
      && tight s'
  end.

(** A normalised text: it does not start with white space, and its words are
    separated by single spaces. *)
Definition normal (s : string) : bool := negb (starts_space s) && tight s.

(** The same with white space allowed at the end. *)
Fixpoint loose (s : string) : bool :=
  match s with
  | EmptyString => true
  | String c s' =>
      (if is_space c then Ascii.eqb c " " && negb (starts_space s') else true)
      && loose s'
  end.

(** ** The phone number, in words *)

(** The characters of a number as it stands in the text, and as it is
    stored. *)
Definition body_char (c : ascii) : bool :=
  is_digit c || Ascii.eqb c "+" || Ascii.eqb c "-" || is_space c.
Definition phone_digit (c : ascii) : bool :=
  is_digit c || Ascii.eqb c "+" || Ascii.eqb c "-".

(** A number as the four patterns find it, without its label: it starts with
    a plus sign or the country code, ends with digits, and holds 11 digits
    or more among at most 16 characters that are not white space. *)
Definition phone_body (s : string) : Prop :=
  (∃ c s', s = String c s' ∧ (c = "+"%char ∨ c = "9"%char))
  ∧ (∃ y d, s = y +:+ d ∧ d ≠ "" ∧ forall_chars is_digit d = true)
  ∧ forall_chars body_char s = true
  ∧ 11 ≤ String.length (filter_chars is_digit s)
  ∧ String.length (filter_chars not_space s) ≤ 16.

(** What the loop over the phone patterns makes of a match. *)
Definition phone_of_match (m : string) : string :=
  replace_all false re_spaces "" (replace_first true re_phone_label "" (trim m)).

(** Every code unit below 256. *)
Definition all_chars : list ascii := ascii_of_nat <$> seq 0 256.

(** ** Titles and companies, in words *)

(** Words separated by white space, as a pattern and as a text. *)
Fixpoint phrase_regex (ph : list string) : regex :=
  match ph with
  | [] => Eps
  | [w] => lit w
  | w :: ph' => Cat (lit w) (Cat re_spaces (phrase_regex ph'))
  end.

Fixpoint join_words (ph : list string) : string :=
  match ph with
  | [] => ""
  | [w] => w
  | w :: ph' => w +:+ " " +:+ join_words ph'
  end.

(** The titles and the company suffixes the patterns list. *)
Definition title_phrases : list (list string) :=
  [ ["Systems"; "Analyst"]; ["Project"; "Manager"]; ["Software"; "Engineer"];
    ["Senior"; "Developer"]; ["Team"; "Lead"];
    ["Director"]; ["Manager"]; ["Analyst"]; ["Engineer"]; ["Developer"];
    ["Consultant"]; ["Specialist"]; ["Executive"]; ["President"]; ["CEO"];
    ["CTO"]; ["VP"]; ["Designer"]; ["Coordinator"]; ["Assistant"] ].

Definition company_suffixes : list string :=
  [ "Ltd"; "Inc"; "Corp"; "Company"; "Services"; "Technologies"; "Solutions";
    "Systems"; "Computer"; "Software"; "Tech"; "Group"; "Holdings";
    "Enterprises"; "Private"; "Pvt" ].

(** A title as stored: one of the listed titles, in any case, its words
    separated by one space. *)
Definition title_shape (t : string) : Prop :=
  ∃ ph, ph ∈ title_phrases ∧ toUpperCase t = toUpperCase (join_words ph).

(** A company as stored: a letter, then letters, white space and ampersands,
    then one of the listed suffixes, in any case. *)
Definition company_char (c : ascii) : bool :=
  is_alpha c || is_space c || Ascii.eqb c "&".
Definition company_shape (m : string) : Prop :=
  ∃ c0 run sfx w,
    m = String c0 run +:+ sfx
    ∧ is_alpha c0 = true
    ∧ run ≠ "" ∧ forall_chars company_char run = true
    ∧ w ∈ company_suffixes ∧ toUpperCase sfx = toUpperCase w.

(** A text that starts with a character that is not white space and ends
    with one. *)
Definition framed (m : string) : Prop :=
  (∃ c s, m = String c s ∧ is_space c = false)
  ∧ (∃ y d, m = y +:+ d ∧ solid d).

(** A word of letters. *)
Definition word_ok (w : string) : bool :=
  negb (String.eqb w "") && forall_chars is_alpha w.

(** ** The card finder *)

(** The exact value of the stretch, rounded half up. *)
Definition stretch_exact (a r : Z) : Z := ((510 * a + r) / (2 * r))%Z.

(** A buffer of three bytes and a contour of three points. *)
Definition grey_sample : list Z := [100; 50; 200]%Z.
Definition contour_sample : list CardDetection.point :=
  [ CardDetection.XY 3 7; CardDetection.XY 10 2; CardDetection.XY 5 9 ]%Z.

(** * Properties *)

(** ** The matcher *)

Lemma search_anchored_later ic r c s : search ic (Cat Bol r) (Some c) s = None.
Proof.
  revert c. induction s as [|c' s IH]; intros c; simpl.
  - reflexivity.
  - unfold match_here. simpl. by rewrite IH.
Qed.

Lemma search_anchored ic r s :
  search ic (Cat Bol r) None s
  = match match_here ic (Cat Bol r) None s with
    | Some s' => Some (Found "" (str_take (String.length s - String.length s') s) s')
    | None => None
    end.
Proof.
  destruct s as [|c s]; simpl.
  - by destruct (match_here _ _ _ _).
  - destruct (match_here _ _ _ _); [done|]. by rewrite search_anchored_later.
Qed.

Lemma rmatch_cat ic r1 r2 k : rmatch ic (Cat r1 r2) k = rmatch ic r1 (rmatch ic r2 k).
Proof. reflexivity. Qed.

Lemma rmatch_cls ic neg rs k prev s :
  rmatch ic (Cls neg rs) k prev s
  = match s with
    | String c s' => if cls_matches ic neg rs c then k (Some c) s' else None
    | EmptyString => None
    end.
Proof. reflexivity. Qed.

Lemma rmatch_chr ic a k prev s :
  rmatch ic (Chr a) k prev s
  = match s with
    | String c s' => if chr_matches ic a c then k (Some c) s' else None
    | EmptyString => None
    end.
Proof. reflexivity. Qed.

Lemma rmatch_bol ic k s : rmatch ic Bol k None s = k None s.
Proof. reflexivity. Qed.

Lemma rmatch_eol_at_end ic prev s :
  rmatch ic Eol at_end prev s = if String.eqb s "" then Some "" else None.
Proof. by destruct s. Qed.

Lemma rep_loop_done m fuel lo k prev s : rep_loop m fuel lo (Some 0) k prev s = k prev s.
Proof. by destruct fuel. Qed.

Lemma rmatch_opt_empty ic r k prev : rmatch ic (opt r) k prev "" = k prev "".
Proof. reflexivity. Qed.

(** An optional part in front of a non-empty input: the part is tried first,
    and has to consume something. *)
Lemma rmatch_opt_nonempty ic r k prev c s :
  rmatch ic (opt r) k prev (String c s)
  = match rmatch ic r
            (fun prev' s' =>
               if String.length s' =? S (String.length s) then None
               else rep_loop (rmatch ic r) (String.length s) 0 (Some 0) k prev' s')
            prev (String c s) with
    | Some e => Some e
    | None => k prev (String c s)
    end.
Proof. reflexivity. Qed.

(** *** Quantified classes *)

Lemma rep_loop_cls ic neg rs k s : ∀ fuel lo prev,
  lo + String.length s ≤ fuel →
  rep_loop (rmatch ic (Cls neg rs)) fuel lo None k prev s
  = greedy (cls_matches ic neg rs) lo k prev s.
Proof.
  induction s as [|c s IH]; intros fuel lo prev Hfuel; simpl in *.
  - destruct fuel as [|fuel]; simpl.
    + by replace lo with 0 by lia.
    + by destruct lo.
  - destruct fuel as [|fuel]; [lia|]. simpl.
    destruct lo as [|lo]; simpl.
    + destruct (cls_matches ic neg rs c); simpl; [|done].
      rewrite (proj2 (Nat.eqb_neq _ _)) by lia.
      rewrite IH by lia. done.
    + destruct (cls_matches ic neg rs c); simpl; [|done].
      rewrite IH by lia. by destruct (greedy _ _ _ _ _).
Qed.

Lemma rmatch_rep_cls ic neg rs lo k prev s :
  rmatch ic (Rep lo None (Cls neg rs)) k prev s
  = greedy (cls_matches ic neg rs) lo k prev s.
Proof. simpl. by apply rep_loop_cls. Qed.

Lemma greedy_ext p q lo k prev s :
  (∀ c, p c = q c) → greedy p lo k prev s = greedy q lo k prev s.
Proof.
  intros Hpq. revert lo prev. induction s as [|c s IH]; intros lo prev; simpl; [done|].
  by rewrite Hpq, IH.
Qed.

Lemma span_app p s : s = (span p s).1 +:+ (span p s).2.
Proof.
  induction s as [|c s IH]; simpl; [done|].
  destruct (p c); simpl; [|done]. rewrite IH at 1. reflexivity.
Qed.

Lemma span_forall p s : forall_chars p (span p s).1 = true.
Proof.
  induction s as [|c s IH]; simpl; [done|].
  destruct (p c) eqn:Hc; simpl; [|done]. by rewrite Hc, IH.
Qed.

Lemma span_rest p s :
  match (span p s).2 with String c _ => p c = false | EmptyString => True end.
Proof.
  induction s as [|c s IH]; simpl; [done|].
  by destruct (p c) eqn:Hc; simpl.
Qed.

(** When the continuation refuses to start on a character of the class, only
    the longest run can be followed by a match. *)
Lemma greedy_reject p k s : ∀ lo prev,
  (∀ prev' c s', p c = true → k prev' (String c s') = None) →
  greedy p lo k prev s
  = if lo <=? String.length (span p s).1
    then k (last_char prev (span p s).1) (span p s).2 else None.
Proof.
  induction s as [|c s IH]; intros lo prev Hk; simpl.
  - by destruct lo.
  - destruct (p c) eqn:Hc; simpl.
    + rewrite IH by done.
      destruct lo as [|lo]; simpl.
      * destruct (k (last_char (Some c) (span p s).1) (span p s).2); [done|].
        by apply Hk.
      * destruct (lo <=? _); [|done]. by destruct (k _ _).
    + by destruct lo.
Qed.

(** When the continuation accepts after the longest run, that is the match. *)
Lemma greedy_accept p k s : ∀ lo prev,
  lo ≤ String.length (span p s).1 →
  is_Some (k (last_char prev (span p s).1) (span p s).2) →
  greedy p lo k prev s = k (last_char prev (span p s).1) (span p s).2.
Proof.
  induction s as [|c s IH]; intros lo prev Hlo Hk; simpl in *.
  - by replace lo with 0 by lia.
  - destruct (p c) eqn:Hc; simpl in *.
    + rewrite IH by (done || lia). by destruct Hk as [e ->].
    + by replace lo with 0 by lia.
Qed.

Lemma greedy_short p k s lo prev :
  String.length (span p s).1 < lo → greedy p lo k prev s = None.
Proof.
  revert lo prev. induction s as [|c s IH]; intros lo prev Hlo; simpl in *.
  - destruct lo; [lia|done].
  - destruct (p c) eqn:Hc; simpl in *.
    + rewrite IH by lia. destruct lo; [lia|done].
    + destruct lo; [lia|done].
Qed.

(** A run that has to reach the end of the input. *)
Lemma greedy_forall ic p lo prev s :
  greedy p lo (rmatch ic Eol at_end) prev s
  = if forall_chars p s && (lo <=? String.length s) then Some "" else None.
Proof.
  revert lo prev. induction s as [|c s IH]; intros lo prev; simpl.
  - by destruct lo.
  - destruct (p c); simpl.
    + rewrite IH. destruct lo as [|lo]; simpl.
      * rewrite andb_true_r. by destruct (forall_chars p s).
      * by destruct (forall_chars p s && (lo <=? String.length s)).
    + by destruct lo.
Qed.

Lemma forall_chars_ext p q s :
  (∀ c, p c = q c) → forall_chars p s = forall_chars q s.
Proof. intros Hpq. induction s as [|c s IH]; simpl; [done|]. by rewrite Hpq, IH. Qed.

Lemma forall_chars_impl (p q : ascii → bool) s :
  (∀ c, p c = true → q c = true) → forall_chars p s = true → forall_chars q s = true.
Proof.
  intros Hpq. induction s as [|c s IH]; simpl; [done|].
  intros [Hc Hs]%andb_prop. by rewrite (Hpq _ Hc), IH.
Qed.

Lemma run_Some p s w r :
  run p s = Some (w, r) →
  s = w +:+ r ∧ w ≠ "" ∧ forall_chars p w = true
  ∧ match r with String c _ => p c = false | EmptyString => True end.
Proof.
  unfold run. intros Hrun.
  pose proof (span_app p s) as Happ. pose proof (span_forall p s) as Hall.
  pose proof (span_rest p s) as Hrest.
  destruct (span p s).1 as [|c w'] eqn:Hw; [done|].
  by simplify_eq.
Qed.

Lemma plus_cls_reject rs p k prev s :
  (∀ c, cls_matches false false rs c = p c) →
  (∀ prev' c s', p c = true → k prev' (String c s') = None) →
  rmatch false (plus (Cls false rs)) k prev s
  = match run p s with
    | Some (w, r) => k (last_char prev w) r
    | None => None
    end.
Proof.
  intros Hp Hk. unfold plus. rewrite rmatch_rep_cls, (greedy_ext _ p) by done.
  rewrite greedy_reject by done. unfold run.
  destruct (span p s).1 as [|c w] eqn:Hw; simpl; done.
Qed.

Lemma plus_cls_accept rs p k prev s w r :
  (∀ c, cls_matches false false rs c = p c) →
  run p s = Some (w, r) →
  is_Some (k (last_char prev w) r) →
  rmatch false (plus (Cls false rs)) k prev s = k (last_char prev w) r.
Proof.
  intros Hp Hrun Hk. unfold plus. rewrite rmatch_rep_cls, (greedy_ext _ p) by done.
  unfold run in Hrun. destruct (span p s).1 as [|c w'] eqn:Hw; [done|].
  simplify_eq. rewrite <- Hw in Hk |- *.
  apply greedy_accept; [rewrite Hw; simpl; lia | done].
Qed.

Lemma plus_cls_none rs p k prev s :
  (∀ c, cls_matches false false rs c = p c) →
  run p s = None →
  rmatch false (plus (Cls false rs)) k prev s = None.
Proof.
  intros Hp Hrun. unfold plus. rewrite rmatch_rep_cls, (greedy_ext _ p) by done.
  apply greedy_short. unfold run in Hrun.
  destruct (span p s).1; [simpl; lia | done].
Qed.

(** A pattern that starts with a class refuses an input that starts outside it. *)
Lemma plus_cls_first rs p k prev c s :
  (∀ c, cls_matches false false rs c = p c) →
  p c = false →
  rmatch false (plus (Cls false rs)) k prev (String c s) = None.
Proof.
  intros Hp Hc. apply (plus_cls_none rs p); [done|].
  unfold run. simpl. by rewrite Hc.
Qed.

(** *** Strings *)

(** String append *)
Lemma str_app_cons c a b : String c a +:+ b = String c (a +:+ b).
Proof. reflexivity. Qed.

Lemma str_app_nil_l b : "" +:+ b = b.
Proof. reflexivity. Qed.

Lemma str_app_assoc a b c : (a +:+ b) +:+ c = a +:+ (b +:+ c).
Proof. induction a as [|x a IH]; [done|]. by rewrite !str_app_cons, IH. Qed.

Lemma str_app_length a b : String.length (a +:+ b) = String.length a + String.length b.
Proof. induction a as [|x a IH]; [done|]. rewrite str_app_cons. simpl. by rewrite IH. Qed.

Lemma str_take_app a b : str_take (String.length (a +:+ b) - String.length b) (a +:+ b) = a.
Proof.
  rewrite str_app_length. replace (_ + _ - _) with (String.length a) by lia.
  induction a as [|x a IH].
  - by destruct b.
  - rewrite str_app_cons. simpl. by rewrite IH.
Qed.

Lemma last_char_app d a b : last_char d (a +:+ b) = last_char (last_char d a) b.
Proof. revert d. induction a as [|x a IH]; intros d; [done|]. rewrite str_app_cons. simpl. apply IH. Qed.

Lemma trimEnd_solid b : solid b → trimEnd b = b.
Proof.
  intros [Hne Hall]. induction b as [|c b IH]; [done|].
  simpl in *. apply andb_prop in Hall as [Hc Hall].
  destruct b as [|c' b].
  - simpl. by destruct (is_space c).
  - rewrite IH by done. done.
Qed.

Lemma trimEnd_app_solid a b : solid b → trimEnd (a +:+ b) = a +:+ b.
Proof.
  intros Hb. induction a as [|c a IH]; [by apply trimEnd_solid|].
  rewrite str_app_cons. simpl. rewrite IH.
  destruct (a +:+ b) eqn:Hab; [|done].
  destruct a; [|done]. destruct Hb as [Hne _]. by rewrite str_app_nil_l in Hab.
Qed.

Lemma trim_capitalised c a b :
  is_space c = false → solid b → trim (String c a +:+ b) = String c a +:+ b.
Proof.
  intros Hc Hb. unfold trim. rewrite str_app_cons. simpl. rewrite Hc.
  rewrite <- str_app_cons. by apply trimEnd_app_solid.
Qed.

(** The text of the leftmost match of an anchored pattern whose matches the
    scanner [scan] describes. *)
Lemma first_match_anchored r scan s :
  (∀ s, match_here false (Cat Bol r) None s = snd <$> scan s) →
  (∀ s m rest, scan s = Some (m, rest) → s = m +:+ rest) →
  first_match false (Cat Bol r) s = fst <$> scan s.
Proof.
  intros Hmatch Hsplit. unfold first_match.
  rewrite search_anchored, Hmatch.
  destruct (scan s) as [[m rest]|] eqn:Hscan; [|done]. simpl.
  rewrite (Hsplit _ _ _ Hscan) at 1 2. by rewrite str_take_app.
Qed.

(** ** Classification *)

Lemma parseQRContent_try_normal qrData :
  ∃ parsed, parseQRContent_try qrData = Normal parsed
            ∧ content_type parsed ∈ kinds
            ∧ raw_data parsed = qrData.
Proof.
  unfold parseQRContent_try, kinds.
  repeat match goal with
         | |- context [if ?b then _ else _] => destruct b
         | |- context [match ?o with Some _ => _ | None => _ end] => destruct o
         end;
    eexists; (split; [reflexivity|]); simpl; split; try reflexivity;
    repeat first [ apply list_elem_of_here | apply list_elem_of_further ].
Qed.

(** C9. On every input string [parseQRContent] returns a record, from the
    [try] block and never from the [catch] block; its kind is one of the nine
    kinds of the rules, the plain-text rule being the last, and so it is
    neither ['unknown'] nor ['error']. *)
Theorem parseQRContent_kind_total (qrData : string) :
  ∃ parsed,
    parseQRContent_try qrData = Normal parsed
    ∧ parseQRContent qrData = parsed
    ∧ content_type parsed ∈ kinds
    ∧ content_type parsed ≠ "unknown"
    ∧ content_type parsed ≠ "error".
Proof.
  destruct (parseQRContent_try_normal qrData) as (parsed & Htry & Hkind & _).
  exists parsed. unfold parseQRContent. rewrite Htry.
  repeat split; [assumption | |];
    intros Heq; rewrite Heq in Hkind; unfold kinds in Hkind;
    repeat (apply elem_of_cons in Hkind as [Hkind | Hkind]; [discriminate|]);
    by apply elem_of_nil in Hkind.
Qed.

(** The fallback: a payload that no earlier rule accepts is plain text. *)
Lemma parseQRContent_fallback (qrData : string) :
  startsWith "http://" qrData || startsWith "https://" qrData
    || startsWith "www." qrData = false →
  includes "@" qrData && includes "." qrData = false →
  test false phonePattern qrData = false →
  startsWith "BEGIN:VCARD" qrData = false →
  startsWith "WIFI:" qrData = false →
  startsWith "sms:" qrData = false →
  includes "linkedin.com" qrData = false →
  List.find (fun p => includes p qrData) socialPlatforms = None →
  content_type (parseQRContent qrData) = "text".
Proof.
  intros H1 H2 H3 H4 H5 H6 H7 H8.
  unfold parseQRContent, parseQRContent_try.
  by rewrite H1, H2, H3, H4, H5, H6, H7, H8.
Qed.

(** *** The phone rule *)

Lemma phone_class_char c : cls_matches false false phone_class c = phone_char c.
Proof. destruct c as [[] [] [] [] [] [] [] []]; reflexivity. Qed.

Lemma phone_body_match prev s :
  rmatch false (Cat (at_least 10 (Cls false phone_class)) Eol) at_end prev s
  = if forall_chars phone_char s && (10 <=? String.length s) then Some "" else None.
Proof.
  rewrite rmatch_cat. unfold at_least. rewrite rmatch_rep_cls.
  rewrite greedy_forall.
  by rewrite (forall_chars_ext _ _ s phone_class_char).
Qed.

Lemma phonePattern_match s :
  match_here false phonePattern None s
  = if phone_shape s then Some "" else None.
Proof.
  unfold match_here, phonePattern, phone_shape.
  change (rmatch false (cat [Bol; opt (Chr "+"); at_least 10 (Cls false phone_class); Eol])
            at_end None s)
    with (rmatch false (opt (Chr "+"))
            (rmatch false (Cat (at_least 10 (Cls false phone_class)) Eol) at_end) None s).
  destruct s as [|c s].
  - reflexivity.
  - rewrite rmatch_opt_nonempty, rmatch_chr. unfold chr_matches, strip_plus.
    rewrite (Ascii.eqb_sym c "+").
    destruct (Ascii.eqb "+" c) eqn:Hc.
    + apply Ascii.eqb_eq in Hc as <-.
      rewrite (proj2 (Nat.eqb_neq _ _)) by lia.
      rewrite rep_loop_done, !phone_body_match.
      destruct (forall_chars phone_char s && (10 <=? String.length s)); [done|].
      reflexivity.
    + by rewrite phone_body_match.
Qed.

Lemma phonePattern_test s : test false phonePattern s = phone_shape s.
Proof.
  unfold test.
  change phonePattern with (Cat Bol (cat [opt (Chr "+"); at_least 10 (Cls false phone_class); Eol])).
  rewrite search_anchored.
  change (Cat Bol (cat [opt (Chr "+"); at_least 10 (Cls false phone_class); Eol])) with phonePattern.
  rewrite phonePattern_match. by destruct (phone_shape s).
Qed.

(** C7, as the code has it.  A payload that reaches the phone rule is a phone
    exactly when, after one optional plus sign, it has at least 10
    characters, each a digit, a white-space character, a dash or a
    parenthesis: the length is taken with the separators, not without. *)
Theorem phone_rule_shape (qrData : string) :
  reaches_phone_rule qrData →
  content_type (parseQRContent qrData) = "phone" ↔ phone_shape qrData = true.
Proof.
  intros [Hurl Hmail].
  unfold parseQRContent, parseQRContent_try.
  rewrite Hurl, Hmail, phonePattern_test.
  destruct (phone_shape qrData); [done|].
  split; [|done].
  repeat match goal with
         | |- context [if ?b then _ else _] => destruct b
         | |- context [match ?o with Some _ => _ | None => _ end] => destruct o
         end; discriminate.
Qed.

Lemma phone_rule_shape_witness :
  reaches_phone_rule "+919848806006"
  ∧ (content_type (parseQRContent "+919848806006") = "phone"
     ↔ phone_shape "+919848806006" = true).
Proof.
  split; [split; reflexivity|].
  apply (phone_rule_shape "+919848806006"). split; reflexivity.
Defined.

(** C7, as stated, fails: ten characters of which three are dashes make a
    phone, though only seven are left once the separators are stripped. *)
Lemma phone_rule_counts_separators :
  reaches_phone_rule "12-34-56-7"
  ∧ content_type (parseQRContent "12-34-56-7") = "phone"
  ∧ phone_by_stripped_length "12-34-56-7" = false
  ∧ ¬ (content_type (parseQRContent "12-34-56-7") = "phone"
       ↔ phone_by_stripped_length "12-34-56-7" = true).
Proof.
  split; [split; reflexivity|]. split; [reflexivity|]. split; [reflexivity|].
  intros [Hphone _]. specialize (Hphone eq_refl). discriminate.
Qed.

(** *** The vCard rule *)

(** X1. A payload with the vCard header reaches the vCard rule unless the e-mail
    rule takes it first. *)
Lemma parseQRContent_vcard_without_email (qrData : string) :
  startsWith "BEGIN:VCARD" qrData = true →
  includes "@" qrData && includes "." qrData = false →
  content_type (parseQRContent qrData) = "vcard"
  ∧ details (parseQRContent qrData) = parseVCard qrData.
Proof.
  intros Hhead Hmail.
  destruct qrData as [|c rest]; [done|].
  change (startsWith "BEGIN:VCARD" (String c rest))
    with (Ascii.eqb "B" c && startsWith "EGIN:VCARD" rest) in Hhead.
  apply andb_prop in Hhead as [Hc Hrest].
  apply Ascii.eqb_eq in Hc as <-.
  unfold parseQRContent, parseQRContent_try.
  rewrite Hmail, phonePattern_test.
  change (startsWith "BEGIN:VCARD" (String "B" rest)) with (startsWith "EGIN:VCARD" rest).
  rewrite Hrest. done.
Qed.

(** C1, on the code.  The vCard sample contains an at sign and a dot, so the
    e-mail rule, which comes before the vCard rule, takes it: the kind is
    ['email'] and the only field is the whole payload. *)
Theorem parseQRContent_vcard_sample_is_email :
  content_type (parseQRContent vcard_sample) = "email"
  ∧ title (parseQRContent vcard_sample) = "Email Address"
  ∧ details (parseQRContent vcard_sample) !! "email" = Some vcard_sample
  ∧ details (parseQRContent vcard_sample) !! "name" = None.
Proof. vm_compute. auto. Qed.

(** What the vCard rule would have produced for the sample. *)
Lemma parseVCard_sample :
  parseVCard vcard_sample !! "name" = Some "Jane Doe"
  ∧ parseVCard vcard_sample !! "company" = Some "Acme Ltd"
  ∧ parseVCard vcard_sample !! "email" = Some "jane@acme.com".
Proof. vm_compute. auto. Qed.

(** ** Field extraction *)

(** C6. For the sample card text the phone field is the mobile number without
    its label and without letters, and the address field is the tower name,
    without digits and without anything of the shape of a phone number. *)
Theorem extract_card_text_isolated :
  phone (extractTextInfoEnhanced card_text) = "+919848806006"
  ∧ exists_char is_alpha (phone (extractTextInfoEnhanced card_text)) = false
  ∧ address (extractTextInfoEnhanced card_text) = "Ohri Towers"
  ∧ exists_char is_digit (address (extractTextInfoEnhanced card_text)) = false
  ∧ test false re_phone_shape (address (extractTextInfoEnhanced card_text)) = false.
Proof. vm_compute. auto. Qed.

(** *** The name *)

Lemma cls_upper c : cls_matches false false [AZ] c = is_upper c.
Proof. unfold cls_matches, in_ranges. simpl. by rewrite !orb_false_r. Qed.

Lemma cls_lower c : cls_matches false false [az] c = is_lower c.
Proof. unfold cls_matches, in_ranges. simpl. by rewrite !orb_false_r. Qed.

Lemma cls_space c : cls_matches false false cls_s c = is_space c.
Proof. destruct c as [[] [] [] [] [] [] [] []]; reflexivity. Qed.

Lemma lower_not_space c : is_lower c = true → is_space c = false.
Proof. destruct c as [[] [] [] [] [] [] [] []]; done. Qed.

Lemma space_not_upper c : is_space c = true → is_upper c = false.
Proof. destruct c as [[] [] [] [] [] [] [] []]; done. Qed.

Lemma upper_not_space c : is_upper c = true → is_space c = false.
Proof. destruct c as [[] [] [] [] [] [] [] []]; done. Qed.

Lemma capword_first k prev c s :
  is_upper c = false → rmatch false re_capword k prev (String c s) = None.
Proof.
  intros Hc. unfold re_capword. rewrite rmatch_cat, rmatch_cls, cls_upper, Hc. done.
Qed.

Lemma capword_reject k prev s :
  (∀ prev' c s', is_lower c = true → k prev' (String c s') = None) →
  rmatch false re_capword k prev s
  = match capitalised_word s with
    | Some (w, r) => k (last_char prev w) r
    | None => None
    end.
Proof.
  intros Hk. unfold re_capword, capitalised_word.
  rewrite rmatch_cat, rmatch_cls. destruct s as [|c s]; [done|].
  rewrite cls_upper. destruct (is_upper c); [|done].
  rewrite (plus_cls_reject _ is_lower) by (done || apply cls_lower).
  by destruct (run is_lower s) as [[w r]|].
Qed.

Lemma capword_accept k prev s w r :
  capitalised_word s = Some (w, r) →
  is_Some (k (last_char prev w) r) →
  rmatch false re_capword k prev s = k (last_char prev w) r.
Proof.
  intros Hcap Hk. unfold re_capword, capitalised_word in *.
  rewrite rmatch_cat, rmatch_cls. destruct s as [|c s]; [done|].
  rewrite cls_upper. destruct (is_upper c); [|done].
  destruct (run is_lower s) as [[w' r']|] eqn:Hrun; [|done]. simplify_eq.
  change (last_char prev (String c w')) with (last_char (Some c) w') in *.
  by apply (plus_cls_accept _ is_lower); [apply cls_lower|..].
Qed.

Lemma capword_none k prev s :
  capitalised_word s = None → rmatch false re_capword k prev s = None.
Proof.
  intros Hcap. unfold re_capword, capitalised_word in *.
  rewrite rmatch_cat, rmatch_cls. destruct s as [|c s]; [done|].
  rewrite cls_upper. destruct (is_upper c); [|done].
  destruct (run is_lower s) as [[w' r']|] eqn:Hrun; [done|].
  by apply (plus_cls_none _ is_lower); [apply cls_lower|].
Qed.

Lemma spaces_reject k prev s :
  (∀ prev' c s', is_space c = true → k prev' (String c s') = None) →
  rmatch false re_spaces k prev s
  = match run is_space s with
    | Some (w, r) => k (last_char prev w) r
    | None => None
    end.
Proof. intros Hk. apply plus_cls_reject; [apply cls_space | done]. Qed.

Lemma spaces_rejects_lower k prev c s :
  is_lower c = true → rmatch false re_spaces k prev (String c s) = None.
Proof.
  intros Hc. apply (plus_cls_first _ is_space); [apply cls_space|].
  by apply lower_not_space.
Qed.

Lemma capword_rejects_space k prev c s :
  is_space c = true → rmatch false re_capword k prev (String c s) = None.
Proof. intros Hc. apply capword_first. by apply space_not_upper. Qed.

Lemma capitalised_word_Some s w r :
  capitalised_word s = Some (w, r) →
  s = w +:+ r ∧ solid w ∧ String.length r < String.length s
  ∧ ∃ c w', w = String c w' ∧ is_upper c = true.
Proof.
  unfold capitalised_word. destruct s as [|c s]; [done|].
  destruct (is_upper c) eqn:Hc; [|done].
  destruct (run is_lower s) as [[lw r']|] eqn:Hrun; [|done].
  intros ?; simplify_eq.
  destruct (run_Some _ _ _ _ Hrun) as (-> & Hne & Hall & _).
  split; [done|]. split; [|split].
  - split; [done|]. simpl. rewrite (upper_not_space _ Hc). simpl.
    apply (forall_chars_impl is_lower); [|done].
    intros c' Hc'. by rewrite (lower_not_space _ Hc').
  - simpl. rewrite str_app_length. lia.
  - eauto.
Qed.

Lemma next_word_Some s w r :
  next_word s = Some (w, r) →
  s = w +:+ r ∧ String.length r < String.length s
  ∧ ∃ sp cw, w = sp +:+ cw ∧ solid cw.
Proof.
  unfold next_word.
  destruct (run is_space s) as [[sp r1]|] eqn:Hrun; [|done].
  destruct (capitalised_word r1) as [[cw r2]|] eqn:Hcap; [|done].
  intros ?; simplify_eq.
  destruct (run_Some _ _ _ _ Hrun) as (-> & _ & _ & _).
  destruct (capitalised_word_Some _ _ _ Hcap) as (-> & Hsolid & Hlen & _).
  split; [by rewrite str_app_assoc|]. split; [|eauto].
  rewrite !str_app_length in *. lia.
Qed.

Lemma next_word_accept k prev s w r :
  next_word s = Some (w, r) →
  is_Some (k (last_char prev w) r) →
  rmatch false re_next_word k prev s = k (last_char prev w) r.
Proof.
  unfold next_word, re_next_word. intros Hnext Hk.
  rewrite rmatch_cat, spaces_reject
    by (intros prev' c s' Hc; exact (capword_rejects_space _ prev' c s' Hc)).
  destruct (run is_space s) as [[sp r1]|]; [|done].
  destruct (capitalised_word r1) as [[cw r2]|] eqn:Hcap; [|done].
  simplify_eq. rewrite last_char_app in *.
  by apply capword_accept.
Qed.

Lemma next_word_none k prev s :
  next_word s = None → rmatch false re_next_word k prev s = None.
Proof.
  unfold next_word, re_next_word. intros Hnext.
  rewrite rmatch_cat, spaces_reject
    by (intros prev' c s' Hc; exact (capword_rejects_space _ prev' c s' Hc)).
  destruct (run is_space s) as [[sp r1]|]; [|done].
  destruct (capitalised_word r1) as [[cw r2]|] eqn:Hcap; [done|].
  by apply capword_none.
Qed.

(** The tail of the first name pattern never fails: it takes a third word
    when there is one. *)
Lemma opt_next_word prev s :
  rmatch false (opt re_next_word) at_end prev s
  = Some match next_word s with Some (_, r) => r | None => s end.
Proof.
  destruct s as [|c s]; [done|].
  rewrite rmatch_opt_nonempty.
  destruct (next_word (String c s)) as [[w r]|] eqn:Hnext.
  - destruct (next_word_Some _ _ _ Hnext) as (_ & Hlen & _). simpl in Hlen.
    erewrite next_word_accept; [|exact Hnext|]; cbv beta;
      rewrite (proj2 (Nat.eqb_neq _ _)) by lia; by rewrite rep_loop_done.
  - by rewrite next_word_none.
Qed.

Lemma namePattern1_match s :
  match_here false namePattern1 None s = snd <$> two_or_three_words s.
Proof.
  unfold match_here, namePattern1, two_or_three_words.
  change (rmatch false (cat [Bol; re_capword; re_spaces; re_capword;
                             opt (Cat re_spaces re_capword)]) at_end None s)
    with (rmatch false re_capword
            (rmatch false re_next_word (rmatch false (opt re_next_word) at_end)) None s).
  rewrite capword_reject
    by (intros prev' c s' Hc; unfold re_next_word; rewrite rmatch_cat;
        exact (spaces_rejects_lower _ prev' c s' Hc)).
  destruct (capitalised_word s) as [[w1 r1]|]; [|done].
  destruct (next_word r1) as [[w2 r2]|] eqn:Hnext.
  - rewrite (next_word_accept _ _ _ w2 r2 Hnext) by (rewrite opt_next_word; eauto).
    rewrite opt_next_word. by destruct (next_word r2) as [[w3 r3]|].
  - by rewrite next_word_none.
Qed.

Lemma namePattern2_match s :
  match_here false namePattern2 None s = snd <$> word_and_initial s.
Proof.
  unfold match_here, namePattern2, word_and_initial.
  change (rmatch false (cat [Bol; re_capword; re_spaces; Cls false [AZ]])
            at_end None s)
    with (rmatch false re_capword
            (rmatch false re_spaces (rmatch false (Cls false [AZ]) at_end)) None s).
  rewrite capword_reject
    by (intros prev' c s' Hc; exact (spaces_rejects_lower _ prev' c s' Hc)).
  destruct (capitalised_word s) as [[w1 r1]|]; [|done].
  rewrite spaces_reject.
  - destruct (run is_space r1) as [[sp r2]|]; [|done].
    rewrite rmatch_cls. destruct r2 as [|c r3]; [done|].
    rewrite cls_upper. by destruct (is_upper c).
  - intros prev' c s' Hc. rewrite rmatch_cls, cls_upper.
    by rewrite (space_not_upper _ Hc).
Qed.

Lemma two_or_three_words_Some s m r :
  two_or_three_words s = Some (m, r) → s = m +:+ r ∧ trim m = m.
Proof.
  unfold two_or_three_words.
  destruct (capitalised_word s) as [[w1 r1]|] eqn:H1; [|done].
  destruct (next_word r1) as [[w2 r2]|] eqn:H2; [|done].
  destruct (capitalised_word_Some _ _ _ H1) as (-> & _ & _ & c & w' & -> & Hc).
  destruct (next_word_Some _ _ _ H2) as (-> & _ & sp2 & cw2 & -> & Hs2).
  apply upper_not_space in Hc.
  destruct (next_word r2) as [[w3 r3]|] eqn:H3; intros ?; simplify_eq.
  - destruct (next_word_Some _ _ _ H3) as (-> & _ & sp3 & cw3 & -> & Hs3).
    split; [by rewrite !str_app_assoc|].
    rewrite <- !str_app_assoc. apply trim_capitalised; [done|].
    done.
  - split; [by rewrite !str_app_assoc|].
    rewrite <- !str_app_assoc. by apply trim_capitalised.
Qed.

Lemma word_and_initial_Some s m r :
  word_and_initial s = Some (m, r) → s = m +:+ r ∧ trim m = m.
Proof.
  unfold word_and_initial.
  destruct (capitalised_word s) as [[w1 r1]|] eqn:H1; [|done].
  destruct (run is_space r1) as [[sp [|c r2]]|] eqn:H2; [done| |done].
  destruct (is_upper c) eqn:Hc; [|done]. intros ?; simplify_eq.
  destruct (capitalised_word_Some _ _ _ H1) as (-> & _ & _ & c1 & w' & -> & Hc1).
  destruct (run_Some _ _ _ _ H2) as (-> & _ & _ & _).
  apply upper_not_space in Hc, Hc1.
  split; [by rewrite !str_app_assoc|].
  rewrite <- !str_app_assoc. apply trim_capitalised; [done|].
  split; [done|]. simpl. by rewrite Hc.
Qed.

Lemma first_match_namePattern1 s :
  first_match false namePattern1 s = fst <$> two_or_three_words s.
Proof.
  apply (first_match_anchored _ two_or_three_words).
  - apply namePattern1_match.
  - intros s' m rest Hscan. by apply two_or_three_words_Some in Hscan as [? _].
Qed.

Lemma first_match_namePattern2 s :
  first_match false namePattern2 s = fst <$> word_and_initial s.
Proof.
  apply (first_match_anchored _ word_and_initial).
  - apply namePattern2_match.
  - intros s' m rest Hscan. by apply word_and_initial_Some in Hscan as [? _].
Qed.

Lemma find_name_leading t :
  find_name [namePattern1; namePattern2] t = leading_name t.
Proof.
  unfold find_name, leading_name.
  rewrite first_match_namePattern1, first_match_namePattern2.
  destruct (two_or_three_words t) as [[n1 r1]|] eqn:H1;
    destruct (word_and_initial t) as [[n2 r2]|] eqn:H2; simpl;
    try (apply two_or_three_words_Some in H1 as [_ ->]);
    try (apply word_and_initial_Some in H2 as [_ ->]);
    done.
Qed.

(** C8, as the code has it.  The name is read off the normalised text as a
    whole, all white space (line breaks too) collapsed and trimmed, and only
    at its head: it is the two or three capitalised words the text starts
    with, or else the capitalised word and capital initial it starts with,
    the first of the two that holds no stop word and is under 50 characters;
    it is empty when there is none. *)
Theorem name_is_leading_name (text : string) :
  name (extractTextInfoEnhanced text) = name_at_head text.
Proof.
  unfold extractTextInfoEnhanced, name_at_head.
  destruct text as [|c text]; [done|].
  cbn [name]. unfold namePatterns. by rewrite find_name_leading.
Qed.

(** C8, as stated, fails: a name on the second line is the first line that
    matches, and the extractor does not find it. *)
Lemma name_not_by_lines :
  name_by_lines two_line_text = "Jane Doe"
  ∧ name (extractTextInfoEnhanced two_line_text) = ""
  ∧ name (extractTextInfoEnhanced two_line_text) ≠ name_by_lines two_line_text.
Proof.
  assert (H1 : name_by_lines two_line_text = "Jane Doe") by (vm_compute; reflexivity).
  assert (H2 : name (extractTextInfoEnhanced two_line_text) = "")
    by (vm_compute; reflexivity).
  split; [done|]. split; [done|]. rewrite H1, H2. discriminate.
Qed.

(** ** Deduplication *)

Section Dedup.

Implicit Types (seen : gset string) (results : list QRCodeResult) (d : string).

Lemma removeDuplicates_from_elem seen results d :
  d ∈ Detection.data <$> removeDuplicates_from seen results
  ↔ d ∈ Detection.data <$> results ∧ d ∉ seen.
Proof.
  revert seen. induction results as [|r rest IH]; intros seen; simpl.
  - rewrite elem_of_nil. tauto.
  - destruct (decide (Detection.data r ∈ seen)) as [Hin|Hout].
    + rewrite IH, elem_of_cons. split; [tauto|].
      intros [[->|?] ?]; tauto.
    + rewrite fmap_cons, !elem_of_cons, IH. split.
      * intros [->|[? Hn]]; [tauto|]. split; [tauto|]. set_solver.
      * intros [[->|?] ?]; [tauto|].
        destruct (decide (d = Detection.data r)); [tauto|]. right. set_solver.
Qed.

Lemma removeDuplicates_from_NoDup seen results :
  NoDup (Detection.data <$> removeDuplicates_from seen results).
Proof.
  revert seen. induction results as [|r rest IH]; intros seen; simpl.
  - constructor.
  - destruct (decide (Detection.data r ∈ seen)); [apply IH|].
    rewrite fmap_cons. constructor; [|apply IH].
    rewrite removeDuplicates_from_elem. set_solver.
Qed.

(** A list without repeated data, none of it seen before, passes the filter
    whole. *)
Lemma removeDuplicates_from_id seen results :
  NoDup (Detection.data <$> results) →
  (∀ d, d ∈ Detection.data <$> results → d ∉ seen) →
  removeDuplicates_from seen results = results.
Proof.
  revert seen. induction results as [|r rest IH]; intros seen Hnd Hfresh; simpl; [done|].
  rewrite fmap_cons in Hnd, Hfresh. apply NoDup_cons in Hnd as [Hr Hnd].
  destruct (decide (Detection.data r ∈ seen)) as [Hin|_].
  - exfalso. apply (Hfresh (Detection.data r)); [left|done].
  - f_equal. apply IH; [done|].
    intros d Hd. specialize (Hfresh d (list_elem_of_further _ _ _ Hd)).
    assert (d ≠ Detection.data r) by (intros ->; done). set_solver.
Qed.

(** The entry kept for a data string is the first one carrying it. *)
Lemma removeDuplicates_from_first seen results d :
  d ∉ seen →
  List.find (fun r => bool_decide (Detection.data r = d)) (removeDuplicates_from seen results)
  = List.find (fun r => bool_decide (Detection.data r = d)) results.
Proof.
  revert seen. induction results as [|r rest IH]; intros seen Hd; simpl; [done|].
  destruct (decide (Detection.data r ∈ seen)) as [Hin|Hout].
  - rewrite bool_decide_eq_false_2 by (intros <-; done). by apply IH.
  - simpl. case_bool_decide; [done|]. apply IH. set_solver.
Qed.

Lemma removeDuplicates_from_sublist seen results :
  sublist (removeDuplicates_from seen results) results.
Proof.
  revert seen. induction results as [|r rest IH]; intros seen; simpl; [done|].
  destruct (decide _); [apply sublist_cons | apply sublist_skip]; apply IH.
Qed.

(** X2. The deduplication step: every data string of the input occurs exactly
    once in the output, carried by the first entry that had it, in the input
    order; and a second pass changes nothing. *)
Lemma removeDuplicates_spec results :
  NoDup (Detection.data <$> removeDuplicates results)
  ∧ (∀ d, d ∈ Detection.data <$> removeDuplicates results ↔ d ∈ Detection.data <$> results)
  ∧ (∀ d, List.find (fun r => bool_decide (Detection.data r = d)) (removeDuplicates results)
          = List.find (fun r => bool_decide (Detection.data r = d)) results)
  ∧ sublist (removeDuplicates results) results
  ∧ removeDuplicates (removeDuplicates results) = removeDuplicates results.
Proof.
  unfold removeDuplicates. repeat split.
  - apply removeDuplicates_from_NoDup.
  - rewrite removeDuplicates_from_elem. tauto.
  - rewrite removeDuplicates_from_elem. set_solver.
  - intros d. apply removeDuplicates_from_first. set_solver.
  - apply removeDuplicates_from_sublist.
  - apply removeDuplicates_from_id; [apply removeDuplicates_from_NoDup | set_solver].
Qed.

End Dedup.

(** ** The cascade *)

(** Two ways to cut a list around one of its elements. *)
Lemma cons_cut {A} (x : A) l t1 e t2 :
  x :: l = t1 ++ e :: t2 →
  (t1 = [] ∧ e = x ∧ t2 = l) ∨ ∃ t1', t1 = x :: t1' ∧ l = t1' ++ e :: t2.
Proof. destruct t1 as [|y t1']; intros Heq; simplify_eq/=; eauto. Qed.

Lemma snoc_cut {A} l (x : A) t1 e t2 :
  l ++ [x] = t1 ++ e :: t2 →
  (t1 = l ∧ e = x ∧ t2 = []) ∨ ∃ t2', t2 = t2' ++ [x] ∧ l = t1 ++ e :: t2'.
Proof.
  revert t1. induction l as [|y l IH]; intros t1 Heq; simpl in Heq.
  - destruct t1 as [|? [|? ?]]; simplify_eq/=; eauto.
  - destruct t1 as [|z t1]; simplify_eq/=.
    + right. exists l. done.
    + destruct (IH _ H0) as [(-> & -> & ->)|(t2' & -> & ->)]; [by left|].
      right. by exists t2'.
Qed.

(** In the schedule a remote call stands right after the local call of its
    level, and the level names the image. *)
Lemma schedule_remote n i imgs t1 j img t2 :
  take n (schedule i imgs) = t1 ++ Remote (Pre j) img :: t2 →
  ∃ t0, t1 = t0 ++ [Local (Pre j) img] ∧ i ≤ j ∧ imgs !! (j - i) = Some img.
Proof.
  revert n i t1. induction imgs as [|img' rest IH]; intros n i t1 Heq; simpl in Heq.
  - rewrite take_nil in Heq. by destruct t1.
  - destruct n as [|[|n]]; simpl in Heq.
    + by destruct t1.
    + destruct t1 as [|? [|? ?]]; simplify_eq/=.
    + apply cons_cut in Heq as [(_ & ? & _)|(t1' & -> & Heq)]; [discriminate|].
      apply cons_cut in Heq as [(-> & ? & _)|(t1'' & -> & Heq)].
      * simplify_eq. exists []. rewrite Nat.sub_diag. done.
      * destruct (IH _ _ _ Heq) as (t0 & -> & Hle & Hlook).
        exists (Local (Pre i) img' :: Remote (Pre i) img' :: t0).
        split; [done|]. split; [lia|].
        replace (j - i) with (S (j - S i)) by lia. done.
Qed.

Section CascadeFacts.

Variable luma : Z → Z → Z → Z.
Variable detectWithJSQR : ImageData → option QRCodeResult.
Variable detectWithGoQRAPI : ImageData → list QRCodeResult.

Abbreviation loop := (preprocessed_loop detectWithJSQR detectWithGoQRAPI).

(** The loop follows the schedule and leaves it at the first call that
    produced a payload; it ends with results exactly when some call did. *)
Lemma preprocessed_loop_trace i imgs :
  ∃ n, (loop i imgs).2 = take n (schedule i imgs)
       ∧ (∀ t1 e t2, (loop i imgs).2 = t1 ++ e :: t2 → yields detectWithJSQR detectWithGoQRAPI e = true → t2 = [])
       ∧ ((loop i imgs).1 = [] ↔ Forall (fun e => yields detectWithJSQR detectWithGoQRAPI e = false) (loop i imgs).2).
Proof.
  revert i. induction imgs as [|img rest IH]; intros i; simpl.
  - exists 0. split; [done|]. split; [|done].
    intros t1 e t2 Heq. destruct t1; discriminate.
  - destruct (detectWithJSQR img) as [r|] eqn:Hjs.
    + exists 1. simpl. split; [done|]. split.
      * intros t1 e t2 Heq _. destruct t1 as [|? [|? ?]]; simplify_eq/=; done.
      * split; [discriminate|]. intros Hall. apply Forall_cons in Hall as [Hy _].
        simpl in Hy. rewrite Hjs in Hy. by rewrite bool_decide_eq_true_2 in Hy.
    + destruct (detectWithGoQRAPI img) as [|g gs] eqn:Hgo.
      * destruct (IH (S i)) as (n & Htake & Hlast & Hnone).
        destruct (loop (S i) rest) as [results events]. simpl in *.
        exists (S (S n)). simpl. split; [by rewrite Htake|]. split.
        -- intros t1 e t2 Heq Hy. destruct t1 as [|e1 [|e2 t1]]; simplify_eq/=.
           ++ rewrite Hjs in Hy. apply bool_decide_eq_true in Hy as [? ?]. discriminate.
           ++ rewrite Hgo in Hy. by apply bool_decide_eq_true in Hy.
           ++ by eapply Hlast.
        -- rewrite Hnone, !Forall_cons. simpl. rewrite Hjs, Hgo.
           rewrite !bool_decide_eq_false. split; [|tauto].
           intros ?. split; [intros [? ?]; discriminate|].
           split; [intros Hne; by apply Hne | done].
      * exists 2. simpl. split; [done|]. split.
        -- intros t1 e t2 Heq Hy. destruct t1 as [|? [|? [|? ?]]]; simplify_eq/=; [|done].
           rewrite Hjs in Hy. apply bool_decide_eq_true in Hy as [? ?]. discriminate.
        -- split; [discriminate|]. intros Hall.
           apply Forall_cons in Hall as [_ Hall]. apply Forall_cons in Hall as [Hy _].
           simpl in Hy. rewrite Hgo in Hy. by rewrite bool_decide_eq_true_2 in Hy.
Qed.

(** The decoder calls of a run, read off the loop. *)
Lemma detectQRCodes_trace_eq imageData :
  detectQRCodes_trace luma detectWithJSQR detectWithGoQRAPI imageData
  = match detectWithJSQR imageData with
    | Some _ => [Local Raw imageData]
    | None =>
        Local Raw imageData
          :: (loop 0 (preprocessImage luma imageData)).2
          ++ match (loop 0 (preprocessImage luma imageData)).1 with
             | [] => [Remote Raw imageData]
             | _ :: _ => []
             end
    end.
Proof.
  unfold detectQRCodes_trace, detectQRCodes_run.
  destruct (detectWithJSQR imageData); [done|].
  destruct (loop 0 (preprocessImage luma imageData)) as [[|r rs] events];
    [destruct (detectWithGoQRAPI imageData)|]; simpl; by rewrite ?app_nil_r.
Qed.

(** In a trace that follows the schedule and stops at the first payload, a
    remote call on a preprocessed image has the local call on that image just
    before it, and that local call found nothing. *)
Lemma remote_after_local tr raw imgs n post :
  tr = Local Raw raw :: take n (schedule 0 imgs) ++ post →
  post = [] ∨ post = [Remote Raw raw] →
  (∀ t1 e t2, tr = t1 ++ e :: t2 → yields detectWithJSQR detectWithGoQRAPI e = true → t2 = []) →
  ∀ t1 i img t2,
    tr = t1 ++ Remote (Pre i) img :: t2 →
    ∃ t0, t1 = t0 ++ [Local (Pre i) img]
          ∧ detectWithJSQR img = None
          ∧ imgs !! i = Some img.
Proof.
  intros Htr Hpost Hlast t1 i img t2 Heq.
  assert (∃ t1' t2', take n (schedule 0 imgs) = t1' ++ Remote (Pre i) img :: t2'
                     ∧ t1 = Local Raw raw :: t1') as (t1' & t2' & Hcut & ->).
  { rewrite Htr in Heq.
    apply cons_cut in Heq as [(_ & ? & _)|(t1' & -> & Heq)]; [discriminate|].
    destruct Hpost as [->| ->].
    - rewrite app_nil_r in Heq. eauto.
    - apply snoc_cut in Heq as [(_ & ? & _)|(t2' & -> & Heq)]; [discriminate|].
      eauto. }
  destruct (schedule_remote _ _ _ _ _ _ _ Hcut) as (t0 & -> & _ & Hlook).
  rewrite Nat.sub_0_r in Hlook.
  exists (Local Raw raw :: t0). split; [done|]. split; [|done].
  destruct (detectWithJSQR img) as [r|] eqn:Hjs; [|done].
  exfalso.
  specialize (Hlast (Local Raw raw :: t0) (Local (Pre i) img)
                    (Remote (Pre i) img :: t2)).
  simpl in Hlast, Heq. rewrite <- app_assoc in Heq. simpl in Heq.
  rewrite Hjs in Hlast.
  by specialize (Hlast Heq (bool_decide_eq_true_2 _ (mk_is_Some _ _ eq_refl))).
Qed.

(** The calls of a run follow the schedule: the local decoder on the original
    image, a stretch of the schedule of the preprocessed images, and at most
    the remote decoder on the original image at the end; a call that produced
    a payload is the last one; a remote call on a preprocessed image comes
    directly after the local call on that same image, which found nothing. *)
Lemma detectQRCodes_trace_follows (imageData : ImageData) :
  ∃ n post,
    detectQRCodes_trace luma detectWithJSQR detectWithGoQRAPI imageData
      = Local Raw imageData
          :: take n (schedule 0 (preprocessImage luma imageData)) ++ post
    ∧ (post = [] ∨ post = [Remote Raw imageData])
    ∧ (∀ t1 e t2,
         detectQRCodes_trace luma detectWithJSQR detectWithGoQRAPI imageData
           = t1 ++ e :: t2 →
         yields detectWithJSQR detectWithGoQRAPI e = true → t2 = [])
    ∧ (∀ t1 i img t2,
         detectQRCodes_trace luma detectWithJSQR detectWithGoQRAPI imageData
           = t1 ++ Remote (Pre i) img :: t2 →
         ∃ t0, t1 = t0 ++ [Local (Pre i) img]
               ∧ detectWithJSQR img = None
               ∧ preprocessImage luma imageData !! i = Some img).
Proof.
  rewrite detectQRCodes_trace_eq.
  generalize (preprocessImage luma imageData). intros imgs.
  assert (∃ n post,
    match detectWithJSQR imageData with
    | Some _ => [Local Raw imageData]
    | None => Local Raw imageData :: (loop 0 imgs).2
                ++ match (loop 0 imgs).1 with
                   | [] => [Remote Raw imageData]
                   | _ :: _ => []
                   end
    end = Local Raw imageData :: take n (schedule 0 imgs) ++ post
    ∧ (post = [] ∨ post = [Remote Raw imageData])
    ∧ (∀ t1 e t2,
         match detectWithJSQR imageData with
         | Some _ => [Local Raw imageData]
         | None => Local Raw imageData :: (loop 0 imgs).2
                     ++ match (loop 0 imgs).1 with
                        | [] => [Remote Raw imageData]
                        | _ :: _ => []
                        end
         end = t1 ++ e :: t2 →
         yields detectWithJSQR detectWithGoQRAPI e = true → t2 = [])) as (n & post & Htr & Hpost & Hlast).
  { destruct (detectWithJSQR imageData) as [r|] eqn:Hraw.
    - exists 0, []. split; [done|]. split; [by left|].
      intros t1 e t2 Heq _. destruct t1 as [|? [|? ?]]; simplify_eq/=; done.
    - destruct (preprocessed_loop_trace 0 imgs) as (n & Htake & Hlast & Hnone).
      destruct (loop 0 imgs) as [results events].
      simpl in Htake, Hlast, Hnone. subst events. simpl.
      destruct results as [|r0 results].
      + assert (Hquiet := proj1 Hnone eq_refl).
        exists n, [Remote Raw imageData]. split; [done|]. split; [by right|].
        intros t1 e t2 Heq Hy.
        apply cons_cut in Heq as [(_ & -> & _)|(t1' & -> & Heq)].
        { simpl in Hy. rewrite Hraw in Hy.
          apply bool_decide_eq_true in Hy as [? ?]. discriminate. }
        apply snoc_cut in Heq as [(_ & _ & ->)|(t2' & -> & Heq)]; [done|].
        rewrite Heq in Hquiet. apply Forall_app in Hquiet as [_ Hquiet].
        apply Forall_cons in Hquiet as [Hq _]. congruence.
      + exists n, []. split; [done|]. split; [by left|].
        intros t1 e t2 Heq Hy. rewrite app_nil_r in Heq.
        apply cons_cut in Heq as [(_ & -> & _)|(t1' & -> & Heq)].
        { simpl in Hy. rewrite Hraw in Hy.
          apply bool_decide_eq_true in Hy as [? ?]. discriminate. }
        by eapply Hlast. }
  exists n, post. repeat split; [done..|].
  by eapply remote_after_local.
Qed.

Abbreviation found := (yields detectWithJSQR detectWithGoQRAPI).

(** The calls of the loop are calls of the schedule, in its order. *)
Lemma preprocessed_loop_prefix i imgs : (loop i imgs).2 `prefix_of` schedule i imgs.
Proof.
  destruct (preprocessed_loop_trace i imgs) as (n & -> & _).
  exists (drop n (schedule i imgs)). by rewrite take_drop.
Qed.

(** The loop leaves the schedule only behind a call that produced a payload:
    with nothing found it has gone through all of it. *)
Lemma preprocessed_loop_stops i imgs :
  ((loop i imgs).1 = [] ∧ (loop i imgs).2 = schedule i imgs)
  ∨ ((loop i imgs).1 ≠ [] ∧ ∃ t e, (loop i imgs).2 = t ++ [e] ∧ found e = true).
Proof.
  revert i. induction imgs as [|img rest IH]; intros i; simpl; [by left|].
  destruct (detectWithJSQR img) as [r|] eqn:Hjs.
  - right. split; [done|]. exists [], (Local (Pre i) img). split; [done|].
    simpl. rewrite Hjs. by apply bool_decide_eq_true_2.
  - destruct (detectWithGoQRAPI img) as [|g gs] eqn:Hgo.
    + destruct (IH (S i)) as [[Hres Hev]|(Hres & t & e & Hev & Hy)];
        destruct (loop (S i) rest) as [results events]; simpl in *.
      * left. by rewrite Hev.
      * right. split; [done|].
        exists (Local (Pre i) img :: Remote (Pre i) img :: t), e.
        by rewrite Hev.
    + right. split; [done|].
      exists [Local (Pre i) img], (Remote (Pre i) img). split; [done|].
      simpl. rewrite Hgo. by apply bool_decide_eq_true_2.
Qed.

(** Which preprocessed images the loop reaches: the local decoder is called
    on an image exactly when neither decoder found anything on the images
    before it, the remote decoder exactly when, in addition, the local one
    found nothing on the image itself. *)
Lemma preprocessed_loop_reach i imgs k img :
  imgs !! k = Some img →
  let quiet_before :=
    ∀ j img', j < k → imgs !! j = Some img' →
              detectWithJSQR img' = None ∧ detectWithGoQRAPI img' = [] in
  (Local (Pre (i + k)) img ∈ (loop i imgs).2 ↔ quiet_before)
  ∧ (Remote (Pre (i + k)) img ∈ (loop i imgs).2
     ↔ quiet_before ∧ detectWithJSQR img = None).
Proof.
  revert i k. induction imgs as [|img0 rest IH]; intros i k Hk; [done|].
  destruct k as [|k]; simpl in Hk.
  - simplify_eq. rewrite Nat.add_0_r. simpl.
    assert (Hq : ∀ j img', j < 0 → (img :: rest) !! j = Some img' →
                   detectWithJSQR img' = None ∧ detectWithGoQRAPI img' = [])
      by (intros; lia).
    destruct (detectWithJSQR img) as [r|] eqn:Hjs;
      [|destruct (detectWithGoQRAPI img) as [|g gs] eqn:Hgo;
        [destruct (loop (S i) rest) as [results events]|]];
      simpl; rewrite !elem_of_cons; split; split; try (by auto);
      try (intros [?|Hin]; [discriminate|by apply elem_of_nil in Hin]);
      intros [_ ?]; discriminate.
  - specialize (IH (S i) k Hk). cbv zeta in IH.
    replace (i + S k) with (S i + k) by lia.
    assert (Hsplit :
      (∀ j img', j < S k → (img0 :: rest) !! j = Some img' →
                 detectWithJSQR img' = None ∧ detectWithGoQRAPI img' = [])
      ↔ (detectWithJSQR img0 = None ∧ detectWithGoQRAPI img0 = [])
        ∧ ∀ j img', j < k → rest !! j = Some img' →
                    detectWithJSQR img' = None ∧ detectWithGoQRAPI img' = []).
    { split.
      - intros H. split; [apply (H 0 img0); [lia|done]|].
        intros j img' Hj Hl. apply (H (S j) img'); [lia|done].
      - intros [H0 H] [|j] img' Hj Hl; simpl in Hl; [by simplify_eq|].
        apply (H j img'); [lia|done]. }
    cbv zeta. rewrite Hsplit. simpl.
    destruct (detectWithJSQR img0) as [r|] eqn:Hjs.
    { simpl. rewrite !list_elem_of_singleton.
      split; split; try (intros [=]; lia); intros H; exfalso;
        [destruct H as [[? _] _] | destruct H as [[[? _] _] _]]; discriminate. }
    destruct (detectWithGoQRAPI img0) as [|g gs] eqn:Hgo.
    + destruct (loop (S i) rest) as [results events]. simpl in *.
      rewrite !elem_of_cons.
      destruct IH as [IHl IHr]. split.
      * rewrite IHl. split; [|intros [_ ?]; by right; right].
        intros [[=]|[[=]|?]]; [lia|done].
      * rewrite IHr. split; [|intros [[_ ?] ?]; by right; right].
        intros [[=]|[[=]|[? ?]]]; [lia|done].
    + simpl. rewrite !elem_of_cons, !elem_of_nil.
      split; split; try (intros [[=]|[[=]|[]]]; lia); intros H; exfalso;
        [destruct H as [[_ ?] _] | destruct H as [[[_ ?] _] _]]; discriminate.
Qed.

(** C2. One detection run makes its decoder calls in one fixed order: the
    local decoder on the original image, then for each of the four
    preprocessed images, in their order, the local decoder and after it the
    remote decoder on that same image, then the remote decoder on the
    original image.  The run stops at the first call that produced a payload,
    and nowhere else: a call that produced one is the last, and a run that
    does not go through the whole order ends with such a call.  So the local
    decoder is called on a preprocessed image exactly when it found nothing
    on the original image and neither decoder found anything on the images
    before that one, and the remote decoder exactly when, in addition, the
    local call on that same image found nothing, directly after that call. *)
Theorem detectQRCodes_local_before_remote (imageData : ImageData) :
  let imgs := preprocessImage luma imageData in
  let tr := detectQRCodes_trace luma detectWithJSQR detectWithGoQRAPI imageData in
  let full := Local Raw imageData :: schedule 0 imgs ++ [Remote Raw imageData] in
  length imgs = 4
  ∧ tr `prefix_of` full
  ∧ (∀ t1 e t2, tr = t1 ++ e :: t2 → found e = true → t2 = [])
  ∧ (tr = full ∨ ∃ t e, tr = t ++ [e] ∧ found e = true)
  ∧ (∀ k img, imgs !! k = Some img →
       (Local (Pre k) img ∈ tr
        ↔ detectWithJSQR imageData = None
          ∧ ∀ j img', j < k → imgs !! j = Some img' →
                      detectWithJSQR img' = None ∧ detectWithGoQRAPI img' = [])
       ∧ (Remote (Pre k) img ∈ tr
          ↔ Local (Pre k) img ∈ tr ∧ detectWithJSQR img = None))
  ∧ (∀ t1 i img t2,
       tr = t1 ++ Remote (Pre i) img :: t2 →
       ∃ t0, t1 = t0 ++ [Local (Pre i) img]
             ∧ detectWithJSQR img = None
             ∧ imgs !! i = Some img).
Proof.
  intros imgs tr full. split; [done|].
  destruct (detectQRCodes_trace_follows imageData)
    as (n & post & Hshape & Hpost & Hlast & Hremote).
  fold imgs tr in Hshape, Hlast, Hremote.
  assert (Htr : tr = match detectWithJSQR imageData with
                     | Some _ => [Local Raw imageData]
                     | None =>
                         Local Raw imageData :: (loop 0 imgs).2
                           ++ match (loop 0 imgs).1 with
                              | [] => [Remote Raw imageData]
                              | _ :: _ => []
                              end
                     end) by apply detectQRCodes_trace_eq.
  clearbody tr imgs. clear Hshape Hpost n post.
  split; [|split; [done|]; split; [|split; [|done]]].
  - (* the order *)
    rewrite Htr. destruct (detectWithJSQR imageData) as [r|].
    + apply prefix_cons, prefix_nil.
    + apply prefix_cons.
      destruct (preprocessed_loop_stops 0 imgs) as [[-> ->]|[Hres _]]; [done|].
      destruct (loop 0 imgs).1; [done|]. rewrite app_nil_r.
      apply prefix_app_r, preprocessed_loop_prefix.
  - (* where it stops *)
    rewrite Htr. destruct (detectWithJSQR imageData) as [r|] eqn:Hraw.
    + right. exists [], (Local Raw imageData). split; [done|].
      simpl. rewrite Hraw. by apply bool_decide_eq_true_2.
    + destruct (preprocessed_loop_stops 0 imgs)
        as [[-> ->]|(Hres & t & e & -> & Hy)]; [by left|].
      right. destruct (loop 0 imgs).1; [done|]. rewrite app_nil_r.
      by exists (Local Raw imageData :: t), e.
  - (* which images it reaches *)
    intros k img Hk.
    destruct (preprocessed_loop_reach 0 imgs k img Hk) as [Hl Hr].
    cbv zeta in Hl, Hr. simpl in Hl, Hr.
    assert (Hin : ∀ e,
      (∀ l img', e ≠ Local l img') ∨ (∃ i img', e = Local (Pre i) img') →
      e ≠ Remote Raw imageData →
      e ∈ tr ↔ detectWithJSQR imageData = None ∧ e ∈ (loop 0 imgs).2).
    { intros e Hpre Hnot. rewrite Htr.
      destruct (detectWithJSQR imageData) as [r|].
      - rewrite list_elem_of_singleton. split; [|by intros [? _]].
        intros ->. destruct Hpre as [Hpre|(i & img' & [=])].
        by destruct (Hpre Raw imageData).
      - rewrite elem_of_cons, elem_of_app.
        split; [|intros [_ ?]; by right; left].
        intros [->|[?|Hpost]]; [|done|].
        + destruct Hpre as [Hpre|(i & img' & [=])].
          by destruct (Hpre Raw imageData).
        + destruct (loop 0 imgs).1; [|by apply elem_of_nil in Hpost].
          by apply list_elem_of_singleton in Hpost. }
    rewrite !Hin, Hl, Hr; [tauto | by left | done | right; eauto | done].
Qed.

End CascadeFacts.

(** ** The early return of the cascade *)

Lemma dup_image_wf : wf_image dup_image.
Proof.
  split; simpl; [lia | lia | done |].
  repeat constructor; unfold is_byte; lia.
Qed.

Lemma remote_twice_preprocessed luma img :
  img ∈ preprocessImage luma dup_image → remote_twice img = [].
Proof.
  unfold preprocessImage. rewrite !elem_of_cons, elem_of_nil.
  intros [->|[->|[->|[->|[]]]]]; unfold remote_twice; case_decide as Heq; try done; exfalso.
  - unfold increaseContrast, convertToGrayscale in Heq.
    cbn -[contrast store_int gray_at] in Heq.
    injection Heq as H0 H1 _. rewrite H0 in H1. discriminate.
  - unfold applyThreshold in Heq.
    cbn -[binarize store_int gray_at threshold_of] in Heq.
    injection Heq as H0 H1 _. rewrite H0 in H1. discriminate.
Qed.

Lemma preprocessed_loop_nothing detectWithGoQRAPI i imgs :
  (∀ img, img ∈ imgs → detectWithGoQRAPI img = []) →
  (preprocessed_loop no_local detectWithGoQRAPI i imgs).1 = [].
Proof.
  revert i. induction imgs as [|img rest IH]; intros i Hnone; simpl; [done|].
  rewrite (Hnone img) by left.
  specialize (IH (S i) (fun img' Hin => Hnone img' (list_elem_of_further _ _ _ Hin))).
  by destruct (preprocessed_loop no_local detectWithGoQRAPI (S i) rest).
Qed.

(** C3, on the code.  When only the remote decoder, called on the original
    image, finds anything, [detectQRCodes] returns its answer as it is, before
    the deduplication step: here the same data string twice. *)
Theorem detectQRCodes_early_return_keeps_duplicates (luma : Z → Z → Z → Z) :
  detectQRCodes luma no_local remote_twice dup_image = [dup_result; dup_result]
  ∧ ¬ NoDup (Detection.data <$> detectQRCodes luma no_local remote_twice dup_image)
  ∧ removeDuplicates (detectQRCodes luma no_local remote_twice dup_image)
    = [dup_result].
Proof.
  assert (Hrun : detectQRCodes luma no_local remote_twice dup_image
                 = [dup_result; dup_result]).
  { unfold detectQRCodes, detectQRCodes_run.
    change (no_local dup_image) with (@None QRCodeResult).
    pose proof (preprocessed_loop_nothing remote_twice 0
                  (preprocessImage luma dup_image)
                  (remote_twice_preprocessed luma)) as Hloop.
    destruct (preprocessed_loop no_local remote_twice 0
                (preprocessImage luma dup_image)) as [results events].
    simpl in Hloop. subst results. reflexivity. }
  rewrite Hrun. split; [done|]. split; [|by vm_compute].
  intros Hnd. simpl in Hnd. apply NoDup_cons in Hnd as [Hnotin _].
  apply Hnotin. left.
Qed.

(** X3. Every path of the cascade but the early return goes through the
    deduplication step: the returned array carries no data string twice,
    unless it is the remote answer for the original image, returned as it
    is. *)
Lemma detectQRCodes_NoDup_or_early_return luma detectWithJSQR detectWithGoQRAPI imageData :
  NoDup (Detection.data <$>
           detectQRCodes luma detectWithJSQR detectWithGoQRAPI imageData)
  ∨ (detectWithJSQR imageData = None
     ∧ detectWithGoQRAPI imageData ≠ []
     ∧ detectQRCodes luma detectWithJSQR detectWithGoQRAPI imageData
       = detectWithGoQRAPI imageData).
Proof.
  unfold detectQRCodes, detectQRCodes_run.
  destruct (detectWithJSQR imageData) as [r|].
  - left. simpl. apply removeDuplicates_from_NoDup.
  - destruct (preprocessed_loop detectWithJSQR detectWithGoQRAPI 0
                (preprocessImage luma imageData)) as [[|r0 results] events].
    + destruct (detectWithGoQRAPI imageData) as [|g gs] eqn:Hgo.
      * left. simpl. constructor.
      * right. simpl. done.
    + left. simpl. apply removeDuplicates_from_NoDup.
Qed.

(** ** The remote decoder wrapper *)

Section RemoteFacts.

Variable gt_zero_coerced : json → bool.

(** Reading the four members fails on [null] alone; every other code is
    passed on. *)
Lemma to_entry_passed_on qr :
  to_entry qr = if is_null qr then inl "TypeError" else inr (passed_on qr).
Proof. by destruct qr. Qed.

Lemma map_entries_passed_on items :
  if existsb is_null items then ∃ error, map_entries items = inl error
  else map_entries items = inr (passed_on <$> items).
Proof.
  induction items as [|qr rest IH]; simpl; [done|].
  rewrite to_entry_passed_on. destruct (is_null qr); simpl; [by eexists|].
  destruct (existsb is_null rest).
  - destruct IH as [error ->]. by eexists.
  - by rewrite IH.
Qed.

(** What reading a body comes to: the announced codes are passed on, unless
    one of them is [null]; a body on which reading fails announces none, or
    a [null]. *)
Lemma parse_response_answer result :
  let answer := if existsb is_null (announced_codes result) then []
                else passed_on <$> announced_codes result in
  parse_response gt_zero_coerced result = inr answer
  ∨ (∃ error, parse_response gt_zero_coerced result = inl error) ∧ answer = [].
Proof.
  unfold parse_response, announced_codes.
  destruct result as [| | | | |members]; simpl; try (by left).
  { right. split; [by eexists | done]. }
  destruct (truthy (lookup_last "success" members)); [|by left].
  destruct (lookup_last "qr_codes" members) as [codes|]; [|by left].
  destruct codes as [|b|q|s|items|members']; simpl.
  - by left.
  - destruct b; by left.
  - destruct (negb _); by left.
  - destruct (negb _); [|by left].
    destruct (0 <? String.length s); [right; split; [by eexists | done] | by left].
  - pose proof (map_entries_passed_on items) as Hmap.
    destruct items as [|qr rest]; [by left|].
    change (0 <? length (qr :: rest)) with true. cbv iota.
    destruct (existsb is_null (qr :: rest)); [by right | by left].
  - destruct (gt_zero _ _); [right; split; [by eexists | done] | by left].
Qed.

(** The wrapper never lets an exception out. *)
Lemma detectWithGoQRAPI_never_rejects e error :
  detectWithGoQRAPI gt_zero_coerced e ≠ Rejected error.
Proof.
  unfold detectWithGoQRAPI.
  by destruct (detectWithGoQRAPI_try gt_zero_coerced e).
Qed.

(** C5, as amended.  Once the request is on its way, the wrapper never lets
    an exception out, and it returns the empty array when [fetch] rejects
    (which is how a time limit of the network stack shows), when the status
    is not 2xx, and when the body is not JSON.  A JSON body that comes with a
    2xx status is not checked against the expected shape: the codes it
    announces are passed on as they are, with [undefined] for whatever they
    lack, and the array is empty only when the body announces no code or a
    [null] among them.  The wrapper sets no time limit: while the request, or
    the body of a 2xx response, is outstanding, it does not return. *)
Theorem detectWithGoQRAPI_failure_empty (e : env) :
  context2d e = true → blob e = true →
  (∀ error, detectWithGoQRAPI gt_zero_coerced e ≠ Rejected error)
  ∧ (fetched e = FetchRejects →
     detectWithGoQRAPI gt_zero_coerced e = Fulfilled [])
  ∧ (∀ status, ok status = false →
       (∃ body, fetched e = Response status body)
       ∨ fetched e = ResponseHangs status →
       detectWithGoQRAPI gt_zero_coerced e = Fulfilled [])
  ∧ (∀ status, fetched e = Response status None →
       detectWithGoQRAPI gt_zero_coerced e = Fulfilled [])
  ∧ (∀ status result,
       ok status = true → fetched e = Response status (Some result) →
       detectWithGoQRAPI gt_zero_coerced e
       = Fulfilled (if existsb is_null (announced_codes result) then []
                    else passed_on <$> announced_codes result)
       ∧ (detectWithGoQRAPI gt_zero_coerced e = Fulfilled []
          ↔ announced_codes result = []
            ∨ existsb is_null (announced_codes result) = true))
  ∧ (fetched e = FetchHangs
     ∨ (∃ status, ok status = true ∧ fetched e = ResponseHangs status) →
     detectWithGoQRAPI gt_zero_coerced e = Pending).
Proof.
  intros Hctx Hblob.
  split; [intros error; apply detectWithGoQRAPI_never_rejects|].
  unfold detectWithGoQRAPI, detectWithGoQRAPI_try. rewrite Hctx, Hblob. simpl.
  split; [by intros ->|].
  split; [intros status Hok [[body ->]| ->]; by rewrite Hok|].
  split; [intros status ->; by destruct (ok status)|].
  split; [|intros [->|(status & Hok & ->)]; [done | by rewrite Hok]].
  intros status result Hok ->. rewrite Hok. simpl.
  assert (Hanswer :
    match parse_response gt_zero_coerced result with
    | inl _ => Fulfilled []
    | inr entries => Fulfilled entries
    end = Fulfilled (if existsb is_null (announced_codes result) then []
                     else passed_on <$> announced_codes result)).
  { destruct (parse_response_answer result) as [->|[[error ->] ->]]; done. }
  assert (Hrun :
    match
      match parse_response gt_zero_coerced result with
      | inl error => Rejected error
      | inr entries => Fulfilled entries
      end
    with
    | Rejected _ => Fulfilled []
    | r => r
    end = Fulfilled (if existsb is_null (announced_codes result) then []
                     else passed_on <$> announced_codes result)).
  { rewrite <- Hanswer. by destruct (parse_response gt_zero_coerced result). }
  rewrite Hrun. split; [done|].
  destruct (existsb is_null (announced_codes result)); [naive_solver|].
  destruct (announced_codes result); simpl; naive_solver.
Qed.

End RemoteFacts.

Lemma detectWithGoQRAPI_failure_empty_witness :
  context2d timed_out = true ∧ blob timed_out = true
  ∧ (∀ error, detectWithGoQRAPI (fun _ => false) timed_out ≠ Rejected error)
  ∧ (fetched timed_out = FetchRejects →
     detectWithGoQRAPI (fun _ => false) timed_out = Fulfilled [])
  ∧ (∀ status, ok status = false →
       (∃ body, fetched timed_out = Response status body)
       ∨ fetched timed_out = ResponseHangs status →
       detectWithGoQRAPI (fun _ => false) timed_out = Fulfilled [])
  ∧ (∀ status, fetched timed_out = Response status None →
       detectWithGoQRAPI (fun _ => false) timed_out = Fulfilled [])
  ∧ (∀ status result,
       ok status = true → fetched timed_out = Response status (Some result) →
       detectWithGoQRAPI (fun _ => false) timed_out
       = Fulfilled (if existsb is_null (announced_codes result) then []
                    else passed_on <$> announced_codes result)
       ∧ (detectWithGoQRAPI (fun _ => false) timed_out = Fulfilled []
          ↔ announced_codes result = []
            ∨ existsb is_null (announced_codes result) = true))
  ∧ (fetched timed_out = FetchHangs
     ∨ (∃ status, ok status = true ∧ fetched timed_out = ResponseHangs status) →
     detectWithGoQRAPI (fun _ => false) timed_out = Pending).
Proof.
  split; [reflexivity|]. split; [reflexivity|].
  apply (detectWithGoQRAPI_failure_empty (fun _ => false) timed_out);
    reflexivity.
Defined.

(** C5, as stated, fails: a 2xx answer whose body is malformed, its three
    codes being a number, a string and an object without members, is a
    failure of the remote call, and the wrapper returns three entries, every
    property of which is [undefined]. *)
Lemma detectWithGoQRAPI_malformed_body_passed_on :
  ok 200 = true
  ∧ well_formed_body unchecked_body = false
  ∧ remote_failure (fetched unchecked)
  ∧ detectWithGoQRAPI (fun _ => false) unchecked
    = Fulfilled [undefined_entry; undefined_entry; undefined_entry]
  ∧ detectWithGoQRAPI (fun _ => false) unchecked ≠ Fulfilled [].
Proof.
  split; [reflexivity|]. split; [reflexivity|].
  split; [by apply fail_malformed|]. split; [reflexivity|]. discriminate.
Qed.

(** ** Image preprocessing *)

Lemma write_pixel_length a data i : length (write_pixel a data i) = length data.
Proof. unfold write_pixel. by rewrite !length_insert. Qed.

Lemma write_pixels_length a data ks :
  length (foldl (write_pixel a) data ks) = length data.
Proof.
  revert data. induction ks as [|k ks IH]; intros data; simpl; [done|].
  by rewrite IH, write_pixel_length.
Qed.

Lemma write_pixel_lookup_other a data i j :
  (j < i ∨ i + 4 ≤ j) → write_pixel a data i !! j = data !! j.
Proof.
  intros Hj. unfold write_pixel.
  rewrite !list_lookup_insert_ne by lia. done.
Qed.

Lemma write_pixel_lookup a data i k :
  k < 4 → i + 3 < length data → write_pixel a data i !! (i + k) = Some (a k i).
Proof.
  intros Hk Hlen. unfold write_pixel.
  destruct k as [|[|[|[|k]]]]; [| | | |lia].
  - rewrite !list_lookup_insert_ne by lia. rewrite Nat.add_0_r.
    apply list_lookup_insert_eq. lia.
  - rewrite !list_lookup_insert_ne by lia.
    apply list_lookup_insert_eq. rewrite !length_insert. lia.
  - rewrite !list_lookup_insert_ne by lia.
    apply list_lookup_insert_eq. rewrite !length_insert. lia.
  - apply list_lookup_insert_eq. rewrite !length_insert. lia.
Qed.

(** After the loop over the first [n] pixels, byte [k] of pixel [p < n] holds
    what the round of that pixel wrote. *)
Lemma write_pixels_lookup a data n p k :
  p < n → k < 4 → 4 * n ≤ length data →
  foldl (write_pixel a) data ((fun j => 4 * j) <$> seq 0 n) !! (4 * p + k)
  = Some (a k (4 * p)).
Proof.
  induction n as [|n IH]; intros Hp Hk Hlen; [lia|].
  rewrite seq_S, fmap_app, foldl_app. simpl.
  destruct (decide (p = n)) as [->|Hne].
  - apply write_pixel_lookup; [done|]. rewrite write_pixels_length. lia.
  - rewrite write_pixel_lookup_other by lia. apply IH; lia.
Qed.

Lemma offsets_wf (w h : nat) :
  offsets (4 * w * h) = (fun j => 4 * j) <$> seq 0 (w * h).
Proof.
  unfold offsets. do 2 f_equal.
  replace (4 * w * h + 3) with (3 + (w * h) * 4) by lia.
  rewrite Nat.div_add by lia. done.
Qed.

(** The shape shared by the three transforms. *)
Lemma transform_lookup a img p k :
  wf_image img → p < width img * height img → k < 4 →
  foldl (write_pixel a) (Image.data (new_ImageData (width img) (height img)))
        (offsets (length (Image.data img))) !! (4 * p + k)
  = Some (a k (4 * p)).
Proof.
  intros [_ _ Hlen _] Hp Hk. rewrite Hlen, offsets_wf.
  apply write_pixels_lookup; [done..|].
  simpl. rewrite length_replicate. lia.
Qed.

Lemma transform_length a img :
  wf_image img →
  length (foldl (write_pixel a) (Image.data (new_ImageData (width img) (height img)))
                (offsets (length (Image.data img))))
  = length (Image.data img).
Proof.
  intros [_ _ Hlen _]. rewrite write_pixels_length. simpl.
  by rewrite length_replicate.
Qed.

Lemma store_int_byte (original : list Z) i :
  Forall is_byte original → i < length original →
  Some (store_int (original !! i)) = original !! i.
Proof.
  intros Hbytes Hi.
  destruct (lookup_lt_is_Some_2 _ _ Hi) as [x Hx]. rewrite Hx. simpl.
  rewrite Forall_lookup in Hbytes. specialize (Hbytes _ _ Hx).
  unfold is_byte in Hbytes. unfold clamp255. f_equal. lia.
Qed.

Lemma write_pixel_keeps_frame a img :
  wf_image img →
  (∀ i, a 3 i = store_int (Image.data img !! (i + 3))) →
  keeps_frame img
    {| width := width img; height := height img;
       Image.data := foldl (write_pixel a)
                       (Image.data (new_ImageData (width img) (height img)))
                       (offsets (length (Image.data img))) |}.
Proof.
  intros Hwf Halpha. unfold keeps_frame. cbn [Image.data width height].
  repeat split.
  - by apply transform_length.
  - intros p Hp. rewrite (transform_lookup a img p 3) by (done || lia).
    rewrite Halpha. apply store_int_byte; [apply Hwf|].
    destruct Hwf as [_ _ Hlen _]. rewrite Hlen. lia.
Qed.

Lemma increaseContrast_eq img :
  increaseContrast img
  = {| width := width img; height := height img;
       Image.data := foldl (write_pixel (contrast_bytes (Image.data img)))
                       (Image.data (new_ImageData (width img) (height img)))
                       (offsets (length (Image.data img))) |}.
Proof. reflexivity. Qed.

Lemma convertToGrayscale_eq luma img :
  convertToGrayscale luma img
  = {| width := width img; height := height img;
       Image.data := foldl (write_pixel (gray_bytes luma (Image.data img)))
                       (Image.data (new_ImageData (width img) (height img)))
                       (offsets (length (Image.data img))) |}.
Proof. reflexivity. Qed.

Lemma applyThreshold_eq luma img :
  applyThreshold luma img
  = {| width := width img; height := height img;
       Image.data := foldl (write_pixel (threshold_bytes luma (Image.data img)))
                       (Image.data (new_ImageData (width img) (height img)))
                       (offsets (length (Image.data img))) |}.
Proof. reflexivity. Qed.

(** C10. On a well-formed image each of the three transforms returns an image
    of the same width and height, with as many bytes, in which every pixel
    has the alpha byte it had. *)
Theorem transforms_keep_frame (luma : Z → Z → Z → Z) (img : ImageData) :
  wf_image img →
  keeps_frame img (increaseContrast img)
  ∧ keeps_frame img (convertToGrayscale luma img)
  ∧ keeps_frame img (applyThreshold luma img).
Proof.
  intros Hwf.
  rewrite increaseContrast_eq, convertToGrayscale_eq, applyThreshold_eq.
  repeat split; apply write_pixel_keeps_frame; done.
Qed.

Lemma transforms_keep_frame_witness :
  wf_image dup_image
  ∧ keeps_frame dup_image (increaseContrast dup_image)
  ∧ keeps_frame dup_image (convertToGrayscale luma_double dup_image)
  ∧ keeps_frame dup_image (applyThreshold luma_double dup_image).
Proof.
  assert (Hwf : wf_image dup_image).
  { split; simpl; [lia | lia | reflexivity |].
    repeat constructor; unfold is_byte; lia. }
  split; [exact Hwf | apply (transforms_keep_frame luma_double dup_image Hwf)].
Defined.

(** *** The contrast transform *)

Lemma contrast_check_bytes : forallb contrast_check (seqZ 0 256) = true.
Proof. vm_compute. reflexivity. Qed.

(** The byte written for a colour byte: within half a unit of the fixed-gain
    value, and equal to the byte it replaces only for 0, 128 and 255. *)
Lemma contrast_fixed_gain (v : Z) :
  is_byte v →
  is_byte (contrast (Some v))
  ∧ (Z.abs (2 * contrast (Some v) - doubled_gain v) ≤ 1)%Z
  ∧ (contrast (Some v) = v ↔ v = 0%Z ∨ v = 128%Z ∨ v = 255%Z).
Proof.
  intros Hv.
  assert (Hin : v ∈ seqZ 0 256) by (apply elem_of_seqZ; unfold is_byte in Hv; lia).
  pose proof contrast_check_bytes as Hall.
  rewrite forallb_forall in Hall.
  specialize (Hall v (proj1 (list_elem_of_In _ _) Hin)).
  unfold contrast_check in Hall.
  apply andb_prop in Hall as [Hall Hfix].
  apply andb_prop in Hall as [Hall Hnear].
  apply andb_prop in Hall as [Hlo Hhi].
  apply Bool.eqb_prop in Hfix.
  split; [unfold is_byte; lia|]. split; [lia|].
  split.
  - intros Heq. apply Z.eqb_eq in Heq. rewrite Heq in Hfix. symmetry in Hfix.
    apply orb_prop in Hfix as [Hfix|Hfix]; [apply orb_prop in Hfix as [Hfix|Hfix]|]; lia.
  - intros Hcases. apply Z.eqb_eq. rewrite Hfix.
    destruct Hcases as [->|[->| ->]]; reflexivity.
Qed.

(** C4, as the code has it.  On a well-formed image [increaseContrast] keeps
    the dimensions and maps every colour byte [v], by itself, to
    [(v - 128) * 1.5 + 128] clamped to 0..255 and rounded to the nearest byte:
    a fixed gain about mid-grey, no minimum or maximum of the frame involved.
    A colour byte stays what it was only when it is 0, 128 or 255. *)
Theorem increaseContrast_fixed_gain (img : ImageData) (p k : nat) (v : Z) :
  wf_image img →
  p < width img * height img → k < 3 →
  Image.data img !! (4 * p + k) = Some v →
  width (increaseContrast img) = width img
  ∧ height (increaseContrast img) = height img
  ∧ Image.data (increaseContrast img) !! (4 * p + k) = Some (contrast (Some v))
  ∧ is_byte (contrast (Some v))
  ∧ (Z.abs (2 * contrast (Some v) - doubled_gain v) ≤ 1)%Z
  ∧ (contrast (Some v) = v ↔ v = 0%Z ∨ v = 128%Z ∨ v = 255%Z).
Proof.
  intros Hwf Hp Hk Hv.
  assert (Hbyte : is_byte v).
  { destruct Hwf as [_ _ _ Hbytes]. rewrite Forall_lookup in Hbytes. eauto. }
  split; [done|]. split; [done|]. split; [|by apply contrast_fixed_gain].
  rewrite increaseContrast_eq. cbn [Image.data].
  rewrite (transform_lookup _ img p k) by (done || lia).
  f_equal. destruct k as [|[|[|k]]]; [| | |lia]; cbn [contrast_bytes].
  - by rewrite Nat.add_0_r in Hv; rewrite Hv.
  - by rewrite Hv.
  - by rewrite Hv.
Qed.

Lemma increaseContrast_fixed_gain_witness :
  wf_image flat_image
  ∧ 0 < width flat_image * height flat_image ∧ 1 < 3
  ∧ Image.data flat_image !! (4 * 0 + 1) = Some 100%Z
  ∧ width (increaseContrast flat_image) = width flat_image
  ∧ height (increaseContrast flat_image) = height flat_image
  ∧ Image.data (increaseContrast flat_image) !! (4 * 0 + 1) = Some (contrast (Some 100%Z))
  ∧ is_byte (contrast (Some 100%Z))
  ∧ (Z.abs (2 * contrast (Some 100%Z) - doubled_gain 100) ≤ 1)%Z
  ∧ (contrast (Some 100%Z) = 100%Z ↔ 100%Z = 0%Z ∨ 100%Z = 128%Z ∨ 100%Z = 255%Z).
Proof.
  assert (Hwf : wf_image flat_image).
  { split; simpl; [lia | lia | reflexivity |].
    repeat constructor; unfold is_byte; lia. }
  split; [exact Hwf|]. split; [simpl; lia|]. split; [lia|]. split; [reflexivity|].
  apply (increaseContrast_fixed_gain flat_image 0 1 100%Z Hwf);
    [simpl; lia | lia | reflexivity].
Defined.

(** C4, as stated, fails: the flat frame has its minimum equal to its maximum
    and is not returned unchanged. *)
Lemma increaseContrast_flat_image_changed :
  wf_image flat_image
  ∧ global_min flat_image = global_max flat_image
  ∧ increaseContrast flat_image ≠ flat_image
  ∧ Image.data (increaseContrast flat_image) = [86; 86; 86; 100]%Z.
Proof.
  split.
  { split; simpl; [lia | lia | reflexivity |].
    repeat constructor; unfold is_byte; lia. }
  split; [reflexivity|]. split; [|reflexivity].
  intros Heq. apply (f_equal Image.data) in Heq. vm_compute in Heq. discriminate.
Qed.

(** *** The luminance on doubles *)

(** The exact value of the expression on this pixel is 22.5; the sum of the
    rounded products stays below it, and the pixel gets the grey 22. *)
Example luma_double_below_half : luma_double 0 36 12 = 22%Z.
Proof. by vm_compute. Qed.

(** *** The remote decoder on sample answers *)

(** An answer of the expected shape is passed on, entry by entry. *)
Example detectWithGoQRAPI_one_code :
  detectWithGoQRAPI (fun _ => false)
    {| context2d := true; blob := true;
       fetched := Response 200
         (Some (JObj [ ("success", JBool true);
                       ("qr_codes", JArr [ JObj [ ("data", JStr "https://example.com");
                                                   ("type", JStr "QRCODE") ] ]) ])) |}
  = Fulfilled [ {| e_data := Some (JStr "https://example.com");
                   e_type := Some (JStr "QRCODE");
                   e_location := None; e_method := None |} ].
Proof. reflexivity. Qed.

(** A server error, and a string where the array of entries should be. *)
Example detectWithGoQRAPI_server_error :
  detectWithGoQRAPI (fun _ => false)
    {| context2d := true; blob := true; fetched := Response 500 None |}
  = Fulfilled [].
Proof. reflexivity. Qed.

Example detectWithGoQRAPI_wrong_shape :
  detectWithGoQRAPI (fun _ => false)
    {| context2d := true; blob := true;
       fetched := Response 200
         (Some (JObj [ ("success", JBool true); ("qr_codes", JStr "none") ])) |}
  = Fulfilled [].
Proof. reflexivity. Qed.

(** A request that is never answered: the wrapper waits with it. *)
Example detectWithGoQRAPI_never_answered :
  detectWithGoQRAPI (fun _ => false)
    {| context2d := true; blob := true; fetched := FetchHangs |}
  = Pending.
Proof. reflexivity. Qed.

(** Without a blob the wrapper waits for ever: it neither returns nor throws. *)
Example detectWithGoQRAPI_no_blob :
  detectWithGoQRAPI (fun _ => false)
    {| context2d := true; blob := false; fetched := FetchRejects |}
  = Pending.
Proof. reflexivity. Qed.

(** * Further properties of the code *)

(** ** Structured payloads *)

Lemma split_free sep s : free_of sep s = true → split sep s = [s].
Proof.
  unfold free_of. induction s as [|c s IH]; simpl; [done|].
  intros [Hc Hs]%andb_prop. apply negb_true_iff in Hc. rewrite Hc, (IH Hs). done.
Qed.

Lemma split_app sep a b :
  free_of sep a = true → split sep (a +:+ String sep b) = a :: split sep b.
Proof.
  unfold free_of. induction a as [|c a IH]; intros Ha.
  - rewrite str_app_nil_l. simpl. by rewrite Ascii.eqb_refl.
  - simpl in Ha. apply andb_prop in Ha as [Hc Ha]. apply negb_true_iff in Hc.
    rewrite str_app_cons. simpl. rewrite Hc, (IH Ha). done.
Qed.

Lemma split_pieces_free sep s : Forall (fun p => free_of sep p = true) (split sep s).
Proof.
  unfold free_of. induction s as [|c s IH]; simpl.
  - by constructor.
  - destruct (Ascii.eqb c sep) eqn:Hc.
    + by constructor.
    + destruct (split sep s) as [|p ps]; [by repeat constructor; simpl; rewrite Hc|].
      apply Forall_cons in IH as [Hp Hps]. constructor; [|done].
      simpl. by rewrite Hc, Hp.
Qed.

Lemma split_nonempty sep s : split sep s ≠ [].
Proof.
  destruct s as [|c s]; simpl; [done|].
  destruct (Ascii.eqb c sep); [done|]. by destruct (split sep s).
Qed.

Lemma split_head sep s : head (split sep s) = Some (before_sep sep s).
Proof.
  unfold before_sep. induction s as [|c s IH]; simpl; [done|].
  destruct (Ascii.eqb c sep); simpl; [done|].
  destruct (split sep s) as [|p ps]; simpl in *; [done|]. by simplify_eq.
Qed.

Lemma before_sep_free sep s : free_of sep (before_sep sep s) = true.
Proof. apply span_forall. Qed.

(** Reading [key:value]: the value stops at its first colon. *)
Lemma key_value_line key value :
  free_of ":" key = true →
  key_value (key +:+ String ":" value) = (key, before_sep ":" value).
Proof.
  intros Hkey. unfold key_value, split_limit. rewrite (split_app _ _ _ Hkey).
  pose proof (split_head ":" value) as Hhead.
  destruct (split ":" value) as [|v vs]; [done|]. simpl in *. by simplify_eq.
Qed.

Lemma key_value_free line :
  free_of ":" (key_value line).1 = true ∧ free_of ":" (key_value line).2 = true.
Proof.
  unfold key_value, split_limit.
  pose proof (split_pieces_free ":" line) as Hall.
  destruct (split ":" line) as [|k [|v vs]]; simpl; [done| |].
  - by apply Forall_cons in Hall as [? _].
  - apply Forall_cons in Hall as [? Hall]. by apply Forall_cons in Hall as [? _].
Qed.

Lemma fields_ok_empty fields : fields_ok fields ∅.
Proof. split; [set_solver | apply map_Forall_empty]. Qed.

Lemma fields_ok_insert fields details k v :
  fields_ok fields details → k ∈ fields → free_of ":" v = true →
  fields_ok fields (<[k := v]> details).
Proof.
  intros [Hdom Hall] Hk Hv. split.
  - rewrite dom_insert_L. set_solver.
  - by apply map_Forall_insert_2.
Qed.

Lemma parseVCard_line_ok details line :
  fields_ok vcard_fields details → fields_ok vcard_fields (parseVCard_line details line).
Proof.
  intros Hok. unfold parseVCard_line.
  destruct (includes ":" (trim line)); [|done].
  pose proof (key_value_free (trim line)) as [_ Hv].
  destruct (key_value (trim line)) as [key value]. simpl in Hv.
  repeat match goal with
         | |- context [if ?b then _ else _] => destruct b
         end; try done;
    (apply fields_ok_insert; [done | unfold vcard_fields; set_solver | done]).
Qed.

Lemma parseWiFi_part_ok details part :
  fields_ok wifi_fields details → fields_ok wifi_fields (parseWiFi_part details part).
Proof.
  intros Hok. unfold parseWiFi_part.
  destruct (includes ":" part); [|done].
  pose proof (key_value_free part) as [_ Hv].
  destruct (key_value part) as [key value]. simpl in Hv.
  repeat match goal with
         | |- context [if ?b then _ else _] => destruct b
         end; try done;
    (apply fields_ok_insert; [done | unfold wifi_fields; set_solver | done]).
Qed.

Lemma foldl_fields_ok {A} fields (f : gmap string string → A → gmap string string) l d :
  (∀ d x, fields_ok fields d → fields_ok fields (f d x)) →
  fields_ok fields d → fields_ok fields (foldl f d l).
Proof.
  intros Hf. revert d. induction l as [|x l IH]; intros d Hd; simpl; [done|].
  apply IH. by apply Hf.
Qed.

(** X4. [parseVCard] sets none but its seven fields, whatever the card holds, and
    no value it stores holds a colon: a value is cut at its first colon. *)
Theorem parseVCard_fields (vcardData : string) :
  dom (parseVCard vcardData) ⊆ vcard_fields
  ∧ ∀ field value, parseVCard vcardData !! field = Some value →
                   free_of ":" value = true.
Proof.
  destruct (foldl_fields_ok vcard_fields parseVCard_line
              (split newline vcardData) ∅ parseVCard_line_ok
              (fields_ok_empty _)) as [Hdom Hall].
  split; [done|]. intros field value Hlook. by apply (Hall field value).
Qed.

Lemma free_of_app sep a b :
  free_of sep (a +:+ b) = free_of sep a && free_of sep b.
Proof.
  unfold free_of. induction a as [|c a IH]; [done|].
  rewrite str_app_cons. simpl. by rewrite IH, andb_assoc.
Qed.

Lemma includes_sep_app sep a b : includes (String sep "") (a +:+ String sep b) = true.
Proof.
  induction a as [|c a IH].
  - rewrite str_app_nil_l. simpl. by rewrite Ascii.eqb_refl.
  - rewrite str_app_cons. simpl. rewrite IH. by rewrite orb_true_r.
Qed.

Lemma before_sep_id sep s : free_of sep s = true → before_sep sep s = s.
Proof.
  unfold free_of, before_sep. induction s as [|c s IH]; simpl; [done|].
  intros [Hc Hs]%andb_prop. rewrite Hc. simpl. by rewrite (IH Hs).
Qed.

(** One [key:value] segment of a WiFi payload. *)
Lemma parseWiFi_part_segment details key value :
  free_of ":" key = true →
  parseWiFi_part details (key +:+ String ":" value)
  = let v := before_sep ":" value in
    if String.eqb key "S" then <["ssid" := v]> details
    else if String.eqb key "P" then <["password" := v]> details
    else if String.eqb key "T" then <["security" := v]> details
    else details.
Proof.
  intros Hkey. unfold parseWiFi_part.
  by rewrite includes_sep_app, (key_value_line _ _ Hkey).
Qed.

(** X5. A WiFi payload written from three values free of colons and semicolons
    reads back as those values. *)
Theorem parseWiFi_round_trip (ssid password security : string) :
  free_of ":" ssid = true → free_of ";" ssid = true →
  free_of ":" password = true → free_of ";" password = true →
  free_of ":" security = true → free_of ";" security = true →
  parseWiFi (wifi_payload ssid password security)
  = {[ "ssid" := ssid; "password" := password; "security" := security ]}.
Proof.
  intros Hs1 Hs2 Hp1 Hp2 Ht1 Ht2. unfold parseWiFi, wifi_payload.
  change (str_drop 5 ("WIFI:S:" +:+ ssid +:+ ";P:" +:+ password +:+ ";T:" +:+ security +:+ ";;"))
    with ("S:" +:+ ssid +:+ String ";" ("P:" +:+ password +:+ String ";"
            ("T:" +:+ security +:+ String ";" (String ";" "")))).
  rewrite <- (str_app_assoc "S:" ssid), split_app
    by (rewrite free_of_app; by rewrite Hs2).
  rewrite <- (str_app_assoc "P:" password), split_app
    by (rewrite free_of_app; by rewrite Hp2).
  rewrite <- (str_app_assoc "T:" security), split_app
    by (rewrite free_of_app; by rewrite Ht2).
  change (split ";" (String ";" "")) with ["" ; ""].
  cbn [foldl].
  change ("S:" +:+ ssid) with ("S" +:+ String ":" ssid).
  change ("P:" +:+ password) with ("P" +:+ String ":" password).
  change ("T:" +:+ security) with ("T" +:+ String ":" security).
  rewrite !parseWiFi_part_segment by done.
  rewrite !before_sep_id by done. cbn.
  apply map_eq. intros k.
  rewrite !lookup_insert. repeat case_decide; simplify_eq; try done;
    by rewrite lookup_empty, lookup_singleton_ne.
Qed.

(** X6. [parseWiFi] sets none but its three fields, whatever the payload holds,
    and no value it stores holds a colon: a value is cut at its first colon. *)
Theorem parseWiFi_fields (wifiData : string) :
  dom (parseWiFi wifiData) ⊆ wifi_fields
  ∧ ∀ field value, parseWiFi wifiData !! field = Some value →
                   free_of ":" value = true.
Proof.
  destruct (foldl_fields_ok wifi_fields parseWiFi_part
              (split ";" (str_drop 5 wifiData)) ∅ parseWiFi_part_ok
              (fields_ok_empty _)) as [Hdom Hall].
  split; [done|]. intros field value Hlook. by apply (Hall field value).
Qed.

(** X7. An SMS payload with a number and a body gives both, the body cut at its
    first colon; without a body the payload is kept raw. *)
Theorem parseSMS_segments (number body : string) :
  free_of ":" number = true →
  parseSMS ("sms:" +:+ number +:+ String ":" body)
  = {[ "phone" := number; "message" := before_sep ":" body ]}
  ∧ parseSMS ("sms:" +:+ number) = {[ "raw" := "sms:" +:+ number ]}.
Proof.
  intros Hn. unfold parseSMS. split.
  - change ("sms:" +:+ number +:+ String ":" body)
      with ("sms" +:+ String ":" (number +:+ String ":" body)).
    rewrite includes_sep_app, split_app by done. rewrite split_app by done.
    pose proof (split_head ":" body) as Hhead.
    destruct (split ":" body) as [|b bs]; [done|]. simpl in Hhead. by simplify_eq.
  - change ("sms:" +:+ number) with ("sms" +:+ String ":" number).
    rewrite includes_sep_app, split_app by done. by rewrite (split_free _ _ Hn).
Qed.

Lemma parseSMS_segments_witness :
  free_of ":" "+15551234" = true
  ∧ parseSMS ("sms:" +:+ "+15551234" +:+ String ":" "see you at 5:30")
    = {[ "phone" := "+15551234"; "message" := before_sep ":" "see you at 5:30" ]}
  ∧ parseSMS ("sms:" +:+ "+15551234") = {[ "raw" := "sms:" +:+ "+15551234" ]}.
Proof.
  split; [reflexivity|]. apply (parseSMS_segments "+15551234" "see you at 5:30").
  reflexivity.
Defined.

(** *** The prefix rules *)

Lemma startsWith_cons c p s :
  startsWith (String c p) s = true → ∃ s', s = String c s' ∧ startsWith p s' = true.
Proof.
  destruct s as [|c' s']; [done|].
  change (startsWith (String c p) (String c' s'))
    with (Ascii.eqb c c' && startsWith p s').
  intros [Hc Hp]%andb_prop. apply Ascii.eqb_eq in Hc as <-. eauto.
Qed.

(** X8. A payload with the WiFi or the SMS prefix that the e-mail rule lets
    through is classified by its prefix and read by the parser of that kind. *)
Theorem parseQRContent_prefix_rules (qrData : string) :
  email_rule qrData = false →
  (startsWith "WIFI:" qrData = true →
     content_type (parseQRContent qrData) = "wifi"
     ∧ details (parseQRContent qrData) = parseWiFi qrData)
  ∧ (startsWith "sms:" qrData = true →
     content_type (parseQRContent qrData) = "sms"
     ∧ details (parseQRContent qrData) = parseSMS qrData).
Proof.
  unfold email_rule. intros Hmail. split; intros Hhead.
  - apply startsWith_cons in Hhead as (rest & -> & Hrest).
    unfold parseQRContent, parseQRContent_try.
    rewrite Hmail, phonePattern_test.
    change (startsWith "WIFI:" (String "W" rest)) with (startsWith "IFI:" rest).
    rewrite Hrest. done.
  - apply startsWith_cons in Hhead as (rest & -> & Hrest).
    unfold parseQRContent, parseQRContent_try.
    rewrite Hmail, phonePattern_test.
    change (startsWith "sms:" (String "s" rest)) with (startsWith "ms:" rest).
    rewrite Hrest. done.
Qed.

Lemma parseQRContent_prefix_rules_witness :
  email_rule "WIFI:S:HomeNet;P:secret123;T:WPA;" = false
  ∧ (startsWith "WIFI:" "WIFI:S:HomeNet;P:secret123;T:WPA;" = true →
     content_type (parseQRContent "WIFI:S:HomeNet;P:secret123;T:WPA;") = "wifi"
     ∧ details (parseQRContent "WIFI:S:HomeNet;P:secret123;T:WPA;")
       = parseWiFi "WIFI:S:HomeNet;P:secret123;T:WPA;")
  ∧ (startsWith "sms:" "WIFI:S:HomeNet;P:secret123;T:WPA;" = true →
     content_type (parseQRContent "WIFI:S:HomeNet;P:secret123;T:WPA;") = "sms"
     ∧ details (parseQRContent "WIFI:S:HomeNet;P:secret123;T:WPA;")
       = parseSMS "WIFI:S:HomeNet;P:secret123;T:WPA;").
Proof.
  split; [reflexivity|].
  apply (parseQRContent_prefix_rules "WIFI:S:HomeNet;P:secret123;T:WPA;").
  reflexivity.
Defined.

(** X9. The first two rules shadow all the others: the kind is ['url'] exactly
    for a payload with a URL prefix, ['email'] exactly for a payload without
    one that holds an at sign and a dot; whatever else the payload looks
    like, no later rule sees it. *)
Theorem parseQRContent_precedence (qrData : string) :
  (content_type (parseQRContent qrData) = "url" ↔ url_rule qrData = true)
  ∧ (content_type (parseQRContent qrData) = "email"
     ↔ url_rule qrData = false ∧ email_rule qrData = true).
Proof.
  unfold url_rule, email_rule, parseQRContent, parseQRContent_try.
  destruct (startsWith "http://" qrData || startsWith "https://" qrData
            || startsWith "www." qrData).
  - split; split; try done. by intros [? _].
  - destruct (includes "@" qrData && includes "." qrData).
    + split; split; done.
    + split; (split; [|try done; by intros [_ ?]]);
        repeat match goal with
               | |- context [if ?b then _ else _] => destruct b
               | |- context [match ?o with Some _ => _ | None => _ end] => destruct o
               end; discriminate.
Qed.

(** *** A vCard read back *)

Lemma trimEnd_stable_tail c a : trimEnd (String c a) = String c a → trimEnd a = a.
Proof.
  simpl. destruct (trimEnd a) as [|c' t] eqn:Ht.
  - destruct (is_space c); intros ?; by simplify_eq.
  - intros ?; by simplify_eq.
Qed.

Lemma trimEnd_app a b :
  a ≠ "" → trimEnd a = a → trimEnd (a +:+ b) = a +:+ trimEnd b.
Proof.
  induction a as [|c a IH]; [done|]. intros _ Ha.
  pose proof (trimEnd_stable_tail _ _ Ha) as Ha'.
  rewrite !str_app_cons. simpl.
  destruct a as [|c' a].
  - rewrite !str_app_nil_l. simpl in Ha.
    destruct (trimEnd b); [|done]. by destruct (is_space c).
  - rewrite (IH ltac:(done) Ha'). by rewrite str_app_cons.
Qed.

Lemma free_of_trimEnd sep s : free_of sep s = true → free_of sep (trimEnd s) = true.
Proof.
  unfold free_of. induction s as [|c s IH]; simpl; [done|].
  intros [Hc Hs]%andb_prop. specialize (IH Hs).
  destruct (trimEnd s) as [|c' t].
  - destruct (is_space c); simpl; [done|]. by rewrite Hc.
  - simpl in *. by rewrite Hc, IH.
Qed.

(** A line [KEY:value] whose key is written in capitals, without white
    space in front. *)
Lemma parseVCard_line_field details key value :
  key ≠ "" → trim key = key → free_of ":" key = true → free_of ":" value = true →
  parseVCard_line details (key +:+ String ":" value)
  = let v := trimEnd value in
    let upperKey := toUpperCase key in
    if String.eqb upperKey "FN" then <["name" := v]> details
    else if String.eqb upperKey "ORG" then <["company" := v]> details
    else if String.eqb upperKey "TITLE" then <["title" := v]> details
    else if String.eqb upperKey "EMAIL" then <["email" := v]> details
    else if String.eqb upperKey "TEL" then <["phone" := v]> details
    else if String.eqb upperKey "URL" then <["website" := v]> details
    else if String.eqb upperKey "ADR" then <["address" := v]> details
    else details.
Proof.
  intros Hne Hkey Hfree Hvalue. unfold parseVCard_line.
  assert (Htrim : trim (key +:+ String ":" value) = key +:+ String ":" (trimEnd value)).
  { destruct key as [|c key]; [done|]. unfold trim in *.
    rewrite str_app_cons. simpl in *.
    destruct (is_space c) eqn:Hc.
    - exfalso. clear -Hkey Hc.
      assert (Hlen : ∀ s, String.length (trimEnd s) ≤ String.length s).
      { induction s as [|x s IH]; simpl; [done|].
        destruct (trimEnd s); [destruct (is_space x)|]; simpl in *; lia. }
      assert (Hlen' : ∀ s, String.length (trimStart s) ≤ String.length s).
      { induction s as [|x s IH]; simpl; [done|]. destruct (is_space x); simpl; lia. }
      pose proof (Hlen (trimStart key)) as H1. pose proof (Hlen' key) as H2.
      rewrite Hkey in H1. simpl in H1. lia.
    - rewrite <- str_app_cons.
      change (String ":" value) with (":" +:+ value).
      rewrite <- str_app_assoc, trimEnd_app, str_app_assoc; [done| |].
      + by destruct key.
      + rewrite trimEnd_app by done. done. }
  rewrite Htrim, includes_sep_app, (key_value_line _ _ Hfree).
  rewrite before_sep_id by by apply free_of_trimEnd. done.
Qed.

(** X10. A vCard written from three values free of colons and line feeds reads
    back as those values, less their trailing white space. *)
Theorem parseVCard_round_trip (name org email : string) :
  free_of ":" name = true → free_of newline name = true →
  free_of ":" org = true → free_of newline org = true →
  free_of ":" email = true → free_of newline email = true →
  parseVCard (vcard_payload name org email)
  = {[ "name" := trimEnd name; "company" := trimEnd org; "email" := trimEnd email ]}.
Proof.
  intros Hn1 Hn2 Ho1 Ho2 He1 He2. unfold parseVCard, vcard_payload.
  rewrite split_app by done.
  rewrite <- (str_app_assoc "FN:" name), split_app
    by (rewrite free_of_app; by rewrite Hn2).
  rewrite <- (str_app_assoc "ORG:" org), split_app
    by (rewrite free_of_app; by rewrite Ho2).
  rewrite <- (str_app_assoc "EMAIL:" email), split_app
    by (rewrite free_of_app; by rewrite He2).
  change (split newline "END:VCARD") with ["END:VCARD"].
  cbn [foldl].
  change (parseVCard_line ∅ "BEGIN:VCARD") with (∅ : gmap string string).
  change ("FN:" +:+ name) with ("FN" +:+ String ":" name).
  change ("ORG:" +:+ org) with ("ORG" +:+ String ":" org).
  change ("EMAIL:" +:+ email) with ("EMAIL" +:+ String ":" email).
  rewrite !parseVCard_line_field by done. cbv zeta.
  repeat match goal with
         | |- context [String.eqb (toUpperCase ?k) ?n] =>
             let b := eval vm_compute in (String.eqb (toUpperCase k) n) in
             change (String.eqb (toUpperCase k) n) with b
         end.
  cbv iota.
  match goal with
  | |- parseVCard_line ?d "END:VCARD" = _ =>
      change (parseVCard_line d "END:VCARD") with d
  end.
  apply map_eq. intros k.
  rewrite !lookup_insert. repeat case_decide; simplify_eq; try done;
    by rewrite lookup_empty, lookup_singleton_ne.
Qed.

(** *** The structured payloads on sample inputs *)

Lemma parseWiFi_round_trip_witness :
  parseWiFi (wifi_payload "HomeNet" "secret123" "WPA")
  = {[ "ssid" := "HomeNet"; "password" := "secret123"; "security" := "WPA" ]}.
Proof.
  apply (parseWiFi_round_trip "HomeNet" "secret123" "WPA"); reflexivity.
Defined.

Lemma parseVCard_round_trip_witness :
  parseVCard (vcard_payload "Jane Doe " "Acme" "jane@acme.com")
  = {[ "name" := trimEnd "Jane Doe "; "company" := trimEnd "Acme";
       "email" := trimEnd "jane@acme.com" ]}.
Proof.
  apply (parseVCard_round_trip "Jane Doe " "Acme" "jane@acme.com"); reflexivity.
Defined.

Lemma parseQRContent_vcard_without_email_witness :
  startsWith "BEGIN:VCARD" vcard_plain = true
  ∧ includes "@" vcard_plain && includes "." vcard_plain = false
  ∧ content_type (parseQRContent vcard_plain) = "vcard"
  ∧ details (parseQRContent vcard_plain) = parseVCard vcard_plain.
Proof.
  split; [reflexivity|]. split; [reflexivity|].
  apply (parseQRContent_vcard_without_email vcard_plain); reflexivity.
Defined.

(** ** What a detection run returns *)

Section RunFacts.

Variable luma : Z → Z → Z → Z.
Variable detectWithJSQR : ImageData → option QRCodeResult.
Variable detectWithGoQRAPI : ImageData → list QRCodeResult.

Abbreviation loop' := (preprocessed_loop detectWithJSQR detectWithGoQRAPI).

Lemma preprocessed_loop_nil i imgs :
  (loop' i imgs).1 = []
  ↔ Forall (fun img => detectWithJSQR img = None ∧ detectWithGoQRAPI img = []) imgs.
Proof.
  revert i. induction imgs as [|img rest IH]; intros i; simpl.
  - split; [by constructor | done].
  - rewrite Forall_cons.
    destruct (detectWithJSQR img) as [r|].
    + simpl. split; [done | by intros [[? _] _]].
    + destruct (detectWithGoQRAPI img) as [|g gs] eqn:Hgo.
      * specialize (IH (S i)). destruct (loop' (S i) rest) as [results events].
        simpl in *. rewrite IH. tauto.
      * simpl. split; [done | by intros [[_ ?] _]].
Qed.

Lemma preprocessed_loop_elem i imgs r :
  r ∈ (loop' i imgs).1 →
  ∃ img, img ∈ imgs ∧ (detectWithJSQR img = Some r ∨ r ∈ detectWithGoQRAPI img).
Proof.
  revert i. induction imgs as [|img rest IH]; intros i; simpl.
  - by intros ?%elem_of_nil.
  - destruct (detectWithJSQR img) as [r0|] eqn:Hjs.
    + simpl. intros ->%list_elem_of_singleton. exists img. split; [left | by left].
    + destruct (detectWithGoQRAPI img) as [|g gs] eqn:Hgo.
      * specialize (IH (S i)). destruct (loop' (S i) rest) as [results events].
        simpl in *. intros Hr. destruct (IH Hr) as (img' & Hin & Hfrom).
        exists img'. split; [by right | done].
      * simpl. intros Hr. exists img. split; [left|]. right. by rewrite Hgo.
Qed.

Lemma removeDuplicates_nil results : removeDuplicates results = [] ↔ results = [].
Proof.
  split; [|by intros ->]. destruct results as [|r rest]; [done|].
  unfold removeDuplicates. simpl.
  destruct (decide (Detection.data r ∈ (∅ : gset string))) as [Hin|_]; [|done].
  by apply not_elem_of_empty in Hin.
Qed.

Lemma removeDuplicates_elem results r : r ∈ removeDuplicates results → r ∈ results.
Proof.
  intros Hr. eapply elem_of_sublist; [done|].
  apply removeDuplicates_from_sublist.
Qed.

(** X11. A run comes back empty exactly when every decoder found nothing on every
    image it could be given: the original and its four renderings. *)
Theorem detectQRCodes_empty_iff (imageData : ImageData) :
  detectQRCodes luma detectWithJSQR detectWithGoQRAPI imageData = []
  ↔ Forall (fun img => detectWithJSQR img = None ∧ detectWithGoQRAPI img = [])
           (imageData :: preprocessImage luma imageData).
Proof.
  unfold detectQRCodes, detectQRCodes_run. rewrite Forall_cons.
  destruct (detectWithJSQR imageData) as [r|].
  - cbn [fst]. rewrite removeDuplicates_nil. split; [done | by intros [[? _] _]].
  - pose proof (preprocessed_loop_nil 0 (preprocessImage luma imageData)) as Hloop.
    destruct (loop' 0 (preprocessImage luma imageData)) as [[|r0 results] events];
      cbn [fst] in *.
    + destruct (detectWithGoQRAPI imageData) as [|g gs]; cbn [fst].
      * rewrite removeDuplicates_nil. split; [|done]. intros _.
        split; [done|]. by apply Hloop.
      * split; [done | by intros [[_ ?] _]].
    + rewrite removeDuplicates_nil. split; [done|].
      intros [_ Hall]. by apply Hloop in Hall.
Qed.

(** X12. Every entry a run returns is what a decoder answered on the original
    image or on one of its renderings. *)
Theorem detectQRCodes_from_decoders (imageData : ImageData) (r : QRCodeResult) :
  r ∈ detectQRCodes luma detectWithJSQR detectWithGoQRAPI imageData →
  ∃ img, img ∈ imageData :: preprocessImage luma imageData
         ∧ (detectWithJSQR img = Some r ∨ r ∈ detectWithGoQRAPI img).
Proof.
  unfold detectQRCodes, detectQRCodes_run.
  destruct (detectWithJSQR imageData) as [r0|] eqn:Hjs.
  - cbn [fst]. intros Hr%removeDuplicates_elem.
    apply list_elem_of_singleton in Hr as ->.
    exists imageData. split; [left | by left].
  - pose proof (preprocessed_loop_elem 0 (preprocessImage luma imageData) r) as Hloop.
    destruct (loop' 0 (preprocessImage luma imageData)) as [[|r0 results] events];
      cbn [fst] in *.
    + destruct (detectWithGoQRAPI imageData) as [|g gs] eqn:Hgo; cbn [fst].
      * by intros ?%elem_of_nil.
      * intros Hr. exists imageData. split; [left|]. right. by rewrite Hgo.
    + intros Hr%removeDuplicates_elem. unfold detectWithZXing in Hr.
      rewrite app_nil_r in Hr. destruct (Hloop Hr) as (img & Hin & Hfrom).
      exists img. split; [by right | done].
Qed.

(** X13. When the local decoder reads the original image, the run returns that
    one entry and calls nothing else. *)
Theorem detectQRCodes_local_hit (imageData : ImageData) (r : QRCodeResult) :
  detectWithJSQR imageData = Some r →
  detectQRCodes luma detectWithJSQR detectWithGoQRAPI imageData = [r]
  ∧ detectQRCodes_trace luma detectWithJSQR detectWithGoQRAPI imageData
    = [Local Raw imageData].
Proof.
  intros Hjs. unfold detectQRCodes, detectQRCodes_trace, detectQRCodes_run.
  rewrite Hjs. cbn [fst snd]. split; [|done].
  unfold removeDuplicates. simpl.
  destruct (decide (Detection.data r ∈ (∅ : gset string))) as [Hin|_]; [|done].
  by apply not_elem_of_empty in Hin.
Qed.

Lemma schedule_length i imgs : length (schedule i imgs) = 2 * length imgs.
Proof. revert i. induction imgs as [|img rest IH]; intros i; simpl; [done|]. rewrite IH. lia. Qed.

Lemma schedule_remotes n i imgs :
  length (filter (fun e => is_remote e = true) (take n (schedule i imgs))) ≤ length imgs.
Proof.
  revert n i. induction imgs as [|img rest IH]; intros n i; simpl.
  - by rewrite take_nil.
  - destruct n as [|[|n]]; cbn [schedule take].
    + simpl. lia.
    + rewrite filter_cons_False by (simpl; done). simpl. lia.
    + rewrite filter_cons_False by (simpl; done).
      rewrite filter_cons_True by done. cbn [length]. specialize (IH n (S i)). lia.
Qed.

(** X14. A run makes at most ten decoder calls, at most five of them remote. *)
Theorem detectQRCodes_call_budget (imageData : ImageData) :
  length (detectQRCodes_trace luma detectWithJSQR detectWithGoQRAPI imageData) ≤ 10
  ∧ length (filter (fun e => is_remote e = true)
              (detectQRCodes_trace luma detectWithJSQR detectWithGoQRAPI imageData)) ≤ 5.
Proof.
  rewrite detectQRCodes_trace_eq.
  destruct (detectWithJSQR imageData) as [r|]; [simpl; lia|].
  destruct (preprocessed_loop_trace detectWithJSQR detectWithGoQRAPI 0
              (preprocessImage luma imageData)) as (n & Htake & _ & _).
  rewrite Htake.
  pose proof (schedule_remotes n 0 (preprocessImage luma imageData)) as Hrem.
  change (length (preprocessImage luma imageData)) with 4 in Hrem.
  assert (Hlen : length (take n (schedule 0 (preprocessImage luma imageData))) ≤ 8).
  { rewrite length_take, schedule_length.
    change (length (preprocessImage luma imageData)) with 4. lia. }
  destruct (loop' 0 (preprocessImage luma imageData)).1.
  - split.
    + cbn [length]. rewrite length_app. cbn [length]. lia.
    + rewrite filter_cons_False by (simpl; done).
      rewrite filter_app, length_app.
      rewrite filter_cons_True by done. cbn [filter list_filter length]. lia.
  - rewrite app_nil_r. split.
    + cbn [length]. lia.
    + rewrite filter_cons_False by (simpl; done). lia.
Qed.

End RunFacts.

(** *** A run on a sample image *)

Lemma detectQRCodes_from_decoders_witness :
  dup_result ∈ detectQRCodes luma_double local_once no_remote dup_image
  ∧ ∃ img, img ∈ dup_image :: preprocessImage luma_double dup_image
           ∧ (local_once img = Some dup_result ∨ dup_result ∈ no_remote img).
Proof.
  assert (Hin : dup_result ∈ detectQRCodes luma_double local_once no_remote dup_image).
  { vm_compute. left. }
  split; [exact Hin|].
  apply (detectQRCodes_from_decoders luma_double local_once no_remote dup_image
           dup_result Hin).
Defined.

Lemma detectQRCodes_local_hit_witness :
  local_once dup_image = Some dup_result
  ∧ detectQRCodes luma_double local_once no_remote dup_image = [dup_result]
  ∧ detectQRCodes_trace luma_double local_once no_remote dup_image
    = [Local Raw dup_image].
Proof.
  split; [reflexivity|].
  apply (detectQRCodes_local_hit luma_double local_once no_remote dup_image dup_result).
  reflexivity.
Defined.

(** ** The renderings *)

Lemma store_halves_byte n : is_byte (store_halves n).
Proof.
  unfold store_halves, is_byte.
  destruct (n <=? 0)%Z eqn:H0; [lia|]. destruct (510 <=? n)%Z eqn:H1; [lia|].
  apply Z.leb_gt in H0, H1.
  assert (0 <= n / 2 < 255)%Z by (split; [apply Z.div_pos; lia | apply Z.div_lt_upper_bound; lia]).
  destruct (Z.even n); [lia|]. destruct (Z.even (n / 2)); lia.
Qed.

Lemma contrast_byte v : is_byte (contrast v).
Proof. destruct v; [apply store_halves_byte | unfold is_byte; simpl; lia]. Qed.

Lemma store_int_is_byte v : is_byte (store_int v).
Proof. destruct v; unfold is_byte, store_int, clamp255; lia. Qed.

Lemma binarize_byte g t : is_byte (binarize g t).
Proof.
  unfold is_byte, binarize. destruct g, t; try lia. destruct (_ <? _)%Z; lia.
Qed.

(** A loop that writes bytes gives a well-formed image. *)
Lemma write_pixel_wf a img :
  wf_image img → (∀ k i, is_byte (a k i)) →
  wf_image
    {| width := width img; height := height img;
       Image.data := foldl (write_pixel a)
                       (Image.data (new_ImageData (width img) (height img)))
                       (offsets (length (Image.data img))) |}.
Proof.
  intros Hwf Ha. pose proof Hwf as [Hw Hh Hlen _].
  split; cbn [Image.data width height]; [done | done | |].
  - rewrite transform_length by done. done.
  - apply Forall_lookup. intros i x Hx.
    assert (Hi : i < 4 * width img * height img).
    { apply lookup_lt_Some in Hx. rewrite transform_length in Hx by done. lia. }
    assert (Hsplit : i = 4 * (i / 4) + i mod 4) by (apply Nat.div_mod_eq).
    rewrite Hsplit, (transform_lookup a img (i / 4) (i mod 4)) in Hx.
    + by simplify_eq.
    + done.
    + apply Nat.Div0.div_lt_upper_bound. lia.
    + apply Nat.mod_upper_bound. lia.
Qed.

Lemma increaseContrast_wf img : wf_image img → wf_image (increaseContrast img).
Proof.
  intros Hwf. rewrite increaseContrast_eq. apply write_pixel_wf; [done|].
  intros [|[|[|k]]] i; simpl; auto using contrast_byte, store_int_is_byte.
Qed.

Lemma convertToGrayscale_wf luma img : wf_image img → wf_image (convertToGrayscale luma img).
Proof.
  intros Hwf. rewrite convertToGrayscale_eq. apply write_pixel_wf; [done|].
  intros [|[|[|k]]] i; simpl; auto using store_int_is_byte.
Qed.

Lemma applyThreshold_wf luma img : wf_image img → wf_image (applyThreshold luma img).
Proof.
  intros Hwf. rewrite applyThreshold_eq. apply write_pixel_wf; [done|].
  intros [|[|[|k]]] i; simpl; auto using binarize_byte, store_int_is_byte.
Qed.

(** *** Halving *)

(** The pixels of a frame of width [nw], row by row, are its cells counted. *)
Lemma row_cells nh nw l :
  Forall (fun x => x < nw) l →
  l ≫= (fun x => [(nh, x)])
  = (fun j => (j / nw, j mod nw)) <$> (Nat.add (nh * nw) <$> l).
Proof.
  induction 1 as [|x l Hx _ IH]; [done|].
  rewrite bind_cons, !fmap_cons, IH. cbn [app]. f_equal. f_equal.
  - rewrite (Nat.add_comm (nh * nw) x), Nat.div_add by lia.
    rewrite Nat.div_small by done. lia.
  - rewrite (Nat.add_comm (nh * nw) x), Nat.Div0.mod_add. by rewrite Nat.mod_small.
Qed.

Lemma row_major nh nw :
  0 < nw →
  (y ← seq 0 nh; x ← seq 0 nw; [(y, x)])
  = (fun j => (j / nw, j mod nw)) <$> seq 0 (nh * nw).
Proof.
  intros Hnw. induction nh as [|nh IH]; [done|].
  rewrite seq_S, bind_app, IH, bind_singleton.
  replace (S nh * nw) with (nh * nw + nw) by lia.
  rewrite seq_app, fmap_app. f_equal.
  change (0 + nh) with nh. change (0 + nh * nw) with (nh * nw).
  replace (seq (nh * nw) nw) with (seq (nh * nw + 0) nw) by (f_equal; lia).
  rewrite <- (fmap_add_seq (nh * nw) 0 nw). apply row_cells.
  apply Forall_forall. intros x Hx%elem_of_seq. lia.
Qed.

Lemma foldl_ext_in {A B} (f g : A → B → A) l a :
  (∀ a x, x ∈ l → f a x = g a x) → foldl f a l = foldl g a l.
Proof.
  revert a. induction l as [|x l IH]; intros a Hfg; simpl; [done|].
  rewrite Hfg by left. apply IH. intros a' x' Hx'. apply Hfg. by right.
Qed.

Lemma resizeImage_body_eq imageData nw data' j :
  0 < nw →
  resizeImage_body imageData nw data' (j / nw, j mod nw)
  = write_pixel (resize_bytes imageData nw) data' (4 * j).
Proof.
  intros Hnw. unfold resizeImage_body, write_pixel, resize_bytes.
  replace ((j / nw * nw + j mod nw) * 4) with (4 * j).
  - replace (4 * j / 4) with j by (rewrite Nat.mul_comm, Nat.div_mul; lia). done.
  - rewrite (Nat.div_mod_eq j nw) at 1. lia.
Qed.

Lemma resizeImage_eq img :
  wf_image img →
  resizeImage img
  = {| width := scale_half (width img); height := scale_half (height img);
       Image.data :=
         foldl (write_pixel (resize_bytes img (scale_half (width img))))
               (replicate (4 * scale_half (width img) * scale_half (height img)) 0%Z)
               ((fun j => 4 * j) <$> seq 0 (scale_half (height img) * scale_half (width img))) |}.
Proof.
  intros [Hw Hh _ _]. unfold resizeImage. f_equal.
  assert (Hnw : 0 < scale_half (width img)).
  { unfold scale_half. apply Nat.div_str_pos. lia. }
  rewrite row_major by done. rewrite !foldl_fmap.
  apply foldl_ext_in. intros a j _. by apply resizeImage_body_eq.
Qed.

Lemma scale_half_pos n : 1 ≤ n → 1 ≤ scale_half n.
Proof. intros Hn. unfold scale_half. apply Nat.div_str_pos. lia. Qed.

Lemma unscale_half_lt x n : x < scale_half n → unscale_half x < n.
Proof.
  unfold scale_half, unscale_half. intros Hx.
  pose proof (Nat.div_mod_eq (n + 1) 2) as Hdiv.
  pose proof (Nat.mod_upper_bound (n + 1) 2). lia.
Qed.

Lemma resizeImage_wf img : wf_image img → wf_image (resizeImage img).
Proof.
  intros Hwf. rewrite resizeImage_eq by done. pose proof Hwf as [Hw Hh Hlen _].
  pose proof (scale_half_pos _ Hw) as Hnw. pose proof (scale_half_pos _ Hh) as Hnh.
  split; cbn [Image.data width height]; [done | done | |].
  - by rewrite write_pixels_length, length_replicate.
  - apply Forall_lookup. intros i x Hx.
    assert (Hi : i < 4 * scale_half (width img) * scale_half (height img)).
    { apply lookup_lt_Some in Hx.
      by rewrite write_pixels_length, length_replicate in Hx. }
    assert (Hsplit : i = 4 * (i / 4) + i mod 4) by (apply Nat.div_mod_eq).
    rewrite Hsplit, write_pixels_lookup in Hx.
    + simplify_eq. destruct (i mod 4) as [|[|[|k]]]; apply store_int_is_byte.
    + apply Nat.Div0.div_lt_upper_bound. lia.
    + apply Nat.mod_upper_bound. lia.
    + rewrite length_replicate. lia.
Qed.

(** X15. Every rendering of a well-formed image is a well-formed image: the
    three full-size ones have the dimensions of the original, the fourth has
    both halved and rounded up. *)
Theorem preprocessImage_wf (luma : Z → Z → Z → Z) (img : ImageData) :
  wf_image img →
  Forall wf_image (preprocessImage luma img)
  ∧ (width <$> preprocessImage luma img)
    = [width img; width img; width img; scale_half (width img)]
  ∧ (height <$> preprocessImage luma img)
    = [height img; height img; height img; scale_half (height img)].
Proof.
  intros Hwf. split; [|done].
  unfold preprocessImage. repeat apply Forall_cons_2; [| | | |done].
  - by apply increaseContrast_wf.
  - by apply increaseContrast_wf, convertToGrayscale_wf.
  - by apply applyThreshold_wf.
  - by apply resizeImage_wf.
Qed.

Lemma preprocessImage_wf_witness :
  wf_image dup_image
  ∧ Forall wf_image (preprocessImage luma_double dup_image)
  ∧ (width <$> preprocessImage luma_double dup_image)
    = [width dup_image; width dup_image; width dup_image;
       scale_half (width dup_image)]
  ∧ (height <$> preprocessImage luma_double dup_image)
    = [height dup_image; height dup_image; height dup_image;
       scale_half (height dup_image)].
Proof.
  assert (Hwf : wf_image dup_image).
  { split; simpl; [lia | lia | reflexivity |].
    repeat constructor; unfold is_byte; lia. }
  split; [exact Hwf | apply (preprocessImage_wf luma_double dup_image Hwf)].
Defined.

(** X16. Halving samples: byte [k] of the pixel in column [x] and row [y] of
    the halved image is byte [k] of the pixel in column [2 * x] and row
    [2 * y] of the original, which always exists. *)
Theorem resizeImage_samples (img : ImageData) (x y k : nat) :
  wf_image img →
  x < scale_half (width img) → y < scale_half (height img) → k < 4 →
  is_Some (Image.data img !! (4 * (2 * y * width img + 2 * x) + k))
  ∧ Image.data (resizeImage img) !! (4 * (y * scale_half (width img) + x) + k)
    = Image.data img !! (4 * (2 * y * width img + 2 * x) + k).
Proof.
  intros Hwf Hx Hy Hk. pose proof Hwf as [Hw Hh Hlen Hbytes].
  pose proof (unscale_half_lt _ _ Hx) as Hsx.
  pose proof (unscale_half_lt _ _ Hy) as Hsy.
  unfold unscale_half in Hsx, Hsy.
  assert (Hsrc : 4 * (2 * y * width img + 2 * x) + k < length (Image.data img)).
  { rewrite Hlen. nia. }
  split; [by apply lookup_lt_is_Some_2|].
  rewrite resizeImage_eq by done. cbn [Image.data].
  rewrite write_pixels_lookup; [| nia | done | rewrite length_replicate; lia].
  unfold resize_bytes.
  replace (4 * (y * scale_half (width img) + x) / 4)
    with (y * scale_half (width img) + x)
    by (rewrite (Nat.mul_comm 4), Nat.div_mul; lia).
  rewrite Nat.div_add_l, Nat.div_small, Nat.add_0_r by lia.
  rewrite (Nat.add_comm (y * scale_half (width img)) x), Nat.Div0.mod_add,
    Nat.mod_small by lia.
  unfold unscale_half.
  replace ((2 * y * width img + 2 * x) * 4) with (4 * (2 * y * width img + 2 * x)) by lia.
  destruct k as [|[|[|[|k]]]]; [| | | |lia];
    rewrite ?Nat.add_0_r in *; by rewrite store_int_byte.
Qed.

Lemma resizeImage_samples_witness :
  wf_image dup_image
  ∧ 0 < scale_half (width dup_image) ∧ 0 < scale_half (height dup_image) ∧ 1 < 4
  ∧ is_Some (Image.data dup_image !! (4 * (2 * 0 * width dup_image + 2 * 0) + 1))
  ∧ Image.data (resizeImage dup_image)
      !! (4 * (0 * scale_half (width dup_image) + 0) + 1)
    = Image.data dup_image !! (4 * (2 * 0 * width dup_image + 2 * 0) + 1).
Proof.
  assert (Hwf : wf_image dup_image).
  { split; simpl; [lia | lia | reflexivity |].
    repeat constructor; unfold is_byte; lia. }
  assert (H1 : 0 < scale_half (width dup_image)) by (vm_compute; lia).
  assert (H2 : 0 < scale_half (height dup_image)) by (vm_compute; lia).
  assert (H3 : 1 < 4) by lia.
  split; [exact Hwf|]. split; [exact H1|]. split; [exact H2|]. split; [exact H3|].
  apply (resizeImage_samples dup_image 0 0 1 Hwf H1 H2 H3).
Defined.

(** *** The threshold *)

(** The two sums of the second loop of [applyThreshold], over a histogram
    whose entries are counts and are zero below index [m]. *)
Lemma histogram_sums (m : Z) (l : list Z) :
  ∀ (f : nat → Z → nat * Z) (n : nat) (a b : Z),
    (∀ i x, f i x = (n + i, x)) →
    (∀ i x, l !! i = Some x → (0 ≤ x)%Z ∧ ((0 < x)%Z → (m ≤ Z.of_nat (n + i))%Z)) →
    (m * b ≤ a)%Z →
    (m * foldl Z.add b l
       ≤ foldl (fun sum ih => sum + Z.of_nat ih.1 * ih.2) a (imap f l))%Z
    ∧ (b ≤ foldl Z.add b l)%Z.
Proof.
  induction l as [|x l IH]; intros f n a b Hf Hl Hab; simpl; [lia|].
  destruct (Hl 0 x eq_refl) as [Hx Hm]. rewrite Hf. cbn [fst snd].
  destruct (IH (f ∘ S) (S n) (a + Z.of_nat (n + 0) * x)%Z (b + x)%Z) as [H1 H2].
  - intros i y. unfold compose. rewrite Hf. f_equal. lia.
  - intros i y Hi. destruct (Hl (S i) y Hi) as [Hy Hmy]. split; [done|].
    intros Hpos. specialize (Hmy Hpos). lia.
  - destruct (decide (x = 0%Z)) as [->|Hne]; [lia|].
    assert (m ≤ Z.of_nat (n + 0))%Z by (apply Hm; lia). nia.
  - split; [done | lia].
Qed.

(** Every entry of the histogram is a count, and a positive one stands for a
    pixel the first loop has seen. *)
Lemma histogram_seen luma (original : list Z) (n : nat) (ks : list nat) i x :
  foldl (histogram_body luma original) (replicate n 0%Z) ks !! i = Some x →
  (0 ≤ x)%Z
  ∧ ((0 < x)%Z →
     ∃ k g, k ∈ ks ∧ gray_at luma original k = Some g ∧ (0 ≤ g)%Z ∧ Z.to_nat g = i).
Proof.
  revert i x. induction ks as [|k ks IH] using rev_ind; intros i x.
  - cbn [foldl]. intros [-> _]%lookup_replicate. split; [done | lia].
  - rewrite foldl_app. cbn [foldl]. unfold histogram_body at 1.
    assert (Hold : ∀ y,
      foldl (histogram_body luma original) (replicate n 0%Z) ks !! i = Some y →
      (0 ≤ y)%Z
      ∧ ((0 < y)%Z →
         ∃ k' g, k' ∈ ks ++ [k] ∧ gray_at luma original k' = Some g
                 ∧ (0 ≤ g)%Z ∧ Z.to_nat g = i)).
    { intros y Hy. destruct (IH _ _ Hy) as [H0 Hpos]. split; [done|].
      intros Hlt. destruct (Hpos Hlt) as (k' & g & Hk' & Hrest).
      exists k', g. split; [|done]. apply elem_of_app. by left. }
    destruct (gray_at luma original k) as [g|] eqn:Hg; [|apply Hold].
    destruct (0 <=? g)%Z eqn:Hnonneg; [|apply Hold].
    apply Z.leb_le in Hnonneg.
    destruct (decide (i = Z.to_nat g)) as [->|Hne].
    + rewrite list_lookup_alter. intros Hx.
      rewrite decide_True in Hx by done.
      destruct (foldl _ _ ks !! Z.to_nat g) as [y|] eqn:Hy; [|done].
      simpl in Hx. simplify_eq. destruct (IH _ _ Hy) as [H0 _].
      split; [lia|]. intros _. exists k, g. repeat split; try done.
      apply elem_of_app. right. by apply list_elem_of_singleton.
    + rewrite list_lookup_alter, decide_False by done. apply Hold.
Qed.

(** The threshold, when it is a number, is not below the least grey value. *)
Lemma threshold_of_lower luma (original : list Z) (m t : Z) :
  (∀ k g, k ∈ offsets (length original) →
          gray_at luma original k = Some g → (m ≤ g)%Z) →
  threshold_of luma original = Some t → (m ≤ t)%Z.
Proof.
  intros Hmin. unfold threshold_of, round_div.
  destruct (histogram_sums m (histogram_of luma original) pair 0 0%Z 0%Z)
    as [Hsum Htotal]; [done | | lia |].
  { intros i x Hx. destruct (histogram_seen _ _ _ _ _ _ Hx) as [H0 Hpos].
    split; [done|]. intros Hlt. destruct (Hpos Hlt) as (k & g & Hk & Hg & Hg0 & <-).
    specialize (Hmin _ _ Hk Hg). lia. }
  fold (weighted_sum (histogram_of luma original)) in Hsum.
  fold (total_count (histogram_of luma original)) in Hsum, Htotal.
  destruct (_ =? 0)%Z eqn:Hz; [done|]. apply Z.eqb_neq in Hz.
  intros [= <-]. apply Z.div_le_lower_bound; nia.
Qed.

Lemma gray_at_wf luma img q :
  wf_image img → q < width img * height img →
  ∃ r g b, Image.data img !! (4 * q) = Some r
           ∧ Image.data img !! (4 * q + 1) = Some g
           ∧ Image.data img !! (4 * q + 2) = Some b
           ∧ gray_at luma (Image.data img) (4 * q) = Some (luma r g b).
Proof.
  intros [_ _ Hlen _] Hq. unfold gray_at.
  destruct (lookup_lt_is_Some_2 (Image.data img) (4 * q)) as [r Hr]; [lia|].
  destruct (lookup_lt_is_Some_2 (Image.data img) (4 * q + 1)) as [g Hg]; [lia|].
  destruct (lookup_lt_is_Some_2 (Image.data img) (4 * q + 2)) as [b Hb]; [lia|].
  exists r, g, b. by rewrite Hr, Hg, Hb.
Qed.

(** X17. Thresholding paints a pixel black or white, with the same byte for
    red, green and blue; and a pixel whose grey value no pixel undercuts is
    painted black, so that a frame of one colour comes out black throughout. *)
Theorem applyThreshold_darkest_black (luma : Z → Z → Z → Z) (img : ImageData) (p : nat) :
  wf_image img → p < width img * height img →
  ∃ r g b v,
    Image.data img !! (4 * p) = Some r
    ∧ Image.data img !! (4 * p + 1) = Some g
    ∧ Image.data img !! (4 * p + 2) = Some b
    ∧ Image.data (applyThreshold luma img) !! (4 * p) = Some v
    ∧ Image.data (applyThreshold luma img) !! (4 * p + 1) = Some v
    ∧ Image.data (applyThreshold luma img) !! (4 * p + 2) = Some v
    ∧ (v = 0%Z ∨ v = 255%Z)
    ∧ ((∀ q r' g' b', q < width img * height img →
          Image.data img !! (4 * q) = Some r' →
          Image.data img !! (4 * q + 1) = Some g' →
          Image.data img !! (4 * q + 2) = Some b' →
          (luma r g b ≤ luma r' g' b')%Z) →
       v = 0%Z).
Proof.
  intros Hwf Hp.
  destruct (gray_at_wf luma img p Hwf Hp) as (r & g & b & Hr & Hg & Hb & Hgray).
  exists r, g, b,
    (binarize (Some (luma r g b)) (threshold_of luma (Image.data img))).
  rewrite applyThreshold_eq. cbn [Image.data].
  rewrite <- (Nat.add_0_r (4 * p)) at 4.
  rewrite !transform_lookup by (done || lia).
  unfold threshold_bytes. rewrite Hgray.
  repeat split; try done.
  - unfold binarize. destruct (threshold_of _ _); [|by left].
    destruct (_ <? _)%Z; [by right | by left].
  - intros Hmin. unfold binarize.
    destruct (threshold_of luma (Image.data img)) as [t|] eqn:Ht; [|done].
    assert (luma r g b ≤ t)%Z as Hle.
    { apply (threshold_of_lower luma (Image.data img)); [|done].
      intros k g0 Hk Hg0. pose proof Hwf as [_ _ Hlen _].
      rewrite Hlen, offsets_wf in Hk.
      apply list_elem_of_fmap in Hk as (q & -> & Hq%elem_of_seq).
      destruct (gray_at_wf luma img q Hwf) as (r' & g' & b' & Hr' & Hg' & Hb' & Hgray');
        [lia|].
      rewrite Hgray' in Hg0. simplify_eq. apply (Hmin q); [lia | done..]. }
    destruct (t <? luma r g b)%Z eqn:Hlt; [|done]. apply Z.ltb_lt in Hlt. lia.
Qed.

Lemma applyThreshold_darkest_black_witness :
  wf_image dup_image ∧ 0 < width dup_image * height dup_image
  ∧ ∃ r g b v,
    Image.data dup_image !! (4 * 0) = Some r
    ∧ Image.data dup_image !! (4 * 0 + 1) = Some g
    ∧ Image.data dup_image !! (4 * 0 + 2) = Some b
    ∧ Image.data (applyThreshold luma_double dup_image) !! (4 * 0) = Some v
    ∧ Image.data (applyThreshold luma_double dup_image) !! (4 * 0 + 1) = Some v
    ∧ Image.data (applyThreshold luma_double dup_image) !! (4 * 0 + 2) = Some v
    ∧ (v = 0%Z ∨ v = 255%Z)
    ∧ ((∀ q r' g' b', q < width dup_image * height dup_image →
          Image.data dup_image !! (4 * q) = Some r' →
          Image.data dup_image !! (4 * q + 1) = Some g' →
          Image.data dup_image !! (4 * q + 2) = Some b' →
          (luma_double r g b ≤ luma_double r' g' b')%Z) →
       v = 0%Z).
Proof.
  assert (Hwf : wf_image dup_image).
  { split; simpl; [lia | lia | reflexivity |].
    repeat constructor; unfold is_byte; lia. }
  assert (Hp : 0 < width dup_image * height dup_image) by (vm_compute; lia).
  split; [exact Hwf|]. split; [exact Hp|].
  apply (applyThreshold_darkest_black luma_double dup_image 0 Hwf Hp).
Defined.

(** *** Contrast and grey *)

Lemma contrast_order_bytes : forallb contrast_order_check (seqZ 0 256) = true.
Proof. vm_compute. reflexivity. Qed.

(** The contrast byte is monotone on bytes, and moves a byte away from
    mid-grey or leaves it. *)
Lemma contrast_monotone (u v : Z) :
  is_byte u → is_byte v → (u ≤ v)%Z →
  (contrast (Some u) ≤ contrast (Some v))%Z
  ∧ ((128 ≤ u)%Z → (u ≤ contrast (Some u))%Z)
  ∧ ((u ≤ 128)%Z → (contrast (Some u) ≤ u)%Z).
Proof.
  intros Hu Hv Huv. unfold is_byte in Hu, Hv.
  assert (Hinu : u ∈ seqZ 0 256) by (apply elem_of_seqZ; lia).
  assert (Hinv : v ∈ seqZ 0 256) by (apply elem_of_seqZ; lia).
  pose proof contrast_order_bytes as Hall.
  rewrite forallb_forall in Hall.
  specialize (Hall u (proj1 (list_elem_of_In _ _) Hinu)).
  unfold contrast_order_check in Hall.
  apply andb_prop in Hall as [Hall Hdown].
  apply andb_prop in Hall as [Hmono Hup].
  rewrite forallb_forall in Hmono.
  specialize (Hmono v (proj1 (list_elem_of_In _ _) Hinv)).
  destruct (u <=? v)%Z eqn:E1; [|lia]. cbn [implb] in Hmono.
  apply Z.leb_le in Hmono. split; [done|]. split; intros Hside.
  - destruct (128 <=? u)%Z eqn:E2; [|lia]. by apply Z.leb_le in Hup.
  - destruct (u <=? 128)%Z eqn:E3; [|lia]. by apply Z.leb_le in Hdown.
Qed.

(** X18. The contrast transform keeps the order of brightness: of two colour
    bytes anywhere in a well-formed image, the one that was not brighter is
    not brighter afterwards; and each colour byte moves away from mid-grey
    (128) or stays. *)
Theorem increaseContrast_monotone (img : ImageData) (p q k l : nat) (u v : Z) :
  wf_image img →
  p < width img * height img → q < width img * height img → k < 3 → l < 3 →
  Image.data img !! (4 * p + k) = Some u →
  Image.data img !! (4 * q + l) = Some v →
  (u ≤ v)%Z →
  ∃ u' v',
    Image.data (increaseContrast img) !! (4 * p + k) = Some u'
    ∧ Image.data (increaseContrast img) !! (4 * q + l) = Some v'
    ∧ (u' ≤ v')%Z
    ∧ ((128 ≤ u)%Z → (u ≤ u')%Z)
    ∧ ((u ≤ 128)%Z → (u' ≤ u)%Z).
Proof.
  intros Hwf Hp Hq Hk Hl Hu Hv Huv.
  assert (Hbu : is_byte u).
  { destruct Hwf as [_ _ _ Hb]. rewrite Forall_lookup in Hb. by apply (Hb _ _ Hu). }
  assert (Hbv : is_byte v).
  { destruct Hwf as [_ _ _ Hb]. rewrite Forall_lookup in Hb. by apply (Hb _ _ Hv). }
  exists (contrast (Some u)), (contrast (Some v)).
  rewrite increaseContrast_eq. cbn [Image.data].
  rewrite !transform_lookup by (done || lia).
  split; [|split; [|by apply contrast_monotone]].
  - destruct k as [|[|[|k]]]; [| | |lia]; unfold contrast_bytes;
      [rewrite Nat.add_0_r in Hu| |]; by rewrite Hu.
  - destruct l as [|[|[|l]]]; [| | |lia]; unfold contrast_bytes;
      [rewrite Nat.add_0_r in Hv| |]; by rewrite Hv.
Qed.

Lemma increaseContrast_monotone_witness :
  wf_image dup_image
  ∧ ∃ u' v',
    Image.data (increaseContrast dup_image) !! (4 * 0 + 1) = Some u'
    ∧ Image.data (increaseContrast dup_image) !! (4 * 1 + 0) = Some v'
    ∧ (u' ≤ v')%Z
    ∧ ((128 ≤ 50)%Z → (50 ≤ u')%Z)
    ∧ ((50 ≤ 128)%Z → (u' ≤ 50)%Z).
Proof.
  assert (Hwf : wf_image dup_image).
  { split; simpl; [lia | lia | reflexivity |].
    repeat constructor; unfold is_byte; lia. }
  split; [exact Hwf|].
  apply (increaseContrast_monotone dup_image 0 1 1 0 50%Z 200%Z Hwf);
    [vm_compute; lia | vm_compute; lia | lia | lia
    | reflexivity | reflexivity | lia].
Defined.

(** X19. The second rendering, contrast after grey, is grey: in every pixel
    the three colour bytes are one value, the contrast byte of the clamped
    luminance of the original pixel, and the alpha byte is the original one. *)
Theorem grey_contrast_rendering (luma : Z → Z → Z → Z) (img : ImageData) (p : nat) :
  wf_image img → p < width img * height img →
  ∃ r g b a,
    Image.data img !! (4 * p) = Some r
    ∧ Image.data img !! (4 * p + 1) = Some g
    ∧ Image.data img !! (4 * p + 2) = Some b
    ∧ Image.data img !! (4 * p + 3) = Some a
    ∧ let out := Image.data (increaseContrast (convertToGrayscale luma img)) in
      let v := contrast (Some (clamp255 (luma r g b))) in
      out !! (4 * p) = Some v ∧ out !! (4 * p + 1) = Some v
      ∧ out !! (4 * p + 2) = Some v ∧ out !! (4 * p + 3) = Some a.
Proof.
  intros Hwf Hp.
  destruct (gray_at_wf luma img p Hwf Hp) as (r & g & b & Hr & Hg & Hb & Hgray).
  pose proof Hwf as [_ _ Hlen Hbytes].
  destruct (lookup_lt_is_Some_2 (Image.data img) (4 * p + 3)) as [a Ha]; [lia|].
  exists r, g, b, a. do 4 (split; [done|]). cbn zeta.
  pose proof (convertToGrayscale_wf luma img Hwf) as Hwf'.
  assert (Hgrey : ∀ k, k < 4 →
    Image.data (convertToGrayscale luma img) !! (4 * p + k)
    = Some (gray_bytes luma (Image.data img) k (4 * p))).
  { intros k Hk. rewrite convertToGrayscale_eq. cbn [Image.data].
    by apply transform_lookup. }
  assert (Hout : ∀ k, k < 4 →
    Image.data (increaseContrast (convertToGrayscale luma img)) !! (4 * p + k)
    = Some (contrast_bytes (Image.data (convertToGrayscale luma img)) k (4 * p))).
  { intros k Hk. rewrite increaseContrast_eq. cbn [Image.data].
    apply transform_lookup; [done | | done].
    by rewrite convertToGrayscale_eq. }
  pose proof (Hgrey 0) as Hgrey0. pose proof (Hout 0) as Hout0.
  rewrite Nat.add_0_r in Hgrey0, Hout0.
  rewrite Hout0, !Hout by lia. unfold contrast_bytes.
  rewrite Hgrey0, !Hgrey by lia. unfold gray_bytes. rewrite Hgray, Ha.
  repeat split. simpl.
  rewrite Forall_lookup in Hbytes. specialize (Hbytes _ _ Ha).
  unfold is_byte in Hbytes. unfold clamp255. f_equal. lia.
Qed.

Lemma grey_contrast_rendering_witness :
  wf_image dup_image ∧ 1 < width dup_image * height dup_image
  ∧ ∃ r g b a,
    Image.data dup_image !! (4 * 1) = Some r
    ∧ Image.data dup_image !! (4 * 1 + 1) = Some g
    ∧ Image.data dup_image !! (4 * 1 + 2) = Some b
    ∧ Image.data dup_image !! (4 * 1 + 3) = Some a
    ∧ let out := Image.data (increaseContrast (convertToGrayscale luma_double dup_image)) in
      let v := contrast (Some (clamp255 (luma_double r g b))) in
      out !! (4 * 1) = Some v ∧ out !! (4 * 1 + 1) = Some v
      ∧ out !! (4 * 1 + 2) = Some v ∧ out !! (4 * 1 + 3) = Some a.
Proof.
  assert (Hwf : wf_image dup_image).
  { split; simpl; [lia | lia | reflexivity |].
    repeat constructor; unfold is_byte; lia. }
  assert (Hp : 1 < width dup_image * height dup_image) by (vm_compute; lia).
  split; [exact Hwf|]. split; [exact Hp|].
  apply (grey_contrast_rendering luma_double dup_image 1 Hwf Hp).
Defined.

(** ** The remote decoder: what a non-empty answer needs *)

Lemma map_entries_inr items es :
  map_entries items = inr es →
  (JNull ∉ items)
  ∧ length es = length items
  ∧ ∀ i qr, items !! i = Some qr → ∃ x, es !! i = Some x ∧ to_entry qr = inr x.
Proof.
  revert es. induction items as [|qr rest IH]; intros es Hes; simpl in Hes.
  - simplify_eq. split; [by intros ?%elem_of_nil|]. split; [done|]. by intros [|i] ??.
  - destruct (to_entry qr) as [e|x] eqn:Hqr; [done|].
    destruct (map_entries rest) as [e|xs] eqn:Hrest; [done|]. simplify_eq.
    destruct (IH xs eq_refl) as (Hnull & Hlen & Hall).
    split; [|split].
    + intros [<-|Hin]%elem_of_cons; [discriminate|done].
    + simpl. by rewrite Hlen.
    + intros [|i] qr' Hi; simpl in Hi.
      * simplify_eq. by exists x.
      * by apply Hall.
Qed.

Section RemoteAnswers.

Variable gt_zero_coerced : json → bool.

(** X20. The wrapper returns a non-empty array only for an answer with a 2xx
    status whose body is an object with a truthy [success] and an array
    [qr_codes] free of [null]; the returned array then has one entry for
    each listed code, in the same order. *)
Theorem detectWithGoQRAPI_nonempty (e : env) (es : list entry) :
  detectWithGoQRAPI gt_zero_coerced e = Fulfilled es → es ≠ [] →
  ∃ status members items,
    context2d e = true ∧ blob e = true
    ∧ fetched e = Response status (Some (JObj members))
    ∧ ok status = true
    ∧ truthy (lookup_last "success" members) = true
    ∧ lookup_last "qr_codes" members = Some (JArr items)
    ∧ (JNull ∉ items)
    ∧ length es = length items
    ∧ ∀ i qr, items !! i = Some qr → ∃ x, es !! i = Some x ∧ to_entry qr = inr x.
Proof.
  unfold detectWithGoQRAPI, detectWithGoQRAPI_try. intros Hes Hne.
  destruct (context2d e); simpl in Hes; [|by simplify_eq].
  destruct (blob e); simpl in Hes; [|done].
  destruct (fetched e) as [| |status body|status];
    [by simplify_eq | done | | destruct (ok status); simpl in Hes; by simplify_eq].
  destruct (ok status) eqn:Hok; simpl in Hes; [|by simplify_eq].
  destruct body as [result|]; [|by simplify_eq].
  destruct (parse_response gt_zero_coerced result) as [error|entries] eqn:Hparse;
    [by simplify_eq|].
  simplify_eq. unfold parse_response in Hparse.
  destruct result as [| | | | |members]; simpl in Hparse; simplify_eq.
  destruct (truthy (lookup_last "success" members)) eqn:Hsuccess; [|by simplify_eq].
  destruct (lookup_last "qr_codes" members) as [codes|] eqn:Hcodes;
    simpl in Hparse; [|by simplify_eq].
  destruct codes as [|b|q|s|items|members']; simpl in Hparse; simplify_eq.
  - destruct b; simpl in Hparse; by simplify_eq.
  - destruct (negb _); by simplify_eq.
  - destruct (negb _); [|by simplify_eq]. destruct (0 <? _); by simplify_eq.
  - destruct (0 <? length items) eqn:Hlen; [|by simplify_eq].
    destruct (map_entries_inr _ _ Hparse) as (Hnull & Hl & Hall).
    by exists status, members, items.
  - destruct (gt_zero _ _); by simplify_eq.
Qed.

(** X21. The wrapper never throws, and it has no time limit: it returns an
    array unless one of the three promises it awaits never settles.  That is
    the case, when the canvas has a drawing context, if the canvas hands over
    no blob (the promise is resolved on a blob only), if the request is never
    answered, or if the body of a 2xx response never arrives in full; the body
    of any other response is not waited for. *)
Theorem detectWithGoQRAPI_settles (e : env) :
  (∀ error, detectWithGoQRAPI gt_zero_coerced e ≠ Rejected error)
  ∧ (detectWithGoQRAPI gt_zero_coerced e = Pending
     ↔ context2d e = true
       ∧ (blob e = false
          ∨ fetched e = FetchHangs
          ∨ ∃ status, ok status = true ∧ fetched e = ResponseHangs status))
  ∧ ((∃ es, detectWithGoQRAPI gt_zero_coerced e = Fulfilled es)
     ↔ ¬ (context2d e = true
          ∧ (blob e = false
             ∨ fetched e = FetchHangs
             ∨ ∃ status, ok status = true ∧ fetched e = ResponseHangs status))).
Proof.
  unfold detectWithGoQRAPI, detectWithGoQRAPI_try.
  destruct (context2d e), (blob e); simpl; [| naive_solver..].
  destruct (fetched e) as [| |status body|status]; simpl; [naive_solver..| |].
  - destruct (ok status) eqn:Hok; simpl; [|naive_solver].
    destruct body as [result|]; [|naive_solver].
    destruct (parse_response gt_zero_coerced result); naive_solver.
  - destruct (ok status) eqn:Hok; simpl.
    + split; [done|]. split; [split; [|done]|].
      * intros _. split; [done|]. right. right. by exists status.
      * split; [by intros [es ?]|]. intros Hnot. destruct Hnot.
        split; [done|]. right. right. by exists status.
    + split; [done|]. split.
      * split; [done|]. intros [_ [?|[?|(status' & Hok' & [= ->])]]]; congruence.
      * split; [|by eexists].
        intros _ [_ [?|[?|(status' & Hok' & [= ->])]]]; congruence.
Qed.

End RemoteAnswers.

Lemma detectWithGoQRAPI_nonempty_witness :
  ∃ es, detectWithGoQRAPI (fun _ => false) one_code = Fulfilled es ∧ es ≠ []
  ∧ ∃ status members items,
    context2d one_code = true ∧ blob one_code = true
    ∧ fetched one_code = Response status (Some (JObj members))
    ∧ ok status = true
    ∧ truthy (lookup_last "success" members) = true
    ∧ lookup_last "qr_codes" members = Some (JArr items)
    ∧ (JNull ∉ items)
    ∧ length es = length items
    ∧ ∀ i qr, items !! i = Some qr → ∃ x, es !! i = Some x ∧ to_entry qr = inr x.
Proof.
  eexists. split; [reflexivity|]. split; [discriminate|].
  apply (detectWithGoQRAPI_nonempty (fun _ => false) one_code);
    [reflexivity | discriminate].
Defined.

(** ** The matcher finds the matches *)

Lemma rep_loop_sound ic r m :
  sound_at ic r m →
  ∀ fuel lo hi k prev s e,
    (∀ h, hi = Some h → lo ≤ h) →
    lo + String.length s ≤ fuel →
    rep_loop m fuel lo hi k prev s = Some e →
    ∃ m1 rest, s = m1 +:+ rest ∧ lang ic (Rep lo hi r) prev m1 rest
               ∧ k (last_char prev m1) rest = Some e.
Proof.
  intros Hm. induction fuel as [|fuel IH]; intros lo hi k prev s e Hhi Hfuel Hrun.
  - assert (lo = 0) as -> by lia.
    assert (Hk : k prev s = Some e) by (by destruct hi as [[|h]|]).
    exists "", s. repeat split; [constructor | done].
  - destruct (decide (hi = Some 0)) as [->|Hne].
    { rewrite rep_loop_done in Hrun. assert (lo = 0) as -> by (specialize (Hhi 0 eq_refl); lia).
      exists "", s. repeat split; [constructor | done]. }
    assert (Hstep : ∀ e',
      m (fun prev' s' =>
           if (lo =? 0) && (String.length s' =? String.length s) then None
           else rep_loop m fuel (Nat.pred lo) (Nat.pred <$> hi) k prev' s') prev s
      = Some e' →
      ∃ m1 rest, s = m1 +:+ rest ∧ lang ic (Rep lo hi r) prev m1 rest
                 ∧ k (last_char prev m1) rest = Some e').
    { intros e' He'. apply Hm in He' as (m1 & rest1 & -> & Hm1 & Hd).
      rewrite str_app_length in Hd, Hfuel.
      destruct ((lo =? 0) && (String.length rest1 =? String.length m1 + String.length rest1))
        eqn:Hcheck; [done|].
      apply IH in Hd as (m2 & rest & -> & Hm2 & Hk).
      - exists (m1 +:+ m2), rest. rewrite str_app_assoc, last_char_app.
        repeat split; [|done]. apply lang_rep_more; try done.
        intros -> ->. simpl in Hcheck. by rewrite Nat.eqb_refl in Hcheck.
      - intros h' Hh'. destruct hi as [h|]; [|done]. simpl in Hh'. simplify_eq.
        specialize (Hhi h eq_refl). lia.
      - apply andb_false_iff in Hcheck as [Hlo|Hlen].
        + apply Nat.eqb_neq in Hlo. lia.
        + apply Nat.eqb_neq in Hlen. lia. }
    assert (Hrun' :
      match lo with
      | 0 =>
          match m (fun prev' s' =>
                     if (lo =? 0) && (String.length s' =? String.length s) then None
                     else rep_loop m fuel (Nat.pred lo) (Nat.pred <$> hi) k prev' s')
                  prev s with
          | Some e' => Some e'
          | None => k prev s
          end
      | S _ =>
          m (fun prev' s' =>
               if (lo =? 0) && (String.length s' =? String.length s) then None
               else rep_loop m fuel (Nat.pred lo) (Nat.pred <$> hi) k prev' s') prev s
      end = Some e).
    { by destruct hi as [[|h]|]. }
    clear Hrun. destruct lo as [|lo].
    + destruct (m _ prev s) as [e'|] eqn:He'.
      * simplify_eq. by apply Hstep.
      * exists "", s. repeat split; [constructor | done].
    + by apply Hstep.
Qed.

Lemma rmatch_sound ic r : bounded r = true → sound_at ic r (rmatch ic r).
Proof.
  induction r as [|a|neg rs|r1 IH1 r2 IH2|r1 IH1 r2 IH2|lo hi r1 IH1| | |];
    intros Hb k prev s e Hrun; simpl in Hrun.
  - exists "", s. repeat split; [constructor | done].
  - destruct s as [|c s]; [done|]. destruct (chr_matches ic a c) eqn:Hc; [|done].
    exists (String c ""), s. repeat split; [by constructor | done].
  - destruct s as [|c s]; [done|]. destruct (cls_matches ic neg rs c) eqn:Hc; [|done].
    exists (String c ""), s. repeat split; [by constructor | done].
  - simpl in Hb. apply andb_prop in Hb as [Hb1 Hb2].
    apply (IH1 Hb1) in Hrun as (m1 & rest1 & -> & Hm1 & Hrun).
    apply (IH2 Hb2) in Hrun as (m2 & rest & -> & Hm2 & Hk).
    exists (m1 +:+ m2), rest. rewrite str_app_assoc, last_char_app.
    repeat split; [by constructor | done].
  - simpl in Hb. apply andb_prop in Hb as [Hb1 Hb2].
    destruct (rmatch ic r1 k prev s) as [e'|] eqn:He'.
    + simplify_eq. apply (IH1 Hb1) in He' as (m1 & rest & -> & Hm1 & Hk).
      exists m1, rest. repeat split; [by apply lang_alt_l | done].
    + apply (IH2 Hb2) in Hrun as (m1 & rest & -> & Hm1 & Hk).
      exists m1, rest. repeat split; [by apply lang_alt_r | done].
  - apply (rep_loop_sound ic r1 (rmatch ic r1)) in Hrun; [done | | | done].
    + apply IH1. simpl in Hb. destruct hi; [by apply andb_prop in Hb as [_ ?] | done].
    + intros h ->. simpl in Hb. apply andb_prop in Hb as [Hlo _].
      by apply Nat.leb_le in Hlo.
  - destruct prev; [done|]. exists "", s. repeat split; [constructor | done].
  - destruct s; [|done]. exists "", "". repeat split; [constructor | done].
  - destruct (xorb _ _) eqn:Hx; [|done].
    exists "", s. repeat split; [by constructor | done].
Qed.

Lemma lang_rep_inv ic lo hi r prev m rest :
  lang ic (Rep lo hi r) prev m rest →
  (lo = 0 ∧ m = "")
  ∨ ∃ m1 m2, m = m1 +:+ m2 ∧ hi ≠ Some 0 ∧ (lo = 0 → m1 ≠ "")
             ∧ lang ic r prev m1 (m2 +:+ rest)
             ∧ lang ic (Rep (Nat.pred lo) (Nat.pred <$> hi) r) (last_char prev m1) m2 rest.
Proof. inversion 1; subst; [by left | right; eauto 10]. Qed.

Lemma rep_loop_complete ic r m :
  complete_at ic r m →
  ∀ fuel lo hi k prev s,
    lo + String.length s ≤ fuel →
    rep_loop m fuel lo hi k prev s = None →
    ∀ m1 rest, s = m1 +:+ rest → lang ic (Rep lo hi r) prev m1 rest →
               k (last_char prev m1) rest = None.
Proof.
  intros Hm. induction fuel as [|fuel IH]; intros lo hi k prev s Hfuel Hrun m1 rest -> Hlang.
  - assert (lo = 0) as -> by lia.
    rewrite str_app_length in Hfuel.
    assert (Hk : k prev (m1 +:+ rest) = None) by (by destruct hi as [[|h]|]).
    destruct m1; [done | simpl in Hfuel; lia].
  - destruct (decide (hi = Some 0)) as [->|Hne].
    { rewrite rep_loop_done in Hrun.
      apply lang_rep_inv in Hlang as [[-> ->]|(? & ? & _ & ? & _)]; done. }
    assert (Hrun' :
      match lo with
      | 0 =>
          match m (fun prev' s' =>
                     if (lo =? 0) && (String.length s' =? String.length (m1 +:+ rest))
                     then None
                     else rep_loop m fuel (Nat.pred lo) (Nat.pred <$> hi) k prev' s')
                  prev (m1 +:+ rest) with
          | Some e' => Some e'
          | None => k prev (m1 +:+ rest)
          end
      | S _ =>
          m (fun prev' s' =>
               if (lo =? 0) && (String.length s' =? String.length (m1 +:+ rest))
               then None
               else rep_loop m fuel (Nat.pred lo) (Nat.pred <$> hi) k prev' s')
            prev (m1 +:+ rest)
      end = None).
    { by destruct hi as [[|h]|]. }
    clear Hrun.
    assert (Hinner :
      m (fun prev' s' =>
           if (lo =? 0) && (String.length s' =? String.length (m1 +:+ rest)) then None
           else rep_loop m fuel (Nat.pred lo) (Nat.pred <$> hi) k prev' s')
        prev (m1 +:+ rest) = None
      ∧ (lo = 0 → k prev (m1 +:+ rest) = None)).
    { destruct lo; [|done]. destruct (m _ prev (m1 +:+ rest)); [done|]. by split. }
    clear Hrun'. destruct Hinner as [Hinner Hstop].
    apply lang_rep_inv in Hlang as [[-> ->]|(a & b & -> & _ & Hne' & Ha & Hb)];
      [by apply Hstop|].
    rewrite str_app_assoc in Hinner.
    specialize (Hm _ _ _ Hinner a (b +:+ rest) eq_refl Ha). cbv beta in Hm.
    rewrite !str_app_length in Hfuel.
    destruct ((lo =? 0) && (String.length (b +:+ rest) =? String.length (a +:+ b +:+ rest)))
      eqn:Hcheck.
    { apply andb_prop in Hcheck as [Hlo Hlen].
      apply Nat.eqb_eq in Hlo, Hlen. specialize (Hne' Hlo).
      rewrite !str_app_length in Hlen.
      destruct a; [done | simpl in Hlen; lia]. }
    assert (Hfuel' : Nat.pred lo + String.length (b +:+ rest) ≤ fuel).
    { rewrite str_app_length.
      apply andb_false_iff in Hcheck as [Hlo|Hlen].
      - apply Nat.eqb_neq in Hlo. lia.
      - apply Nat.eqb_neq in Hlen. rewrite !str_app_length in Hlen. lia. }
    rewrite last_char_app. apply (IH _ _ _ _ _ Hfuel' Hm b rest eq_refl Hb).
Qed.

Lemma rmatch_complete ic r : complete_at ic r (rmatch ic r).
Proof.
  induction r as [|a|neg rs|r1 IH1 r2 IH2|r1 IH1 r2 IH2|lo hi r1 IH1| | |];
    intros k prev s Hrun m rest -> Hlang; simpl in Hrun.
  - by inversion Hlang; subst.
  - inversion Hlang as [|? c ? ? Hc| | | | | | | | |]; subst.
    rewrite str_app_cons in Hrun. by rewrite Hc in Hrun.
  - inversion Hlang as [| |? ? c ? ? Hc| | | | | | | |]; subst.
    rewrite str_app_cons in Hrun. by rewrite Hc in Hrun.
  - inversion Hlang as [| | |? ? ? m1 m2 ? H1 H2| | | | | | |]; subst.
    rewrite str_app_assoc in Hrun. rewrite last_char_app.
    apply (IH2 _ _ _ (IH1 _ _ _ Hrun m1 (m2 +:+ rest) eq_refl H1) m2 rest eq_refl H2).
  - destruct (rmatch ic r1 k prev (m +:+ rest)) eqn:H1; [done|].
    inversion Hlang; subst.
    + by apply (IH1 _ _ _ H1 m rest).
    + by apply (IH2 _ _ _ Hrun m rest).
  - by apply (rep_loop_complete ic r1 (rmatch ic r1) IH1 _ _ _ _ _ _
                ltac:(reflexivity) Hrun m rest).
  - inversion Hlang; subst. done.
  - inversion Hlang; subst. done.
  - inversion Hlang as [| | | | | | | | | |? ? Hx]; subst.
    rewrite str_app_nil_l in Hrun. by rewrite Hx in Hrun.
Qed.

Lemma str_app_nil_r a : a +:+ "" = a.
Proof. induction a as [|x a IH]; [done|]. by rewrite str_app_cons, IH. Qed.

Lemma match_here_sound ic r prev s s' :
  bounded r = true → match_here ic r prev s = Some s' →
  ∃ m, s = m +:+ s' ∧ lang ic r prev m s'.
Proof.
  intros Hb Hrun. apply (rmatch_sound ic r Hb) in Hrun as (m & rest & -> & Hm & Hk).
  unfold at_end in Hk. simplify_eq. by exists m.
Qed.

Lemma match_here_complete ic r prev m rest :
  lang ic r prev m rest → is_Some (match_here ic r prev (m +:+ rest)).
Proof.
  intros Hlang. destruct (match_here ic r prev (m +:+ rest)) eqn:Hrun; [done|].
  by pose proof (rmatch_complete ic r _ _ _ Hrun m rest eq_refl Hlang).
Qed.

Lemma search_unfold ic r prev s :
  search ic r prev s
  = match match_here ic r prev s with
    | Some s' => Some (Found "" (str_take (String.length s - String.length s') s) s')
    | None =>
        match s with
        | EmptyString => None
        | String c s1 =>
            match search ic r (Some c) s1 with
            | Some f => Some (Found (String c (before f)) (matched f) (after f))
            | None => None
            end
        end
    end.
Proof. by destruct s. Qed.

(** A search returns a match and where it lies. *)
Lemma search_sound ic r s : ∀ prev f,
  bounded r = true → search ic r prev s = Some f →
  s = before f +:+ matched f +:+ after f
  ∧ lang ic r (last_char prev (before f)) (matched f) (after f).
Proof.
  induction s as [|c s IH]; intros prev f Hb Hrun; rewrite search_unfold in Hrun.
  - destruct (match_here ic r prev "") as [s'|] eqn:Hhere; [|done].
    apply match_here_sound in Hhere as (m & Hs & Hm); [|done]. simplify_eq.
    destruct m; [|done]. rewrite str_app_nil_l in Hs. subst s'. simpl. by split.
  - destruct (match_here ic r prev (String c s)) as [s'|] eqn:Hhere.
    + apply match_here_sound in Hhere as (m & Hs & Hm); [|done]. simplify_eq.
      cbn [before matched after]. rewrite Hs, str_take_app, str_app_nil_l. by split.
    + destruct (search ic r (Some c) s) as [f'|] eqn:Hrest; [|done]. simplify_eq.
      destruct (IH _ _ Hb Hrest) as [Hs Hm]. cbn [before matched after].
      rewrite str_app_cons. split; [by f_equal | done].
Qed.

(** A search finds a match wherever there is one. *)
Lemma search_complete ic r b : ∀ prev m a,
  lang ic r (last_char prev b) m a → is_Some (search ic r prev (b +:+ m +:+ a)).
Proof.
  induction b as [|c b IH]; intros prev m a Hlang.
  - rewrite str_app_nil_l. simpl in Hlang.
    destruct (match_here_complete _ _ _ _ _ Hlang) as [s' Hs'].
    destruct (m +:+ a) eqn:Hma; simpl; by rewrite Hs'.
  - rewrite str_app_cons. simpl.
    destruct (match_here ic r prev (String c (b +:+ m +:+ a))); [done|].
    simpl in Hlang. by destruct (IH (Some c) m a Hlang) as [f ->].
Qed.

Lemma first_match_sound ic r s m :
  bounded r = true → first_match ic r s = Some m →
  ∃ b a, s = b +:+ m +:+ a ∧ lang ic r (last_char None b) m a.
Proof.
  unfold first_match. intros Hb Hrun.
  destruct (search ic r None s) as [f|] eqn:Hf; [|done]. simpl in Hrun. simplify_eq.
  destruct (search_sound _ _ _ _ _ Hb Hf) as [Hs Hm]. by exists (before f), (after f).
Qed.

(** The patterns find a match exactly when the text holds one. *)
Lemma first_match_holds ic r s :
  bounded r = true → is_Some (first_match ic r s) ↔ holds ic r s.
Proof.
  intros Hb. split.
  - intros [m Hm]. apply first_match_sound in Hm as (b & a & Hs & Hlang); [|done].
    by exists b, m, a.
  - intros (b & m & a & -> & Hlang). unfold first_match.
    by destruct (search_complete ic r b None m a Hlang) as [f ->].
Qed.

(** ** Normalisation of the text *)

Lemma span_not_space_space c s :
  is_space c = true → span not_space (String c s) = ("", String c s).
Proof. intros Hc. simpl. unfold not_space. by rewrite Hc. Qed.

Lemma span_not_space_other c s :
  is_space c = false →
  span not_space (String c s) = (String c (span not_space s).1, (span not_space s).2).
Proof. intros Hc. simpl. unfold not_space at 1. by rewrite Hc. Qed.

Lemma match_here_spaces prev s :
  match_here false re_spaces prev s = snd <$> run is_space s.
Proof.
  unfold match_here, re_spaces.
  destruct (run is_space s) as [[w r]|] eqn:Hrun.
  - by rewrite (plus_cls_accept cls_s is_space at_end prev s w r cls_space Hrun).
  - by apply plus_cls_none with (p := is_space); [apply cls_space|].
Qed.

(** A search for white space: the text up to the first white space, the whole
    run of white space, and the rest. *)
Lemma search_spaces s : ∀ prev,
  search false re_spaces prev s
  = match run is_space (span not_space s).2 with
    | Some (w, r) => Some (Found (span not_space s).1 w r)
    | None => None
    end.
Proof.
  induction s as [|c s IH]; intros prev; [done|].
  rewrite search_unfold, match_here_spaces.
  destruct (is_space c) eqn:Hc.
  - rewrite span_not_space_space by done. cbn [fst snd].
    destruct (run is_space (String c s)) as [[w r]|] eqn:Hrun.
    + cbn [fmap option_fmap option_map snd].
      apply run_Some in Hrun as (Hs & _). rewrite Hs, str_take_app. done.
    + unfold run in Hrun. simpl in Hrun. by rewrite Hc in Hrun.
  - assert (run is_space (String c s) = None) as ->.
    { unfold run. simpl. by rewrite Hc. }
    cbn [fmap option_fmap option_map]. rewrite IH.
    rewrite span_not_space_other by done. cbn [fst snd].
    by destruct (run is_space (span not_space s).2) as [[w r]|].
Qed.

Lemma collapse_solid by_ s :
  forall_chars not_space s = true → collapse by_ false s = s.
Proof.
  induction s as [|c s IH]; [done|]. simpl. unfold not_space at 1.
  intros [Hc Hs]%andb_prop. apply negb_true_iff in Hc. rewrite Hc. by rewrite IH.
Qed.

Lemma collapse_app_solid by_ b s :
  forall_chars not_space b = true → collapse by_ false (b +:+ s) = b +:+ collapse by_ false s.
Proof.
  induction b as [|c b IH]; [done|]. cbn [forall_chars]. unfold not_space at 1.
  intros [Hc Hs]%andb_prop. apply negb_true_iff in Hc.
  rewrite !str_app_cons. cbn [collapse]. rewrite Hc. by rewrite IH.
Qed.

Lemma collapse_run by_ w s :
  forall_chars is_space w = true → collapse by_ true (w +:+ s) = collapse by_ true s.
Proof.
  induction w as [|c w IH]; [done|]. cbn [forall_chars].
  intros [Hc Hs]%andb_prop. rewrite str_app_cons. cbn [collapse]. rewrite Hc. by apply IH.
Qed.

Lemma collapse_after_run by_ s :
  starts_space s = false → collapse by_ true s = collapse by_ false s.
Proof. destruct s as [|c s]; [done|]. simpl. by intros ->. Qed.

Lemma starts_space_rest (r : string) :
  match r with String c _ => is_space c = false | EmptyString => True end →
  starts_space r = false.
Proof. by destruct r. Qed.

Lemma replace_all_go_spaces by_ : ∀ fuel prev s,
  String.length s < fuel →
  replace_all_go fuel false re_spaces by_ prev s = collapse by_ false s.
Proof.
  induction fuel as [|fuel IH]; intros prev s Hfuel; [lia|].
  cbn [replace_all_go]. rewrite search_spaces.
  pose proof (span_app not_space s) as Hs.
  pose proof (span_forall not_space s) as Hb.
  pose proof (span_rest not_space s) as Hr.
  destruct (span not_space s) as [b r]. cbn [fst snd] in *.
  destruct (run is_space r) as [[w r']|] eqn:Hrun.
  - apply run_Some in Hrun as (-> & Hw1 & Hw & Hr').
    cbn [before matched after].
    destruct w as [|c w]; [done|].
    rewrite IH.
    + rewrite Hs, collapse_app_solid by done. f_equal.
      rewrite str_app_cons. simpl in Hw. apply andb_prop in Hw as [Hc Hw].
      simpl. rewrite Hc. f_equal. rewrite collapse_run by done.
      symmetry. apply collapse_after_run. by apply starts_space_rest.
    + rewrite Hs, !str_app_length in Hfuel. simpl in Hfuel. lia.
  - assert (r = "") as ->.
    { destruct r as [|c r]; [done|]. unfold not_space in Hr.
      apply negb_false_iff in Hr. unfold run in Hrun. simpl in Hrun.
      by rewrite Hr in Hrun. }
    rewrite Hs, str_app_nil_r. symmetry. by apply collapse_solid.
Qed.

Lemma replace_all_spaces by_ s :
  replace_all false re_spaces by_ s = collapse by_ false s.
Proof. unfold replace_all. apply replace_all_go_spaces. lia. Qed.

Lemma collapse_loose s :
  loose (collapse " " false s) = true
  ∧ loose (collapse " " true s) = true
  ∧ starts_space (collapse " " true s) = false.
Proof.
  induction s as [|c s (IH1 & IH2 & IH3)]; [done|]. simpl.
  destruct (is_space c) eqn:Hc.
  - repeat split; try done. rewrite str_app_cons, str_app_nil_l. simpl.
    by rewrite IH2, IH3.
  - simpl. rewrite Hc. by rewrite IH1.
Qed.

Lemma trimStart_loose s :
  loose s = true → loose (trimStart s) = true ∧ starts_space (trimStart s) = false.
Proof.
  destruct s as [|c s]; [done|]. simpl. destruct (is_space c) eqn:Hc.
  - intros [[_ Hs%negb_true_iff]%andb_prop Hl]%andb_prop.
    destruct s as [|c' s]; [done|]. simpl in Hs |- *. rewrite Hs. by rewrite <- Hl.
  - intros Hl. simpl. by rewrite Hc.
Qed.

Lemma trimEnd_head s c t : trimEnd s = String c t → ∃ s', s = String c s'.
Proof.
  destruct s as [|c' s]; [done|]. simpl.
  destruct (trimEnd s); [destruct (is_space c')|]; intros [= -> _]; eauto.
Qed.

Lemma trimEnd_starts_space s : starts_space s = false → starts_space (trimEnd s) = false.
Proof.
  destruct s as [|c s]; [done|]. simpl. intros Hc.
  destruct (trimEnd s); [by rewrite Hc|done].
Qed.

Lemma trimEnd_tight s : loose s = true → tight (trimEnd s) = true.
Proof.
  induction s as [|c s IH]; [done|]. simpl.
  intros [Hc Hl]%andb_prop. specialize (IH Hl).
  destruct (trimEnd s) as [|c' t] eqn:Ht.
  - destruct (is_space c) eqn:Hsp; [done|]. simpl. by rewrite Hsp.
  - change (tight (String c (String c' t)))
      with ((if is_space c then Ascii.eqb c " " && not_space c' else true)
            && tight (String c' t)).
    rewrite IH, andb_true_r.
    destruct (is_space c) eqn:Hsp; [|done].
    apply andb_prop in Hc as [Heq Hs%negb_true_iff]. rewrite Heq.
    apply trimEnd_head in Ht as [s' ->]. simpl in Hs. unfold not_space.
    by rewrite Hs.
Qed.

Lemma collapse_tight s : tight s = true → collapse " " false s = s.
Proof.
  induction s as [|c s IH]; [done|].
  change (tight (String c s))
    with ((if is_space c
           then Ascii.eqb c " " && match s with
                                   | String c' _ => not_space c'
                                   | EmptyString => false
                                   end
           else true) && tight s).
  intros [Hc Ht]%andb_prop. cbn [collapse].
  destruct (is_space c) eqn:Hsp; [|by rewrite (IH Ht)].
  apply andb_prop in Hc as [->%Ascii.eqb_eq Hs].
  rewrite str_app_cons, str_app_nil_l. f_equal.
  destruct s as [|c' s]; [done|]. rewrite <- (IH Ht) at 2.
  apply collapse_after_run.
  simpl. unfold not_space in Hs. by apply negb_true_iff in Hs.
Qed.

Lemma trimEnd_of_tight s : tight s = true → trimEnd s = s.
Proof.
  induction s as [|c s IH]; [done|]. simpl.
  intros [Hc Ht]%andb_prop. rewrite (IH Ht).
  destruct s as [|c' s]; [|done].
  destruct (is_space c); [|done]. by rewrite andb_false_r in Hc.
Qed.

Lemma filter_collapse in_run s :
  filter_chars not_space (collapse " " in_run s) = filter_chars not_space s.
Proof.
  revert in_run. induction s as [|c s IH]; intros in_run; [done|]. simpl.
  unfold not_space at 2. destruct (is_space c) eqn:Hc; simpl.
  - destruct in_run; [apply IH|]. rewrite str_app_cons, str_app_nil_l. simpl. apply IH.
  - unfold not_space at 1. rewrite Hc. simpl. by rewrite IH.
Qed.

Lemma filter_trimStart s :
  filter_chars not_space (trimStart s) = filter_chars not_space s.
Proof.
  induction s as [|c s IH]; [done|]. simpl. unfold not_space at 2.
  destruct (is_space c) eqn:Hc; simpl; [done|]. unfold not_space at 1. by rewrite Hc.
Qed.

Lemma filter_trimEnd s :
  filter_chars not_space (trimEnd s) = filter_chars not_space s.
Proof.
  induction s as [|c s IH]; [done|]. cbn [trimEnd filter_chars]. rewrite <- IH.
  destruct (trimEnd s) as [|c' t]; [|done].
  destruct (is_space c) eqn:Hc; cbn [filter_chars]; unfold not_space; by rewrite Hc.
Qed.

Lemma clean_collapse text : clean text = trim (collapse " " false text).
Proof. unfold clean. by rewrite replace_all_spaces. Qed.

Lemma clean_normal text : normal (clean text) = true.
Proof.
  rewrite clean_collapse. unfold trim, normal.
  destruct (collapse_loose text) as (Hl & _ & _).
  destruct (trimStart_loose _ Hl) as [Hl' Hs].
  rewrite trimEnd_starts_space by done. by rewrite trimEnd_tight.
Qed.

Lemma clean_of_normal t : normal t = true → clean t = t.
Proof.
  intros [Hs Ht]%andb_prop. apply negb_true_iff in Hs.
  rewrite clean_collapse, collapse_tight by done. unfold trim.
  assert (trimStart t = t) as ->.
  { destruct t as [|c t]; [done|]. simpl in Hs |- *. by rewrite Hs. }
  by apply trimEnd_of_tight.
Qed.

(** X22. The first step of the extractor normalises the text: the result does
    not start or end with white space, and all its white space is single
    spaces between other characters; the characters that are not white space
    are those of the text, in order; a normalised text is left as it is, so
    that normalising twice changes nothing. *)
Theorem clean_normal_form (text : string) :
  normal (clean text) = true
  ∧ filter_chars not_space (clean text) = filter_chars not_space text
  ∧ (normal text = true ↔ clean text = text)
  ∧ clean (clean text) = clean text.
Proof.
  split; [apply clean_normal|]. split; [|split].
  - rewrite clean_collapse. unfold trim.
    by rewrite filter_trimEnd, filter_trimStart, filter_collapse.
  - split; [apply clean_of_normal|]. intros <-. apply clean_normal.
  - apply clean_of_normal, clean_normal.
Qed.

(** ** Matches of the derived forms *)

Lemma lang_rep_cls ic neg rs m : ∀ lo hi prev rest,
  lang ic (Rep lo hi (Cls neg rs)) prev m rest
  ↔ forall_chars (cls_matches ic neg rs) m = true
    ∧ lo ≤ String.length m
    ∧ ∀ h, hi = Some h → String.length m ≤ h.
Proof.
  induction m as [|c m IH]; intros lo hi prev rest; split.
  - intros [[-> _]|(m1 & m2 & Hm & _ & _ & H1 & _)]%lang_rep_inv.
    + repeat split; simpl; [lia|]. intros; lia.
    + inversion H1; subst. done.
  - intros (_ & Hlo & _). simpl in Hlo. assert (lo = 0) as -> by lia. constructor.
  - intros [[_ ?]|(m1 & m2 & Hm & Hne & _ & H1 & H2)]%lang_rep_inv; [done|].
    inversion H1 as [| |? ? c' ? ? Hc| | | | | | | |]; subst.
    rewrite str_app_cons, str_app_nil_l in Hm. simplify_eq.
    apply IH in H2 as (Hall & Hlo & Hhi). simpl. rewrite Hc, Hall.
    repeat split; [lia|]. intros h ->. specialize (Hhi _ eq_refl).
    destruct h; [done | simpl in Hhi; lia].
  - simpl. intros ((Hc & Hall)%andb_prop & Hlo & Hhi).
    change (String c m) with (String c "" +:+ m). apply lang_rep_more.
    + intros ->. specialize (Hhi 0 eq_refl). lia.
    + done.
    + by constructor.
    + apply IH. repeat split; [done | lia |].
      intros h Hh. destruct hi as [h'|]; [|done]. simpl in Hh. simplify_eq.
      specialize (Hhi _ eq_refl). lia.
Qed.

Lemma lang_chr_iff ic a prev m rest :
  lang ic (Chr a) prev m rest ↔ ∃ c, m = String c "" ∧ chr_matches ic a c = true.
Proof.
  split.
  - inversion 1; subst. eauto.
  - intros (c & -> & Hc). by constructor.
Qed.

Lemma lang_cat_iff ic r1 r2 prev m rest :
  lang ic (Cat r1 r2) prev m rest
  ↔ ∃ m1 m2, m = m1 +:+ m2 ∧ lang ic r1 prev m1 (m2 +:+ rest)
             ∧ lang ic r2 (last_char prev m1) m2 rest.
Proof.
  split.
  - inversion 1; subst. eauto.
  - intros (m1 & m2 & -> & H1 & H2). by constructor.
Qed.

Lemma lang_alt_iff ic r1 r2 prev m rest :
  lang ic (Alt r1 r2) prev m rest ↔ lang ic r1 prev m rest ∨ lang ic r2 prev m rest.
Proof.
  split.
  - inversion 1; subst; eauto.
  - intros [H|H]; [by apply lang_alt_l | by apply lang_alt_r].
Qed.

Lemma lang_opt_chr ic a prev m rest :
  lang ic (opt (Chr a)) prev m rest
  ↔ m = "" ∨ ∃ c, m = String c "" ∧ chr_matches ic a c = true.
Proof.
  split.
  - intros [[_ ->]|(m1 & m2 & -> & _ & _ & H1 & H2)]%lang_rep_inv; [by left|].
    right. apply lang_chr_iff in H1 as (c & -> & Hc).
    apply lang_rep_inv in H2 as [[_ ->]|(? & ? & _ & ? & _)]; [|done].
    by exists c.
  - intros [->|(c & -> & Hc)]; [constructor|].
    change (String c "") with (String c "" +:+ ""). apply lang_rep_more; try done.
    + by constructor.
    + constructor.
Qed.

Lemma same_text_cons ic a w c m :
  same_text ic (String a w) (String c m)
  ↔ chr_matches ic a c = true ∧ same_text ic w m.
Proof.
  unfold same_text, chr_matches. destruct ic.
  - change (toUpperCase (String c m)) with (String (upper_char c) (toUpperCase m)).
    change (toUpperCase (String a w)) with (String (upper_char a) (toUpperCase w)).
    rewrite Ascii.eqb_eq. split; [by intros [= -> ->] | by intros [-> ->]].
  - rewrite Ascii.eqb_eq. split; [by intros [= -> ->] | by intros [-> ->]].
Qed.

Lemma same_text_nil ic m : same_text ic "" m ↔ m = "".
Proof. unfold same_text. destruct ic, m; naive_solver. Qed.

Lemma same_text_short ic a w : ¬ same_text ic (String a w) "".
Proof. unfold same_text. by destruct ic. Qed.

Lemma lang_lit ic w : ∀ prev m rest,
  lang ic (lit w) prev m rest ↔ same_text ic w m.
Proof.
  induction w as [|a w IH]; intros prev m rest.
  - rewrite same_text_nil. simpl. split; [by inversion 1 | intros ->; constructor].
  - destruct w as [|b w].
    + change (lit (String a "")) with (Chr a). rewrite lang_chr_iff. split.
      * intros (c & -> & Hc). by apply same_text_cons, conj, same_text_nil.
      * destruct m as [|c m]; [by intros ?%same_text_short|].
        intros [Hc ->%same_text_nil]%same_text_cons. by exists c.
    + change (lit (String a (String b w))) with (Cat (Chr a) (lit (String b w))).
      rewrite lang_cat_iff. split.
      * intros (m1 & m2 & -> & (c & -> & Hc)%lang_chr_iff & H2).
        apply IH in H2. rewrite str_app_cons, str_app_nil_l.
        by apply same_text_cons.
      * destruct m as [|c m]; [by intros ?%same_text_short|].
        intros [Hc Hm]%same_text_cons.
        exists (String c ""), m. split; [done|]. split.
        -- apply lang_chr_iff. by exists c.
        -- by apply IH.
Qed.

(** What a field holds, read off the text: the leftmost match of its pattern
    when the text holds one, nothing otherwise. *)
Lemma first_match_shape ic r (shape : option ascii → string → string → Prop) s :
  bounded r = true →
  (∀ prev m rest, lang ic r prev m rest ↔ shape prev m rest) →
  match first_match ic r s with
  | Some m => ∃ b a, s = b +:+ m +:+ a ∧ shape (last_char None b) m a
  | None => ∀ b m a, s = b +:+ m +:+ a → ¬ shape (last_char None b) m a
  end.
Proof.
  intros Hb Hshape. destruct (first_match ic r s) as [m|] eqn:Hm.
  - apply first_match_sound in Hm as (b & a & -> & Hlang); [|done].
    exists b, a. split; [done|]. by apply Hshape.
  - intros b m a -> Hsh%Hshape.
    assert (is_Some (first_match ic r (b +:+ m +:+ a))) as [? ?]; [|congruence].
    apply first_match_holds; [done|]. by exists b, m, a.
Qed.

(** ** The e-mail, the web address and the postal code *)

Lemma cls_local c :
  cls_matches false false
    [az; AZ; d09; one "."; one "_"; one "%"; one "+"; one "-"]%char c = local_char c.
Proof. destruct c as [[] [] [] [] [] [] [] []]; reflexivity. Qed.

Lemma cls_domain c :
  cls_matches false false [az; AZ; d09; one "."; one "-"]%char c = domain_char c.
Proof. destruct c as [[] [] [] [] [] [] [] []]; reflexivity. Qed.

Lemma cls_alpha c : cls_matches false false [az; AZ] c = is_alpha c.
Proof. destruct c as [[] [] [] [] [] [] [] []]; reflexivity. Qed.

Lemma cls_digit ic c : cls_matches ic false cls_d c = is_digit c.
Proof. destruct ic, c as [[] [] [] [] [] [] [] []]; reflexivity. Qed.

Lemma cls_not_space c : cls_matches true true cls_s c = negb (is_space c).
Proof. destruct c as [[] [] [] [] [] [] [] []]; reflexivity. Qed.

Lemma length_pos_nonempty (s : string) : 1 ≤ String.length s ↔ s ≠ "".
Proof. destruct s; simpl; split; (done || lia || auto with lia). Qed.

Lemma chr_exact a c : chr_matches false a c = true ↔ c = a.
Proof. unfold chr_matches. rewrite Ascii.eqb_eq. naive_solver. Qed.

Lemma emailPattern_shape prev m rest :
  lang false emailPattern prev m rest ↔ email_shape m.
Proof.
  unfold emailPattern, email_shape, cat, plus, at_least.
  split.
  - intros (l & m1 & -> & Hl & H1)%lang_cat_iff.
    apply lang_cat_iff in H1 as (at_ & m2 & -> & (c1 & -> & ->%chr_exact)%lang_chr_iff & H2).
    apply lang_cat_iff in H2 as (d & m3 & -> & Hd & H3).
    apply lang_cat_iff in H3 as (dot & t & -> & (c2 & -> & ->%chr_exact)%lang_chr_iff & Ht).
    apply lang_rep_cls in Hl as (Hl & Hl1 & _), Hd as (Hd & Hd1 & _), Ht as (Ht & Ht2 & _).
    exists l, d, t.
    rewrite (forall_chars_ext _ _ _ cls_local) in Hl.
    rewrite (forall_chars_ext _ _ _ cls_domain) in Hd.
    rewrite (forall_chars_ext _ _ _ cls_alpha) in Ht.
    by rewrite <- !length_pos_nonempty.
  - intros (l & d & t & -> & Hl1 & Hl & Hd1 & Hd & Ht2 & Ht).
    apply lang_cat_iff. exists l, ("@" +:+ d +:+ "." +:+ t). split; [done|]. split.
    { apply lang_rep_cls. rewrite (forall_chars_ext _ _ _ cls_local).
      by rewrite length_pos_nonempty. }
    apply lang_cat_iff. exists "@", (d +:+ "." +:+ t). split; [done|]. split.
    { apply lang_chr_iff. by exists "@"%char. }
    apply lang_cat_iff. exists d, ("." +:+ t). split; [done|]. split.
    { apply lang_rep_cls. rewrite (forall_chars_ext _ _ _ cls_domain).
      by rewrite length_pos_nonempty. }
    apply lang_cat_iff. exists ".", t. split; [done|]. split.
    { apply lang_chr_iff. by exists "."%char. }
    apply lang_rep_cls. by rewrite (forall_chars_ext _ _ _ cls_alpha).
Qed.

(** X23. The e-mail field: when the normalised text holds an address (a local
    part, an at sign, a domain, a dot and two letters or more), the field is
    such an address taken from the text; when it holds none, the field is
    empty. *)
Theorem email_field (text : string) :
  let e := email (extractTextInfoEnhanced text) in
  (e ≠ "" → email_shape e ∧ ∃ b a, clean text = b +:+ e +:+ a)
  ∧ (e = "" ↔ ∀ b m a, clean text = b +:+ m +:+ a → ¬ email_shape m).
Proof.
  assert (Hempty : ¬ email_shape "").
  { intros (l & d & t & Hm & Hl & _). by destruct l. }
  destruct text as [|c text].
  { simpl. split; [done|]. split; [|done]. intros _ b m a Hs.
    destruct b; [|done]. destruct m; [done|done]. }
  cbn zeta. unfold extractTextInfoEnhanced. cbn [email].
  pose proof (first_match_shape false emailPattern (fun _ m _ => email_shape m)
                (clean (String c text)) eq_refl emailPattern_shape) as Hfield.
  destruct (first_match false emailPattern (clean (String c text))) as [m|]; simpl.
  - destruct Hfield as (b & a & Hs & Hm). split.
    + intros _. split; [done|]. by exists b, a.
    + split.
      * intros ->. done.
      * intros Hnone. by destruct (Hnone b m a Hs).
  - split; [done|]. split; [|done]. intros _. exact Hfield.
Qed.

Lemma same_text_app ic w1 w2 m :
  same_text ic (w1 +:+ w2) m
  ↔ ∃ m1 m2, m = m1 +:+ m2 ∧ same_text ic w1 m1 ∧ same_text ic w2 m2.
Proof.
  revert m. induction w1 as [|a w1 IH]; intros m.
  - rewrite str_app_nil_l. split.
    + intros Hm. exists "", m. by rewrite same_text_nil.
    + intros (m1 & m2 & -> & ->%same_text_nil & H2). done.
  - rewrite str_app_cons. split.
    + destruct m as [|c m]; [by intros ?%same_text_short|].
      intros [Hc (m1 & m2 & -> & H1 & H2)%IH]%same_text_cons.
      exists (String c m1), m2. split; [done|]. split; [|done].
      by apply same_text_cons.
    + intros (m1 & m2 & -> & H1 & H2).
      destruct m1 as [|c m1]; [by apply same_text_short in H1|].
      apply same_text_cons in H1 as [Hc H1]. rewrite str_app_cons.
      apply same_text_cons. split; [done|]. apply IH. by exists m1, m2.
Qed.

Lemma same_text_upper w m : same_text true w m ↔ toUpperCase m = toUpperCase w.
Proof. done. Qed.

Lemma opt_chr_same_text a prev m rest :
  lang true (opt (Chr a)) prev m rest
  ↔ same_text true "" m ∨ same_text true (String a "") m.
Proof.
  rewrite lang_opt_chr, same_text_nil. split.
  - intros [->|(c & -> & Hc)]; [by left|]. right.
    by apply same_text_cons, conj, same_text_nil.
  - intros [->|Hm]; [by left|]. right.
    destruct m as [|c m]; [by apply same_text_short in Hm|].
    apply same_text_cons in Hm as [Hc ->%same_text_nil]. by exists c.
Qed.

Lemma not_space_run prev w rest :
  lang true (plus (Cls true cls_s)) prev w rest
  ↔ w ≠ "" ∧ forall_chars (fun c => negb (is_space c)) w = true.
Proof.
  unfold plus. rewrite lang_rep_cls, (forall_chars_ext _ _ _ cls_not_space),
    length_pos_nonempty.
  naive_solver.
Qed.

Lemma websitePattern_shape prev m rest :
  lang true websitePattern prev m rest ↔ web_shape m.
Proof.
  unfold websitePattern, web_shape, web_prefixes, cat.
  rewrite lang_alt_iff. split.
  - intros [H|H].
    + apply lang_cat_iff in H as (p1 & m1 & -> & H1%lang_lit & H).
      apply lang_cat_iff in H as (o & m2 & -> & Ho%opt_chr_same_text & H).
      apply lang_cat_iff in H as (p3 & w & -> & H3%lang_lit & [Hw1 Hw]%not_space_run).
      exists (p1 +:+ o +:+ p3), w. rewrite !str_app_assoc.
      split; [done|]. split; [|done].
      destruct Ho as [Ho|Ho].
      * assert (Hp : same_text true ("http" +:+ "" +:+ "://") (p1 +:+ o +:+ p3)).
        { apply same_text_app. exists p1, (o +:+ p3). split; [done|]. split; [done|].
          apply same_text_app. by exists o, p3. }
        apply same_text_upper in Hp. rewrite Hp. set_solver.
      * assert (Hp : same_text true ("http" +:+ "s" +:+ "://") (p1 +:+ o +:+ p3)).
        { apply same_text_app. exists p1, (o +:+ p3). split; [done|]. split; [done|].
          apply same_text_app. by exists o, p3. }
        apply same_text_upper in Hp. rewrite Hp. set_solver.
    + apply lang_cat_iff in H as (p & w & -> & Hp%lang_lit & [Hw1 Hw]%not_space_run).
      exists p, w. split; [done|]. split; [|done].
      apply same_text_upper in Hp. rewrite Hp. set_solver.
  - intros (p & w & -> & Hp & Hw).
    apply elem_of_cons in Hp as [Hp|Hp]; [|apply elem_of_cons in Hp as [Hp|Hp]].
    + left.
      apply (same_text_upper ("http" +:+ "" +:+ "://")) in Hp.
      apply same_text_app in Hp as (p1 & m1 & -> & H1 & Hp).
      apply same_text_app in Hp as (o & p3 & -> & Ho & H3).
      rewrite !str_app_assoc.
      apply lang_cat_iff. exists p1, (o +:+ p3 +:+ w). split; [done|].
      split; [by apply lang_lit|].
      apply lang_cat_iff. exists o, (p3 +:+ w). split; [done|].
      split; [apply opt_chr_same_text; by left|].
      apply lang_cat_iff. exists p3, w. split; [done|].
      split; [by apply lang_lit | by apply not_space_run].
    + left.
      apply (same_text_upper ("http" +:+ "s" +:+ "://")) in Hp.
      apply same_text_app in Hp as (p1 & m1 & -> & H1 & Hp).
      apply same_text_app in Hp as (o & p3 & -> & Ho & H3).
      rewrite !str_app_assoc.
      apply lang_cat_iff. exists p1, (o +:+ p3 +:+ w). split; [done|].
      split; [by apply lang_lit|].
      apply lang_cat_iff. exists o, (p3 +:+ w). split; [done|].
      split; [apply opt_chr_same_text; by right|].
      apply lang_cat_iff. exists p3, w. split; [done|].
      split; [by apply lang_lit | by apply not_space_run].
    + apply list_elem_of_singleton in Hp. right.
      apply (same_text_upper "www.") in Hp.
      apply lang_cat_iff. exists p, w. split; [done|].
      split; [by apply lang_lit | by apply not_space_run].
Qed.

(** X24. The website field: when the normalised text holds a web address (one
    of [http://], [https://] and [www.] in any case, then one character or
    more, none of them white space), the field is such an address taken from
    the text; when it holds none, the field is empty. *)
Theorem website_field (text : string) :
  let w := website (extractTextInfoEnhanced text) in
  (w ≠ "" → web_shape w ∧ ∃ b a, clean text = b +:+ w +:+ a)
  ∧ (w = "" ↔ ∀ b m a, clean text = b +:+ m +:+ a → ¬ web_shape m).
Proof.
  assert (Hempty : ¬ web_shape "").
  { intros (p & w & Hm & Hp & Hw & _). destruct p; [by destruct w | done]. }
  destruct text as [|c text].
  { simpl. split; [done|]. split; [|done]. intros _ b m a Hs.
    destruct b; [|done]. destruct m; [done|done]. }
  cbn zeta. unfold extractTextInfoEnhanced. cbn [website].
  pose proof (first_match_shape true websitePattern (fun _ m _ => web_shape m)
                (clean (String c text)) eq_refl websitePattern_shape) as Hfield.
  destruct (first_match true websitePattern (clean (String c text))) as [m|]; simpl.
  - destruct Hfield as (b & a & Hs & Hm). split.
    + intros _. split; [done|]. by exists b, a.
    + split.
      * intros ->. done.
      * intros Hnone. by destruct (Hnone b m a Hs).
  - split; [done|]. split; [|done]. intros _. exact Hfield.
Qed.

Lemma pincodePattern_shape prev m rest :
  lang false pincodePattern prev m rest ↔ pin_shape prev m rest.
Proof.
  unfold pincodePattern, pin_shape, cat, times, re_digit. split.
  - intros (e1 & m1 & -> & H1 & H)%lang_cat_iff.
    apply lang_cat_iff in H as (d & e2 & -> & Hd & H2).
    inversion H1 as [| | | | | | | | | |? ? Hx1]; subst.
    inversion H2 as [| | | | | | | | | |? ? Hx2]; subst.
    apply lang_rep_cls in Hd as (Hd & Hlo & Hhi). specialize (Hhi 6 eq_refl).
    rewrite (forall_chars_ext _ _ _ (cls_digit false)) in Hd.
    rewrite str_app_nil_l, str_app_nil_r in *. simpl in Hx2.
    split; [lia|]. split; [done|].
    destruct d as [|c d]; [simpl in Hlo; lia|].
    rewrite str_app_cons in Hx1. simpl in Hx1, Hd.
    apply andb_prop in Hd as [Hc Hd].
    assert (Hw : is_word c = true) by (unfold is_word; by rewrite Hc, orb_true_r).
    rewrite Hw in Hx1. 
    assert (Hlast : word_before (last_char prev (String c d)) = true).
    { simpl. clear -Hc Hd. revert c Hc. induction d as [|c' d IH]; intros c Hc; simpl.
      - unfold is_word. by rewrite Hc, orb_true_r.
      - simpl in Hd. apply andb_prop in Hd as [Hc' Hd]. by apply IH. }
    rewrite Hlast in Hx2.
    split; [by destruct (word_before prev) | by destruct (word_after rest)].
  - intros (Hlen & Hd & Hb & Ha).
    destruct m as [|c d]; [done|]. simpl in Hd. apply andb_prop in Hd as [Hc Hd].
    assert (Hw : is_word c = true) by (unfold is_word; by rewrite Hc, orb_true_r).
    assert (Hlast : word_before (last_char prev (String c d)) = true).
    { simpl. clear -Hc Hd. revert c Hc. induction d as [|c' d IH]; intros c Hc; simpl.
      - unfold is_word. by rewrite Hc, orb_true_r.
      - simpl in Hd. apply andb_prop in Hd as [Hc' Hd]. by apply IH. }
    apply lang_cat_iff. exists "", (String c d). split; [done|]. split.
    { constructor. rewrite str_app_cons. simpl. by rewrite Hb, Hw. }
    apply lang_cat_iff. exists (String c d), "". split; [by rewrite str_app_nil_r|]. split.
    { apply lang_rep_cls. rewrite (forall_chars_ext _ _ _ (cls_digit false)).
      simpl. rewrite Hc, Hd. repeat split; [simpl in Hlen; lia|].
      intros h [= <-]. simpl in Hlen. lia. }
    constructor. cbn [last_char] in *. by rewrite Hlast, Ha.
Qed.

(** X25. The postal code: when the normalised text holds six digits that no
    letter, digit or underscore touches, the other information is the one
    entry [Pincode: ] followed by such six digits of the text; when it holds
    none, there is no entry. *)
Theorem pincode_entry (text : string) :
  let o := otherInfo (extractTextInfoEnhanced text) in
  (o ≠ [] → ∃ b m a, o = ["Pincode: " +:+ m] ∧ clean text = b +:+ m +:+ a
                     ∧ pin_shape (last_char None b) m a)
  ∧ (o = [] ↔ ∀ b m a, clean text = b +:+ m +:+ a → ¬ pin_shape (last_char None b) m a).
Proof.
  destruct text as [|c text].
  { simpl. split; [done|]. split; [|done]. intros _ b m a Hs.
    destruct b; [|done]. destruct m; [|done]. by intros [? _]. }
  cbn zeta. unfold extractTextInfoEnhanced. cbn [otherInfo].
  pose proof (first_match_shape false pincodePattern pin_shape
                (clean (String c text)) eq_refl pincodePattern_shape) as Hfield.
  destruct (first_match false pincodePattern (clean (String c text))) as [m|].
  - destruct Hfield as (b & a & Hs & Hm). split.
    + intros _. by exists b, m, a.
    + split; [done|]. intros Hnone. by destruct (Hnone b m a Hs).
  - split; [done|]. split; [|done]. intros _. exact Hfield.
Qed.

(** ** The phone number *)

Lemma all_chars_eq (f g : ascii → bool) :
  forallb (fun c => Bool.eqb (f c) (g c)) all_chars = true → ∀ c, f c = g c.
Proof.
  intros Hall c. rewrite forallb_forall in Hall. apply Bool.eqb_prop, Hall.
  rewrite <- (ascii_nat_embedding c). apply in_map, in_seq.
  pose proof (nat_ascii_bounded c). lia.
Qed.

Lemma all_chars_impl (f g : ascii → bool) :
  forallb (fun c => implb (f c) (g c)) all_chars = true →
  ∀ c, f c = true → g c = true.
Proof.
  intros Hall c Hf. rewrite forallb_forall in Hall.
  assert (Hc : implb (f c) (g c) = true).
  { apply Hall. rewrite <- (ascii_nat_embedding c). apply in_map, in_seq.
    pose proof (nat_ascii_bounded c). lia. }
  by rewrite Hf in Hc.
Qed.

Lemma upper_of_lower c :
  is_lower c = true → is_upper (ascii_of_nat (code c - 32)) = true.
Proof.
  revert c. apply (all_chars_impl is_lower (fun c => is_upper (ascii_of_nat (code c - 32)))).
  by vm_compute.
Qed.

Lemma chr_exact_ci ic a c :
  is_alpha a = false → chr_matches ic a c = true → c = a.
Proof.
  unfold chr_matches, is_alpha. intros [Hup Hlow]%orb_false_elim. destruct ic.
  - unfold upper_char. rewrite Hlow. intros Heq%Ascii.eqb_eq.
    destruct (is_lower c) eqn:Hc; [|done].
    apply upper_of_lower in Hc. rewrite <- Heq in Hc. congruence.
  - by intros ?%Ascii.eqb_eq.
Qed.

Lemma cls_sep ic c :
  cls_matches ic false (cls_s ++ [one "-"%char]) c = is_space c || Ascii.eqb c "-".
Proof.
  revert c. destruct ic.
  - apply (all_chars_eq (cls_matches true false (cls_s ++ [one "-"%char]))
             (fun c => is_space c || Ascii.eqb c "-")). by vm_compute.
  - apply (all_chars_eq (cls_matches false false (cls_s ++ [one "-"%char]))
             (fun c => is_space c || Ascii.eqb c "-")). by vm_compute.
Qed.

Lemma cls_colon_space c :
  cls_matches true false (one ":"%char :: cls_s) c = Ascii.eqb c ":" || is_space c.
Proof.
  revert c. apply (all_chars_eq (cls_matches true false (one ":"%char :: cls_s))
                     (fun c => Ascii.eqb c ":" || is_space c)). by vm_compute.
Qed.

Lemma cls_high_digit ic c :
  cls_matches ic false [("6", "9")]%char c = true → is_digit c = true.
Proof.
  revert c. destruct ic.
  - apply (all_chars_impl (cls_matches true false [("6", "9")]%char) is_digit).
    by vm_compute.
  - apply (all_chars_impl (cls_matches false false [("6", "9")]%char) is_digit).
    by vm_compute.
Qed.

Lemma cls_space_any ic c : cls_matches ic false cls_s c = is_space c.
Proof.
  revert c. destruct ic.
  - apply (all_chars_eq (cls_matches true false cls_s) is_space). by vm_compute.
  - apply (all_chars_eq (cls_matches false false cls_s) is_space). by vm_compute.
Qed.

Lemma forall_chars_app p a b :
  forall_chars p (a +:+ b) = forall_chars p a && forall_chars p b.
Proof.
  induction a as [|c a IH]; [done|]. rewrite str_app_cons. simpl.
  by rewrite IH, andb_assoc.
Qed.

Lemma filter_chars_app p a b :
  filter_chars p (a +:+ b) = filter_chars p a +:+ filter_chars p b.
Proof.
  induction a as [|c a IH]; [done|]. rewrite str_app_cons. simpl.
  destruct (p c); [|done]. by rewrite str_app_cons, IH.
Qed.

Lemma filter_chars_all p q s :
  (∀ c, p c = true → q c = true) → forall_chars p s = true → filter_chars q s = s.
Proof.
  intros Hpq. induction s as [|c s IH]; [done|]. simpl.
  intros [Hc Hs]%andb_prop. by rewrite (Hpq c Hc), (IH Hs).
Qed.

Lemma digit_not_space c : is_digit c = true → not_space c = true.
Proof. revert c. apply (all_chars_impl is_digit not_space). by vm_compute. Qed.

Lemma digit_body_char c : is_digit c = true → body_char c = true.
Proof. unfold body_char. by intros ->. Qed.

Lemma lang_sep_opt ic prev m rest :
  lang ic re_sep_opt prev m rest →
  m = "" ∨ ∃ x, m = String x "" ∧ is_space x || Ascii.eqb x "-" = true.
Proof.
  unfold re_sep_opt, opt. intros (Hall & _ & Hhi)%lang_rep_cls.
  specialize (Hhi 1 eq_refl).
  destruct m as [|x [|y m]]; [by left | | simpl in Hhi; lia].
  right. exists x. split; [done|]. cbn [forall_chars] in Hall. rewrite cls_sep in Hall.
  by rewrite andb_true_r in Hall.
Qed.

Lemma lang_digits ic lo hi prev m rest :
  lang ic (Rep lo (Some hi) re_digit) prev m rest →
  forall_chars is_digit m = true ∧ lo ≤ String.length m ≤ hi.
Proof.
  unfold re_digit. intros (Hall & Hlo & Hhi)%lang_rep_cls.
  rewrite (forall_chars_ext _ _ _ (cls_digit ic)) in Hall.
  specialize (Hhi hi eq_refl). done.
Qed.

Lemma same_text_exact ic w m :
  forall_chars (fun c => negb (is_alpha c)) w = true → same_text ic w m → m = w.
Proof.
  revert m. induction w as [|a w IH]; intros m Hw Hm.
  - by apply same_text_nil in Hm.
  - destruct m as [|c m]; [by apply same_text_short in Hm|].
    simpl in Hw. apply andb_prop in Hw as [Ha%negb_true_iff Hw].
    apply same_text_cons in Hm as [Hc Hm].
    by rewrite (chr_exact_ci _ _ _ Ha Hc), (IH _ Hw Hm).
Qed.

(** The country code and what comes before it. *)
Lemma lang_phone_head ic r prev m rest :
  lang ic (Cat (opt (Chr "+")) (Cat (lit "91") (Cat re_sep_opt r))) prev m rest →
  ∃ pl sep t prev',
    m = pl +:+ "91" +:+ sep +:+ t
    ∧ (pl = "" ∨ pl = "+")
    ∧ (sep = "" ∨ ∃ x, sep = String x "" ∧ is_space x || Ascii.eqb x "-" = true)
    ∧ lang ic r prev' t rest.
Proof.
  intros (pl & m1 & -> & Hpl%lang_opt_chr & H)%lang_cat_iff.
  apply lang_cat_iff in H as (cc & m2 & -> & Hcc%lang_lit & H).
  apply lang_cat_iff in H as (sep & t & -> & Hsep%lang_sep_opt & Ht).
  apply same_text_exact in Hcc as ->; [|done].
  eexists pl, sep, t, _. split; [done|]. split; [|by split].
  destruct Hpl as [->|(c & -> & Hc)]; [by left|]. right.
  by apply chr_exact_ci in Hc as ->.
Qed.

Lemma digits_facts d :
  forall_chars is_digit d = true →
  forall_chars body_char d = true
  ∧ filter_chars is_digit d = d
  ∧ filter_chars not_space d = d.
Proof.
  intros Hd. split; [|split].
  - by apply (forall_chars_impl _ _ _ digit_body_char).
  - by apply (filter_chars_all is_digit).
  - by apply (filter_chars_all is_digit), Hd; apply digit_not_space.
Qed.

Lemma sep_facts sep :
  sep = "" ∨ (∃ x, sep = String x "" ∧ is_space x || Ascii.eqb x "-" = true) →
  forall_chars body_char sep = true
  ∧ filter_chars is_digit sep = ""
  ∧ String.length (filter_chars not_space sep) ≤ 1.
Proof.
  intros [->|(x & -> & Hx)]; [by repeat split; simpl; lia|].
  assert (Hbody : body_char x = true).
  { unfold body_char. apply orb_prop in Hx as [->| ->]; by rewrite ?orb_true_r. }
  assert (Hdigit : is_digit x = false).
  { revert x Hx Hbody.
    enough (∀ x, is_space x || Ascii.eqb x "-" = true → negb (is_digit x) = true) as H.
    { intros x Hx _. by apply negb_true_iff, H. }
    apply (all_chars_impl (fun x => is_space x || Ascii.eqb x "-")
             (fun x => negb (is_digit x))). by vm_compute. }
  simpl. rewrite Hbody, Hdigit. repeat split. destruct (not_space x); simpl; lia.
Qed.

Lemma phone_body_of pl sep t :
  (pl = "" ∨ pl = "+") →
  (sep = "" ∨ ∃ x, sep = String x "" ∧ is_space x || Ascii.eqb x "-" = true) →
  (∃ y d, t = y +:+ d ∧ d ≠ "" ∧ forall_chars is_digit d = true) →
  forall_chars body_char t = true →
  9 ≤ String.length (filter_chars is_digit t) →
  String.length (filter_chars not_space t) ≤ 12 →
  phone_body (pl +:+ "91" +:+ sep +:+ t).
Proof.
  intros Hpl Hsep Ht Hall Hdigits Hlen.
  destruct (sep_facts sep Hsep) as (Hs1 & Hs2 & Hs3).
  split; [|split; [|split; [|split]]].
  - destruct Hpl as [->| ->]; eexists _, _; (split; [reflexivity|]); auto.
  - destruct Ht as (y & d & -> & Hd1 & Hd).
    exists (pl +:+ "91" +:+ sep +:+ y), d. by rewrite !str_app_assoc.
  - rewrite !forall_chars_app, Hs1, Hall. by destruct Hpl as [->| ->].
  - rewrite !filter_chars_app, Hs2, !str_app_length.
    destruct Hpl as [->| ->]; simpl; lia.
  - rewrite !filter_chars_app, !str_app_length.
    destruct Hpl as [->| ->]; simpl; lia.
Qed.

Lemma mobile_body prev m rest : lang false re_mobile prev m rest → phone_body m.
Proof.
  unfold re_mobile, cat.
  intros (pl & sep & t & prev' & -> & Hpl & Hsep & Ht)%lang_phone_head.
  apply lang_cat_iff in Ht as (c & d & -> & Hc & Hd).
  inversion Hc as [| |? ? c' ? ? Hc'| | | | | | | |]; subst.
  apply cls_high_digit in Hc'. apply lang_digits in Hd as [Hd Hlen].
  destruct (digits_facts d Hd) as (Hd1 & Hd2 & Hd3).
  apply phone_body_of; try done.
  - exists (String c' ""), d. split; [done|]. split; [|done]. destruct d; [simpl in Hlen; lia|done].
  - rewrite forall_chars_app, Hd1. simpl. by rewrite (digit_body_char _ Hc').
  - rewrite filter_chars_app, Hd2, str_app_length. simpl. rewrite Hc'. simpl. lia.
  - rewrite filter_chars_app, Hd3, str_app_length. simpl.
    rewrite (digit_not_space _ Hc'). simpl. lia.
Qed.

Lemma landline_body ic prev m rest : lang ic re_landline prev m rest → phone_body m.
Proof.
  unfold re_landline, cat, between.
  intros (pl & sep & t & prev' & -> & Hpl & Hsep & Ht)%lang_phone_head.
  apply lang_cat_iff in Ht as (d1 & t' & -> & [Hd1 Hlen1]%lang_digits & Ht).
  apply lang_cat_iff in Ht as (sep2 & d2 & -> & Hsep2%lang_sep_opt & [Hd2 Hlen2]%lang_digits).
  destruct (digits_facts d1 Hd1) as (Ha1 & Ha2 & Ha3).
  destruct (digits_facts d2 Hd2) as (Hb1 & Hb2 & Hb3).
  destruct (sep_facts sep2 Hsep2) as (Hs1 & Hs2 & Hs3).
  apply phone_body_of; try done.
  - exists (d1 +:+ sep2), d2. rewrite str_app_assoc. split; [done|]. split; [|done].
    destruct d2; [simpl in Hlen2; lia|done].
  - by rewrite !forall_chars_app, Ha1, Hs1, Hb1.
  - rewrite !filter_chars_app, Ha2, Hs2, Hb2, !str_app_length. simpl. lia.
  - rewrite !filter_chars_app, Ha3, Hb3, !str_app_length. lia.
Qed.

Lemma bounded_lit w : bounded (lit w) = true.
Proof.
  induction w as [|a w IH]; [done|]. destruct w as [|b w]; [done|].
  change (bounded (lit (String a (String b w))))
    with (true && bounded (lit (String b w))).
  by rewrite IH.
Qed.

Lemma same_text_length ic w m : same_text ic w m → String.length m = String.length w.
Proof.
  revert m. induction w as [|a w IH]; intros m Hm.
  - by apply same_text_nil in Hm as ->.
  - destruct m as [|c m]; [by apply same_text_short in Hm|].
    apply same_text_cons in Hm as [_ Hm]. simpl. by rewrite (IH _ Hm).
Qed.

Lemma str_app_inj a b c d :
  String.length a = String.length c → a +:+ b = c +:+ d → a = c ∧ b = d.
Proof.
  revert c. induction a as [|x a IH]; intros [|y c] Hlen Heq; try done.
  rewrite !str_app_cons in Heq. simplify_eq/=.
  destruct (IH c) as [-> ->]; [lia | done | done].
Qed.

(** A literal under a continuation: the text is consumed, the continuation
    decides. *)
Lemma rmatch_lit_app ic w k prev m rest :
  same_text ic w m →
  rmatch ic (lit w) k prev (m +:+ rest) = k (last_char prev m) rest.
Proof.
  intros Hm. destruct (rmatch ic (lit w) k prev (m +:+ rest)) as [e|] eqn:Hrun.
  - apply (rmatch_sound ic (lit w) (bounded_lit w)) in Hrun
      as (m1 & rest1 & Heq & Hm1%lang_lit & Hk).
    apply str_app_inj in Heq as [-> ->]; [done|].
    by rewrite (same_text_length _ _ _ Hm), (same_text_length _ _ _ Hm1).
  - symmetry. apply (rmatch_complete ic (lit w) _ _ _ Hrun m rest eq_refl).
    by apply lang_lit.
Qed.

Lemma span_app_run p a b :
  forall_chars p a = true →
  match b with String c _ => p c = false | EmptyString => True end →
  span p (a +:+ b) = (a, b).
Proof.
  intros Ha Hb. induction a as [|c a IH].
  - rewrite str_app_nil_l. destruct b as [|c b]; [done|]. simpl. by rewrite Hb.
  - simpl in Ha. apply andb_prop in Ha as [Hc Ha]. rewrite str_app_cons. simpl.
    by rewrite Hc, (IH Ha).
Qed.

(** A starred class before the end of the pattern takes the whole run. *)
Lemma rmatch_star_run ic rs p prev a b :
  (∀ c, cls_matches ic false rs c = p c) →
  forall_chars p a = true →
  match b with String c _ => p c = false | EmptyString => True end →
  rmatch ic (star (Cls false rs)) at_end prev (a +:+ b) = Some b.
Proof.
  intros Hp Ha Hb. unfold star. rewrite rmatch_rep_cls, (greedy_ext _ p) by done.
  rewrite greedy_accept; rewrite (span_app_run p a b Ha Hb); cbn [fst snd];
    [done | lia | done].
Qed.

Lemma replace_first_label_found s body :
  match_here true re_phone_label None s = Some body →
  replace_first true re_phone_label "" s = body.
Proof.
  intros Hhere. unfold replace_first, re_phone_label in *.
  rewrite search_anchored, Hhere. done.
Qed.

(** A number that starts with a plus sign or a digit has no label. *)
Lemma replace_first_label_absent c s :
  c = "+"%char ∨ c = "9"%char →
  replace_first true re_phone_label "" (String c s) = String c s.
Proof.
  intros Hc. unfold replace_first, re_phone_label.
  rewrite search_anchored.
  assert (match_here true
            (Cat Bol (Alt (Cat (lit "Tel") (star (Cls false (one ":"%char :: cls_s))))
                          (Cat (Chr "M") (star (Cls false cls_s)))))
            None (String c s) = None) as ->; [|done].
  unfold match_here. by destruct Hc as [-> | ->].
Qed.

Lemma body_starts_solid body :
  phone_body body →
  match body with
  | String c _ => is_space c = false ∧ Ascii.eqb c ":" || is_space c = false
  | EmptyString => False
  end.
Proof. intros [(c & s' & -> & [-> | ->]) _]; done. Qed.

(** The label [Tel], in any case, with its colons and white space. *)
Lemma replace_first_label_tel t cs body :
  same_text true "Tel" t →
  forall_chars (fun c => Ascii.eqb c ":" || is_space c) cs = true →
  phone_body body →
  replace_first true re_phone_label "" (t +:+ cs +:+ body) = body.
Proof.
  intros Ht Hcs Hbody. apply replace_first_label_found.
  unfold match_here, re_phone_label.
  rewrite rmatch_cat, rmatch_bol.
  assert (rmatch true (Cat (lit "Tel") (star (Cls false (one ":"%char :: cls_s))))
            at_end None (t +:+ cs +:+ body) = Some body) as Hrun.
  { rewrite rmatch_cat, rmatch_lit_app by done.
    apply rmatch_star_run with (p := fun c => Ascii.eqb c ":" || is_space c);
      [apply cls_colon_space | done |].
    apply body_starts_solid in Hbody. destruct body; [done|]. by destruct Hbody. }
  change (rmatch true (Alt ?a ?b) at_end None ?s)
    with (match rmatch true a at_end None s with
          | Some e => Some e
          | None => rmatch true b at_end None s
          end).
  by rewrite Hrun.
Qed.

(** The label [M] with its white space. *)
Lemma replace_first_label_m sp body :
  forall_chars is_space sp = true →
  phone_body body →
  replace_first true re_phone_label "" ("M" +:+ sp +:+ body) = body.
Proof.
  intros Hsp Hbody. apply replace_first_label_found.
  unfold match_here, re_phone_label.
  rewrite rmatch_cat, rmatch_bol.
  change (rmatch true (Alt ?a ?b) at_end None ?s)
    with (match rmatch true a at_end None s with
          | Some e => Some e
          | None => rmatch true b at_end None s
          end).
  assert (rmatch true (Cat (lit "Tel") (star (Cls false (one ":"%char :: cls_s))))
            at_end None ("M" +:+ sp +:+ body) = None) as -> by done.
  rewrite rmatch_cat, str_app_cons, rmatch_chr.
  change (chr_matches true "M" "M") with true. cbv iota. rewrite str_app_nil_l.
  apply rmatch_star_run with (p := is_space); [apply cls_space_any | done |].
  apply body_starts_solid in Hbody. destruct body; [done|]. by destruct Hbody.
Qed.

Lemma collapse_empty in_run s : collapse "" in_run s = filter_chars not_space s.
Proof.
  revert in_run. induction s as [|c s IH]; intros in_run; [done|]. simpl.
  unfold not_space at 1. destruct (is_space c); simpl.
  - destruct in_run; [apply IH|]. rewrite str_app_nil_l. apply IH.
  - by rewrite IH.
Qed.

Lemma trim_phone x body :
  match x +:+ body with String c _ => is_space c = false | EmptyString => True end →
  phone_body body → trim (x +:+ body) = x +:+ body.
Proof.
  intros Hstart (_ & (y & d & -> & Hd1 & Hd) & _).
  assert (Hsolid : solid d).
  { split; [done|]. apply (forall_chars_impl is_digit); [|done].
    intros c Hc. by apply digit_not_space in Hc. }
  rewrite <- str_app_assoc in *.
  destruct (x +:+ y) as [|c s] eqn:Hxy.
  - rewrite str_app_nil_l in *. unfold trim.
    destruct d as [|c d]; [done|]. simpl in Hstart |- *. rewrite Hstart.
    by apply trimEnd_solid.
  - rewrite str_app_cons in Hstart. by apply trim_capitalised.
Qed.

(** What the loop stores for a number without a label, and with one. *)
Lemma phone_of_match_body body :
  phone_body body → phone_of_match body = filter_chars not_space body.
Proof.
  intros Hbody. unfold phone_of_match.
  pose proof Hbody as [(c & s' & -> & Hc) _].
  rewrite <- (str_app_nil_l (String c s')) at 1.
  rewrite trim_phone, str_app_nil_l; [| |done].
  - rewrite replace_first_label_absent by done.
    by rewrite replace_all_spaces, collapse_empty.
  - rewrite str_app_nil_l. by destruct Hc as [-> | ->].
Qed.

Lemma filter_body_digits s :
  forall_chars body_char s = true →
  forall_chars phone_digit (filter_chars not_space s) = true.
Proof.
  induction s as [|c s IH]; [done|]. simpl.
  intros [Hc Hs]%andb_prop. unfold not_space at 1.
  destruct (is_space c) eqn:Hsp; simpl; [by apply IH|].
  rewrite (IH Hs), andb_true_r. unfold body_char in Hc. unfold phone_digit.
  by rewrite Hsp, orb_false_r in Hc.
Qed.

Lemma filter_digits_le s :
  String.length (filter_chars is_digit s) ≤ String.length (filter_chars not_space s).
Proof.
  induction s as [|c s IH]; [done|]. simpl.
  destruct (is_digit c) eqn:Hc.
  - rewrite (digit_not_space _ Hc). simpl. lia.
  - destruct (not_space c); simpl; lia.
Qed.

Lemma phone_body_stored body :
  phone_body body →
  11 ≤ String.length (filter_chars not_space body) ≤ 16
  ∧ forall_chars phone_digit (filter_chars not_space body) = true.
Proof.
  intros (_ & _ & Hall & Hdigits & Hlen).
  pose proof (filter_digits_le body). split; [lia|]. by apply filter_body_digits.
Qed.

(** Each of the four patterns, whatever it matches, leaves a number. *)
Lemma phone_of_match_stored ic r s m :
  (ic, r) ∈ phonePatterns → first_match ic r s = Some m →
  11 ≤ String.length (phone_of_match m) ≤ 16
  ∧ forall_chars phone_digit (phone_of_match m) = true.
Proof.
  intros Hin Hm.
  assert (Hb : bounded r = true).
  { unfold phonePatterns in Hin. rewrite !elem_of_cons, elem_of_nil in Hin.
    destruct Hin as [?|[?|[?|[?|[]]]]]; by simplify_eq. }
  apply first_match_sound in Hm as (b & a & _ & Hlang); [|done].
  unfold phonePatterns in Hin. rewrite !elem_of_cons, elem_of_nil in Hin.
  destruct Hin as [?|[?|[?|[?|[]]]]]; simplify_eq.
  - apply mobile_body in Hlang.
    rewrite phone_of_match_body by done. by apply phone_body_stored.
  - unfold cat in Hlang.
    apply lang_cat_iff in Hlang as (l & m1 & -> & (c & -> & ->%chr_exact)%lang_chr_iff & H).
    apply lang_cat_iff in H as (sp & body & -> & Hsp & Hbody%mobile_body).
    apply lang_rep_cls in Hsp as (Hsp & _).
    rewrite (forall_chars_ext _ _ _ (cls_space_any false)) in Hsp.
    unfold phone_of_match.
    assert (trim ("M" +:+ sp +:+ body) = "M" +:+ sp +:+ body) as ->.
    { rewrite <- str_app_assoc. apply trim_phone; [|done].
      by rewrite str_app_assoc, str_app_cons. }
    rewrite replace_first_label_m by done.
    rewrite replace_all_spaces, collapse_empty. by apply phone_body_stored.
  - unfold cat in Hlang.
    apply lang_cat_iff in Hlang as (t & m1 & -> & Ht%lang_lit & H).
    apply lang_cat_iff in H as (cs & body & -> & Hcs & Hbody%landline_body).
    apply lang_rep_cls in Hcs as (Hcs & _).
    rewrite (forall_chars_ext _ _ _ cls_colon_space) in Hcs.
    unfold phone_of_match.
    assert (trim (t +:+ cs +:+ body) = t +:+ cs +:+ body) as ->.
    { rewrite <- str_app_assoc. apply trim_phone; [|done]. rewrite str_app_assoc.
      destruct t as [|c t]; [by apply same_text_short in Ht|].
      apply same_text_cons in Ht as [Hc _]. rewrite str_app_cons.
      destruct (is_space c) eqn:Hsp; [|done]. exfalso. revert c Hsp Hc.
      enough (∀ c, is_space c = true → negb (chr_matches true "T" c) = true) as H.
      { intros c Hsp Hc. apply H in Hsp. by rewrite Hc in Hsp. }
      apply (all_chars_impl is_space (fun c => negb (chr_matches true "T" c))).
      by vm_compute. }
    rewrite replace_first_label_tel by done.
    rewrite replace_all_spaces, collapse_empty. by apply phone_body_stored.
  - apply landline_body in Hlang.
    rewrite phone_of_match_body by done. by apply phone_body_stored.
Qed.

Lemma find_phone_spec ps s :
  (∀ ic r m, (ic, r) ∈ ps → first_match ic r s = Some m →
             10 ≤ String.length (phone_of_match m)) →
  match find_phone ps s with
  | Some p => ∃ ic r m, (ic, r) ∈ ps ∧ first_match ic r s = Some m ∧ p = phone_of_match m
  | None => ∀ ic r, (ic, r) ∈ ps → first_match ic r s = None
  end.
Proof.
  induction ps as [|[ic r] ps IH]; intros Hlen.
  - simpl. by intros ic r ?%elem_of_nil.
  - cbn [find_phone].
    assert (IH' := IH (fun ic' r' m' Hin => Hlen ic' r' m' (list_elem_of_further _ _ _ Hin))).
    destruct (first_match ic r s) as [m|] eqn:Hm.
    + fold (phone_of_match m).
      assert ((10 <=? String.length (phone_of_match m)) = true) as ->.
      { apply Nat.leb_le. apply (Hlen ic r m); [left | done]. }
      exists ic, r, m. split; [left | done].
    + destruct (find_phone ps s) as [p|].
      * destruct IH' as (ic' & r' & m' & Hin & Hm' & ->).
        exists ic', r', m'. split; [by right | done].
      * intros ic' r' [?|Hin]%elem_of_cons; [by simplify_eq | by apply IH'].
Qed.

(** X26. The phone field: empty exactly when the normalised text holds no
    match of any of the four phone patterns (the length test never rejects a
    match); otherwise 11 to 16 characters, each a digit, a plus sign or a
    dash, with no label and no white space left. *)
Theorem phone_field (text : string) :
  let p := phone (extractTextInfoEnhanced text) in
  (p = "" ↔ ∀ ic r, (ic, r) ∈ phonePatterns → ¬ holds ic r (clean text))
  ∧ (p ≠ "" → 11 ≤ String.length p ≤ 16 ∧ forall_chars phone_digit p = true).
Proof.
  assert (Hb : ∀ ic r, (ic, r) ∈ phonePatterns → bounded r = true).
  { intros ic r Hin. unfold phonePatterns in Hin.
    rewrite !elem_of_cons, elem_of_nil in Hin.
    destruct Hin as [?|[?|[?|[?|[]]]]]; by simplify_eq. }
  assert (Hnone : ∀ s ic r, (ic, r) ∈ phonePatterns →
            first_match ic r s = None ↔ ¬ holds ic r s).
  { intros s ic r Hin. rewrite <- (first_match_holds ic r s (Hb ic r Hin)).
    rewrite <- eq_None_not_Some. done. }
  destruct text as [|c text].
  { cbn zeta. split; [|done]. split; [|done]. intros _ ic r Hin.
    apply Hnone; [done|].
    unfold phonePatterns in Hin. rewrite !elem_of_cons, elem_of_nil in Hin.
    destruct Hin as [?|[?|[?|[?|[]]]]]; simplify_eq; by vm_compute. }
  cbn zeta. unfold extractTextInfoEnhanced. cbn [phone].
  pose proof (find_phone_spec phonePatterns (clean (String c text))) as Hspec.
  destruct (find_phone phonePatterns (clean (String c text))) as [p|]; simpl.
  - destruct Hspec as (ic & r & m & Hin & Hm & ->).
    { intros ic r m Hin Hm.
      destruct (phone_of_match_stored ic r _ m Hin Hm) as [? _]. lia. }
    destruct (phone_of_match_stored ic r _ m Hin Hm) as [Hlen Hall].
    split; [|done]. split.
    + intros Hp. rewrite Hp in Hlen. simpl in Hlen. lia.
    + intros Hno. apply (Hnone _ ic r Hin) in Hno; [|done]. congruence.
  - split; [|done]. split; [|done]. intros _ ic r Hin. apply Hnone; [done|].
    apply Hspec; [|done]. intros ic' r' m Hin' Hm.
    destruct (phone_of_match_stored ic' r' _ m Hin' Hm) as [? _]. lia.
Qed.

(** ** The title and the company *)

Lemma lang_alt_list ic rs prev m rest :
  lang ic (alt rs) prev m rest ↔ ∃ r, r ∈ rs ∧ lang ic r prev m rest.
Proof.
  induction rs as [|r rs IH].
  - simpl. split.
    + inversion 1 as [| |? ? c ? ? Hc| | | | | | | |]; subst.
      unfold cls_matches, in_ranges in Hc. simpl in Hc. by destruct ic.
    + by intros (r & ?%elem_of_nil & _).
  - destruct rs as [|r' rs].
    + simpl. split; [intros H; exists r; split; [left | done]|].
      by intros (r0 & ->%list_elem_of_singleton & H).
    + change (alt (r :: r' :: rs)) with (Alt r (alt (r' :: rs))).
      rewrite lang_alt_iff, IH. split.
      * intros [H|(r0 & Hin & H)]; [exists r; split; [left | done]|].
        exists r0. split; [by right | done].
      * intros (r0 & [->|Hin]%elem_of_cons & H); [by left | right; eauto].
Qed.

Lemma map_chars_app f a b : map_chars f (a +:+ b) = map_chars f a +:+ map_chars f b.
Proof. induction a as [|c a IH]; [done|]. rewrite !str_app_cons. simpl. by rewrite IH. Qed.

Lemma is_alpha_upper c : is_alpha (upper_char c) = is_alpha c.
Proof.
  revert c. apply (all_chars_eq (fun c => is_alpha (upper_char c)) is_alpha).
  by vm_compute.
Qed.

Lemma alpha_not_space c : is_alpha c = true → is_space c = false.
Proof.
  intros Hc. apply negb_true_iff. revert c Hc.
  apply (all_chars_impl is_alpha not_space). by vm_compute.
Qed.

Lemma chr_matches_alpha ic a c :
  chr_matches ic a c = true → is_alpha a = true → is_alpha c = true.
Proof.
  unfold chr_matches. destruct ic; intros Heq%Ascii.eqb_eq Ha.
  - by rewrite <- is_alpha_upper, <- Heq, is_alpha_upper.
  - by subst.
Qed.

Lemma same_text_word ic w m :
  word_ok w = true → same_text ic w m →
  m ≠ "" ∧ forall_chars is_alpha m = true.
Proof.
  unfold word_ok. intros [Hne Hw]%andb_prop Hm. split.
  - intros ->. destruct w; [done|]. by apply same_text_short in Hm.
  - clear Hne. revert m Hm. induction w as [|a w IH]; intros m Hm.
    + by apply same_text_nil in Hm as ->.
    + destruct m as [|c m]; [by apply same_text_short in Hm|].
      simpl in Hw. apply andb_prop in Hw as [Ha Hw].
      apply same_text_cons in Hm as [Hc Hm]. simpl.
      by rewrite (chr_matches_alpha _ _ _ Hc Ha), (IH Hw _ Hm).
Qed.

Lemma alpha_solid m : m ≠ "" → forall_chars is_alpha m = true → solid m.
Proof.
  intros Hne Hm. split; [done|]. apply (forall_chars_impl is_alpha); [|done].
  intros c Hc. by rewrite (alpha_not_space _ Hc).
Qed.

Lemma word_framed m : m ≠ "" → forall_chars is_alpha m = true → framed m.
Proof.
  intros Hne Hm. split.
  - destruct m as [|c m]; [done|]. exists c, m. split; [done|].
    simpl in Hm. apply andb_prop in Hm as [Hc _]. by apply alpha_not_space.
  - exists "", m. split; [done|]. by apply alpha_solid.
Qed.

Lemma framed_app x y : framed x → framed y → framed (x +:+ y).
Proof.
  intros [(c & s & -> & Hc) _] [_ (y' & d & -> & Hd)]. split.
  - exists c, (s +:+ y' +:+ d). by rewrite str_app_cons.
  - exists (String c s +:+ y'), d. by rewrite str_app_assoc.
Qed.

Lemma framed_mid x sp y : framed x → framed y → framed (x +:+ sp +:+ y).
Proof.
  intros [(c & s & -> & Hc) _] [_ (y' & d & -> & Hd)]. split.
  - exists c, (s +:+ sp +:+ y' +:+ d). by rewrite str_app_cons.
  - exists (String c s +:+ sp +:+ y'), d. by rewrite !str_app_assoc.
Qed.

Lemma framed_trim m : framed m → trim m = m.
Proof.
  intros [(c & s & -> & Hc) (y & d & Heq & Hd)].
  destruct y as [|c' y].
  - rewrite str_app_nil_l in Heq. subst d. unfold trim. simpl. rewrite Hc.
    by apply trimEnd_solid.
  - rewrite Heq. rewrite str_app_cons in Heq. simplify_eq.
    by apply trim_capitalised.
Qed.

Lemma tight_suffix x s : tight (x +:+ s) = true → tight s = true.
Proof.
  induction x as [|c x IH]; [done|]. rewrite str_app_cons.
  change (tight (String c (x +:+ s))) with
    ((if is_space c
      then Ascii.eqb c " " && match x +:+ s with
                              | String c' _ => not_space c'
                              | EmptyString => false
                              end
      else true) && tight (x +:+ s)).
  intros [_ H]%andb_prop. by apply IH.
Qed.

Lemma tight_single_space sp y :
  tight (sp +:+ y) = true → sp ≠ "" → forall_chars is_space sp = true → sp = " ".
Proof.
  destruct sp as [|c [|c' sp]]; [done | |].
  - intros Ht _ Hc. rewrite str_app_cons, str_app_nil_l in Ht. simpl in Ht, Hc.
    rewrite andb_true_r in Hc. rewrite Hc in Ht.
    apply andb_prop in Ht as [[->%Ascii.eqb_eq _]%andb_prop _]. done.
  - intros Ht _ Hc. rewrite !str_app_cons in Ht. simpl in Ht, Hc.
    apply andb_prop in Hc as [Hc [Hc' _]%andb_prop]. rewrite Hc in Ht.
    unfold not_space in Ht. rewrite Hc' in Ht. simpl in Ht.
    by rewrite andb_false_r in Ht.
Qed.

Lemma lang_spaces ic prev sp rest :
  lang ic re_spaces prev sp rest → sp ≠ "" ∧ forall_chars is_space sp = true.
Proof.
  unfold re_spaces, plus. intros (Hall & Hlen & _)%lang_rep_cls.
  rewrite (forall_chars_ext _ _ _ (cls_space_any ic)) in Hall.
  by rewrite <- length_pos_nonempty.
Qed.

(** A phrase found in a normalised text: its words, one space apart. *)
Lemma lang_phrase ph : ∀ prev m rest,
  forallb word_ok ph = true → ph ≠ [] →
  lang true (phrase_regex ph) prev m rest →
  tight (m +:+ rest) = true →
  toUpperCase m = toUpperCase (join_words ph)
  ∧ framed m
  ∧ ∃ y w d, m = y +:+ d ∧ last ph = Some w ∧ same_text true w d.
Proof.
  induction ph as [|w ph IH]; intros prev m rest Hok Hne Hlang Htight; [done|].
  simpl in Hok. apply andb_prop in Hok as [Hw Hok].
  destruct ph as [|w' ph].
  - simpl in Hlang. apply lang_lit in Hlang.
    destruct (same_text_word _ _ _ Hw Hlang) as [Hm1 Hm].
    split; [done|]. split; [by apply word_framed|]. by exists "", w, m.
  - change (phrase_regex (w :: w' :: ph))
      with (Cat (lit w) (Cat re_spaces (phrase_regex (w' :: ph)))) in Hlang.
    apply lang_cat_iff in Hlang as (m1 & t & -> & H1%lang_lit & H).
    apply lang_cat_iff in H as (sp & m' & -> & [Hsp1 Hsp]%lang_spaces & H').
    rewrite !str_app_assoc in Htight.
    pose proof (tight_suffix _ _ Htight) as Ht1.
    pose proof (tight_suffix _ _ Ht1) as Ht2.
    destruct (IH _ _ _ Hok ltac:(done) H' Ht2) as (Hup & Hfr & y & wl & d & -> & Hlast & Hd).
    assert (sp = " ") as -> by (by apply (tight_single_space sp ((y +:+ d) +:+ rest))).
    destruct (same_text_word _ _ _ Hw H1) as [Hm1 Hm].
    split; [|split].
    + change (join_words (w :: w' :: ph)) with (w +:+ " " +:+ join_words (w' :: ph)).
      unfold toUpperCase in *.
      rewrite (map_chars_app _ m1), (map_chars_app _ " " (y +:+ d)), Hup.
      rewrite (map_chars_app _ w), (map_chars_app _ " " (join_words (w' :: ph))).
      f_equal. exact H1.
    + apply framed_mid; [by apply word_framed | done].
    + exists (m1 +:+ " " +:+ y), wl, d. rewrite !str_app_assoc. by split.
Qed.

Lemma find_trimmed_spec ps s :
  match find_trimmed ps s with
  | Some t => ∃ r m, r ∈ ps ∧ first_match true r s = Some m ∧ t = trim m
  | None => ∀ r, r ∈ ps → first_match true r s = None
  end.
Proof.
  induction ps as [|r ps IH]; simpl.
  - by intros r ?%elem_of_nil.
  - destruct (first_match true r s) as [m|] eqn:Hm.
    + exists r, m. split; [left | done].
    + destruct (find_trimmed ps s) as [t|].
      * destruct IH as (r' & m' & Hin & Hm' & ->). exists r', m'. split; [by right | done].
      * intros r' [->|Hin]%elem_of_cons; [done | by apply IH].
Qed.

(** A field set by the first pattern that matches. *)
Lemma trimmed_field ps (shape : string → Prop) s :
  tight s = true →
  Forall (fun r => bounded r = true) ps →
  (∀ r prev m rest, r ∈ ps → lang true r prev m rest → tight (m +:+ rest) = true →
                    shape m ∧ framed m) →
  let t := default "" (find_trimmed ps s) in
  (t = "" ↔ ∀ r, r ∈ ps → ¬ holds true r s)
  ∧ (t ≠ "" → shape t ∧ ∃ b a, s = b +:+ t +:+ a).
Proof.
  intros Htight Hb Hshape. cbn zeta. rewrite Forall_forall in Hb.
  pose proof (find_trimmed_spec ps s) as Hspec.
  destruct (find_trimmed ps s) as [t|]; simpl.
  - destruct Hspec as (r & m & Hin & Hm & ->).
    pose proof Hm as Hm'.
    apply first_match_sound in Hm as (b & a & Hs & Hlang); [|by apply Hb].
    destruct (Hshape r _ m a Hin Hlang) as [Hsh Hfr].
    { apply (tight_suffix b). by rewrite <- Hs. }
    rewrite (framed_trim _ Hfr). split.
    + split.
      * intros ->. by destruct Hfr as [(? & ? & ? & _) _].
      * intros Hno. destruct (Hno r Hin). by exists b, m, a.
    + intros _. split; [done|]. by exists b, a.
  - split; [|done]. split; [|done]. intros _ r Hin Hholds.
    apply (first_match_holds true r s (Hb r Hin)) in Hholds as [m Hm].
    by rewrite (Hspec r Hin) in Hm.
Qed.

(** X27. The title field: empty exactly when the normalised text holds none
    of the twenty listed titles; otherwise the field is the first one found,
    as the text writes it: one of the listed titles in any case, its words
    one space apart. *)
Theorem title_field (text : string) :
  let t := Extract.title (extractTextInfoEnhanced text) in
  (t = "" ↔ ∀ r, r ∈ titlePatterns → ¬ holds true r (clean text))
  ∧ (t ≠ "" → title_shape t ∧ ∃ b a, clean text = b +:+ t +:+ a).
Proof.
  assert (Heq : Extract.title (extractTextInfoEnhanced text)
                = default "" (find_trimmed titlePatterns (clean text))).
  { destruct text; [by vm_compute | done]. }
  cbn zeta. rewrite Heq.
  apply (trimmed_field titlePatterns title_shape (clean text)).
  - by pose proof (clean_normal text) as [_ Ht]%andb_prop.
  - by repeat constructor.
  - intros r prev m rest Hin Hlang Htight.
    apply list_elem_of_singleton in Hin as ->.
    change (lang true (alt (phrase_regex <$> title_phrases)) prev m rest) in Hlang.
    apply lang_alt_list in Hlang as (r & Hr & Hlang).
    apply list_elem_of_fmap in Hr as (ph & -> & Hph).
    assert (Hok : forallb word_ok ph = true ∧ ph ≠ []).
    { assert (Hall : forallb (fun ph => forallb word_ok ph && negb (bool_decide (ph = [])))
                       title_phrases = true) by by vm_compute.
      rewrite forallb_forall in Hall.
      specialize (Hall ph (proj1 (list_elem_of_In _ _) Hph)).
      apply andb_prop in Hall as [? Hne%negb_true_iff]. split; [done|].
      by apply bool_decide_eq_false in Hne. }
    destruct Hok as [Hok Hne].
    destruct (lang_phrase ph _ _ _ Hok Hne Hlang Htight) as (Hup & Hfr & _).
    split; [by exists ph | done].
Qed.

Lemma cls_any_letter c : cls_matches true false [AZ] c = is_alpha c.
Proof. revert c. apply (all_chars_eq (cls_matches true false [AZ]) is_alpha). by vm_compute. Qed.

Lemma cls_company c :
  cls_matches true false (az :: AZ :: cls_s ++ [one "&"%char]) c = company_char c.
Proof.
  revert c.
  apply (all_chars_eq (cls_matches true false (az :: AZ :: cls_s ++ [one "&"%char]))
           company_char).
  by vm_compute.
Qed.

Lemma company_char_upper c : company_char (upper_char c) = company_char c.
Proof.
  revert c. apply (all_chars_eq (fun c => company_char (upper_char c)) company_char).
  by vm_compute.
Qed.

Lemma forall_chars_map p f s :
  forall_chars p (map_chars f s) = forall_chars (fun c => p (f c)) s.
Proof. induction s as [|c s IH]; [done|]. simpl. by rewrite IH. Qed.

Lemma map_chars_length f s : String.length (map_chars f s) = String.length s.
Proof. induction s as [|c s IH]; [done|]. simpl. by rewrite IH. Qed.

Lemma company_suffix_words : forallb word_ok company_suffixes = true.
Proof. by vm_compute. Qed.

(** The general company pattern. *)
Lemma lang_company prev m rest :
  lang true (cat [ Cls false [AZ];
                   plus (Cls false (az :: AZ :: cls_s ++ [one "&"%char]));
                   alt (lit <$> company_suffixes) ]) prev m rest →
  company_shape m ∧ framed m.
Proof.
  unfold cat, plus.
  intros (l & m1 & -> & Hc & H)%lang_cat_iff.
  apply lang_cat_iff in H as (run & sfx & -> & Hrun & Hsfx).
  inversion Hc as [| |? ? c0 ? ? Hc0| | | | | | | |]; subst.
  rewrite cls_any_letter in Hc0.
  apply lang_rep_cls in Hrun as (Hrun & Hlen & _).
  rewrite (forall_chars_ext _ _ _ cls_company) in Hrun.
  apply length_pos_nonempty in Hlen.
  apply lang_alt_list in Hsfx as (r & Hr & Hsfx).
  apply list_elem_of_fmap in Hr as (w & -> & Hw). apply lang_lit in Hsfx.
  pose proof company_suffix_words as Hwords. rewrite forallb_forall in Hwords.
  specialize (Hwords w (proj1 (list_elem_of_In _ _) Hw)).
  destruct (same_text_word _ _ _ Hwords Hsfx) as [Hne Halpha].
  rewrite str_app_cons, str_app_nil_l. split.
  - by exists c0, run, sfx, w.
  - split.
    + exists c0, (run +:+ sfx). split; [done|]. by apply alpha_not_space.
    + exists (String c0 run), sfx. split; [done|]. by apply alpha_solid.
Qed.

(** The pattern of one company name. *)
Lemma lang_company_named prev m rest :
  lang true (phrase_regex ["Satyam"; "Computer"; "Services"; "Ltd"]) prev m rest →
  tight (m +:+ rest) = true →
  company_shape m ∧ framed m.
Proof.
  intros Hlang Htight.
  destruct (lang_phrase ["Satyam"; "Computer"; "Services"; "Ltd"] _ _ _
              eq_refl ltac:(done) Hlang Htight)
    as (Hup & Hfr & y & w & d & -> & [= <-] & Hd).
  split; [|done].
  assert (Hall : forall_chars company_char (y +:+ d) = true).
  { rewrite <- (forall_chars_ext _ _ _ company_char_upper),
      <- (forall_chars_map company_char upper_char).
    fold (toUpperCase (y +:+ d)). by rewrite Hup. }
  assert (Hlen : String.length (y +:+ d) = 28).
  { rewrite <- (map_chars_length upper_char). fold (toUpperCase (y +:+ d)).
    by rewrite Hup. }
  rewrite str_app_length, (same_text_length _ _ _ Hd) in Hlen. simpl in Hlen.
  destruct y as [|c0 [|c1 run]]; [simpl in Hlen; lia | simpl in Hlen; lia |].
  exists c0, (String c1 run), d, "Ltd".
  rewrite forall_chars_app in Hall. apply andb_prop in Hall as [Hy _].
  simpl in Hy. apply andb_prop in Hy as [_ Hrun].
  split; [done|]. split.
  { unfold toUpperCase in Hup. rewrite !str_app_cons in Hup. simpl in Hup.
    injection Hup as Hc0 _. rewrite <- is_alpha_upper, Hc0. done. }
  split; [done|]. split; [done|].
  split; [unfold company_suffixes; set_solver | done].
Qed.

(** X28. The company field: empty exactly when the normalised text holds no
    match of the two company patterns; otherwise a part of the text that
    starts with a letter, goes on with letters, white space and ampersands,
    and ends with one of the sixteen listed suffixes, in any case. *)
Theorem company_field (text : string) :
  let c := company (extractTextInfoEnhanced text) in
  (c = "" ↔ ∀ r, r ∈ companyPatterns → ¬ holds true r (clean text))
  ∧ (c ≠ "" → company_shape c ∧ ∃ b a, clean text = b +:+ c +:+ a).
Proof.
  assert (Heq : company (extractTextInfoEnhanced text)
                = default "" (find_trimmed companyPatterns (clean text))).
  { destruct text; [by vm_compute | done]. }
  cbn zeta. rewrite Heq.
  apply (trimmed_field companyPatterns company_shape (clean text)).
  - by pose proof (clean_normal text) as [_ Ht]%andb_prop.
  - by repeat constructor.
  - intros r prev m rest Hin Hlang Htight.
    unfold companyPatterns in Hin. rewrite !elem_of_cons, elem_of_nil in Hin.
    destruct Hin as [->|[->|[]]].
    + by apply lang_company in Hlang.
    + by apply lang_company_named in Hlang.
Qed.

Import CardDetection.

(** ** The card finder *)

Lemma foldl_min_spec (l : list Z) : ∀ a,
  (foldl Z.min a l ≤ a)%Z
  ∧ (∀ d, d ∈ l → (foldl Z.min a l ≤ d)%Z)
  ∧ (foldl Z.min a l = a ∨ foldl Z.min a l ∈ l).
Proof.
  induction l as [|x l IH]; intros a; simpl.
  - split; [lia|]. split; [by intros d ?%elem_of_nil | by left].
  - destruct (IH (Z.min a x)) as (H1 & H2 & H3). split; [lia|]. split.
    + intros d [->|Hd]%elem_of_cons; [lia | by apply H2].
    + destruct H3 as [H3|H3]; [|right; by right].
      destruct (Z.min_spec a x) as [[_ Hm]|[_ Hm]]; rewrite Hm in H3 |- *.
      * by left.
      * right. rewrite H3. by left.
Qed.

Lemma foldl_max_spec (l : list Z) : ∀ a,
  (a ≤ foldl Z.max a l)%Z
  ∧ (∀ d, d ∈ l → (d ≤ foldl Z.max a l)%Z)
  ∧ (foldl Z.max a l = a ∨ foldl Z.max a l ∈ l).
Proof.
  induction l as [|x l IH]; intros a; simpl.
  - split; [lia|]. split; [by intros d ?%elem_of_nil | by left].
  - destruct (IH (Z.max a x)) as (H1 & H2 & H3). split; [lia|]. split.
    + intros d [->|Hd]%elem_of_cons; [lia | by apply H2].
    + destruct H3 as [H3|H3]; [|right; by right].
      destruct (Z.max_spec a x) as [[_ Hm]|[_ Hm]]; rewrite Hm in H3 |- *.
      * right. rewrite H3. by left.
      * by left.
Qed.

Lemma forallb_pairs (f : Z → Z → bool) (rs : list Z) (g : Z → list Z) :
  forallb (fun r => forallb (fun a => f a r) (g r)) rs = true →
  ∀ r a, r ∈ rs → a ∈ g r → f a r = true.
Proof.
  intros Hall r a Hr Ha. rewrite forallb_forall in Hall.
  specialize (Hall r (proj1 (list_elem_of_In _ _) Hr)).
  rewrite forallb_forall in Hall.
  exact (Hall a (proj1 (list_elem_of_In _ _) Ha)).
Qed.

(** The stretch, computed for every offset within every range of bytes, is
    its exact value. *)
Lemma stretch_checked :
  forallb (fun r =>
             forallb (fun a => (stretched a 0 r =? stretch_exact a r)%Z)
                     (seqZ 0 (r + 1)))
          (seqZ 1 255) = true.
Proof. vm_compute. reflexivity. Qed.

Lemma stretched_exact d lo r :
  (0 ≤ d - lo ≤ r)%Z → (1 ≤ r ≤ 255)%Z →
  stretched d lo r = stretch_exact (d - lo) r.
Proof.
  intros Ha Hr.
  pose proof (forallb_pairs (fun a r => (stretched a 0 r =? stretch_exact a r)%Z)
                (seqZ 1 255) (fun r => seqZ 0 (r + 1)) stretch_checked
                r (d - lo)%Z) as Hall.
  cbv beta in Hall. rewrite !elem_of_seqZ in Hall.
  apply Z.eqb_eq in Hall; [|lia..]. rewrite <- Hall. unfold stretched.
  by rewrite Z.sub_0_r.
Qed.

Lemma stretch_exact_byte a r :
  (0 ≤ a ≤ r)%Z → (1 ≤ r)%Z →
  (0 ≤ stretch_exact a r ≤ 255)%Z
  ∧ (a = 0%Z → stretch_exact a r = 0%Z)
  ∧ (a = r → stretch_exact a r = 255%Z).
Proof.
  intros Ha Hr. unfold stretch_exact. split; [|split].
  - split; [apply Z.div_pos; lia|].
    assert ((510 * a + r) / (2 * r) < 256)%Z; [|lia].
    apply Z.div_lt_upper_bound; lia.
  - intros ->. apply Z.div_small. lia.
  - intros ->. symmetry. apply Z.div_unique with (r := r); lia.
Qed.

(** X29. The contrast stretch of the card finder: a buffer of bytes comes back
    with the same length, again of bytes; a buffer whose bytes are all
    equal is returned as it is; any other has its least byte sent to 0, its
    greatest to 255, and every byte d sent to 255 * (d - min) / (max - min)
    rounded to the nearest integer, upwards from one half. *)
Theorem enhanceContrast_stretch (data : list Z) :
  Forall is_byte data →
  let lo := foldl Z.min 255%Z data in
  let hi := foldl Z.max 0%Z data in
  length (enhanceContrast data) = length data
  ∧ Forall is_byte (enhanceContrast data)
  ∧ ((∀ x y, x ∈ data → y ∈ data → x = y) → enhanceContrast data = data)
  ∧ ((∃ x y, x ∈ data ∧ y ∈ data ∧ x ≠ y) →
     (lo < hi)%Z
     ∧ ∀ i d, data !! i = Some d →
         enhanceContrast data !! i = Some (stretch_exact (d - lo) (hi - lo))
         ∧ (d = lo → enhanceContrast data !! i = Some 0%Z)
         ∧ (d = hi → enhanceContrast data !! i = Some 255%Z)).
Proof.
  intros Hbytes lo hi.
  destruct (foldl_min_spec data 255) as (Hlo1 & Hlo2 & Hlo3).
  destruct (foldl_max_spec data 0) as (Hhi1 & Hhi2 & Hhi3).
  fold lo in Hlo1, Hlo2, Hlo3. fold hi in Hhi1, Hhi2, Hhi3.
  rewrite Forall_forall in Hbytes.
  assert (Hrange : (lo < hi)%Z → (1 ≤ hi - lo ≤ 255)%Z ∧ (0 ≤ lo)%Z).
  { intros Hlt. destruct Hlo3 as [Hlo3|Hlo3], Hhi3 as [Hhi3|Hhi3]; try lia.
    - apply Hbytes in Hhi3. unfold is_byte in Hhi3. lia.
    - apply Hbytes in Hlo3. unfold is_byte in Hlo3. lia.
    - apply Hbytes in Hlo3, Hhi3. unfold is_byte in *. lia. }
  assert (Hentry : (lo < hi)%Z → ∀ d, d ∈ data →
            to_uint8 (stretched d lo (hi - lo)) = stretch_exact (d - lo) (hi - lo)
            ∧ is_byte (stretch_exact (d - lo) (hi - lo))).
  { intros Hlt d Hd. destruct (Hrange Hlt) as [Hr Hlo0].
    specialize (Hlo2 d Hd). specialize (Hhi2 d Hd).
    rewrite stretched_exact by lia.
    destruct (stretch_exact_byte (d - lo) (hi - lo)) as (Hb & _); [lia | lia |].
    split; [|done]. unfold to_uint8. apply Z.mod_small. lia. }
  unfold enhanceContrast. fold lo hi.
  destruct (0 <? hi - lo)%Z eqn:Hpos.
  - apply Z.ltb_lt in Hpos. assert (Hlt : (lo < hi)%Z) by lia.
    split; [by rewrite length_fmap|]. split; [|split].
    + apply Forall_fmap, Forall_forall. intros d Hd. unfold compose.
      destruct (Hentry Hlt d Hd) as [-> Hb]. done.
    + intros Hflat. exfalso.
      destruct Hlo3 as [Hlo3|Hlo3], Hhi3 as [Hhi3|Hhi3].
      * lia.
      * apply Hbytes in Hhi3. unfold is_byte in Hhi3. lia.
      * apply Hbytes in Hlo3. unfold is_byte in Hlo3. lia.
      * specialize (Hflat _ _ Hlo3 Hhi3). lia.
    + intros _. split; [done|]. intros i d Hi.
      assert (Hd : d ∈ data) by (by eapply list_elem_of_lookup_2).
      destruct (Hentry Hlt d Hd) as [Heq Hb]. destruct (Hrange Hlt) as [Hr Hlo0].
      specialize (Hlo2 d Hd). specialize (Hhi2 d Hd).
      rewrite list_lookup_fmap, Hi. cbn [fmap option_fmap option_map]. rewrite Heq.
      destruct (stretch_exact_byte (d - lo) (hi - lo)) as (_ & H0 & H255); [lia | lia |].
      split; [done|]. split.
      * intros ->. f_equal. apply H0. lia.
      * intros ->. f_equal. by apply H255.
  - apply Z.ltb_ge in Hpos. split; [done|]. split; [by apply Forall_forall|].
    split; [done|]. intros (x & y & Hx & Hy & Hne). exfalso.
    pose proof (Hlo2 x Hx). pose proof (Hlo2 y Hy).
    pose proof (Hhi2 x Hx). pose proof (Hhi2 y Hy). lia.
Qed.

Lemma enhanceContrast_stretch_witness :
  Forall is_byte grey_sample
  ∧ length (enhanceContrast grey_sample) = length grey_sample
  ∧ Forall is_byte (enhanceContrast grey_sample)
  ∧ ((∀ x y, x ∈ grey_sample → y ∈ grey_sample → x = y) →
     enhanceContrast grey_sample = grey_sample)
  ∧ ((∃ x y, x ∈ grey_sample ∧ y ∈ grey_sample ∧ x ≠ y) →
     (foldl Z.min 255 grey_sample < foldl Z.max 0 grey_sample)%Z
     ∧ ∀ i d, grey_sample !! i = Some d →
         enhanceContrast grey_sample !! i
         = Some (stretch_exact (d - foldl Z.min 255%Z grey_sample)
                   (foldl Z.max 0%Z grey_sample - foldl Z.min 255%Z grey_sample))
         ∧ (d = foldl Z.min 255%Z grey_sample →
            enhanceContrast grey_sample !! i = Some 0%Z)
         ∧ (d = foldl Z.max 0%Z grey_sample →
            enhanceContrast grey_sample !! i = Some 255%Z)).
Proof.
  assert (Hbytes : Forall is_byte grey_sample).
  { repeat constructor; unfold is_byte; lia. }
  split; [exact Hbytes|]. apply (enhanceContrast_stretch grey_sample Hbytes).
Defined.

Lemma foldl_num_min {A} (f : A → Z) l : ∀ a,
  foldl (fun m p => num_min m (Num (f p))) (Num a) l = Num (foldl Z.min a (f <$> l)).
Proof. induction l as [|x l IH]; intros a; simpl; [done|]. apply IH. Qed.

Lemma foldl_num_max {A} (f : A → Z) l : ∀ a,
  foldl (fun m p => num_max m (Num (f p))) (Num a) l = Num (foldl Z.max a (f <$> l)).
Proof. induction l as [|x l IH]; intros a; simpl; [done|]. apply IH. Qed.

(** The least and the greatest of the values [f] takes on a list that is not
    empty. *)
Lemma least_value {A} (f : A → Z) (p : A) (l : list A) :
  ∃ v, foldl (fun m q => num_min m (Num (f q))) PosInf (p :: l) = Num v
       ∧ (∀ q, q ∈ p :: l → (v ≤ f q)%Z)
       ∧ ∃ q, q ∈ p :: l ∧ f q = v.
Proof.
  simpl. rewrite foldl_num_min.
  destruct (foldl_min_spec (f <$> l) (f p)) as (H1 & H2 & H3).
  eexists. split; [done|]. split.
  - intros q [->|Hq]%elem_of_cons; [done|]. apply H2, list_elem_of_fmap. eauto.
  - destruct H3 as [H3|H3].
    + exists p. split; [left | done].
    + apply list_elem_of_fmap in H3 as (q & Hq & Hin). exists q. split; [by right | done].
Qed.

Lemma greatest_value {A} (f : A → Z) (p : A) (l : list A) :
  ∃ v, foldl (fun m q => num_max m (Num (f q))) NegInf (p :: l) = Num v
       ∧ (∀ q, q ∈ p :: l → (f q ≤ v)%Z)
       ∧ ∃ q, q ∈ p :: l ∧ f q = v.
Proof.
  simpl. rewrite foldl_num_max.
  destruct (foldl_max_spec (f <$> l) (f p)) as (H1 & H2 & H3).
  eexists. split; [done|]. split.
  - intros q [->|Hq]%elem_of_cons; [done|]. apply H2, list_elem_of_fmap. eauto.
  - destruct H3 as [H3|H3].
    + exists p. split; [left | done].
    + apply list_elem_of_fmap in H3 as (q & Hq & Hin). exists q. split; [by right | done].
Qed.

(** X30. The bounds of a contour that is not empty are finite and are its
    bounding box: every point lies within it, each of its four sides touches
    a point, and the four corners listed are its corners. *)
Theorem getContourBounds_box (contour : list point) :
  contour ≠ [] →
  ∃ x0 y0 x1 y1 : Z,
    getContourBounds contour
    = {| b_x := Num x0; b_y := Num y0;
         b_width := Num (x1 - x0); b_height := Num (y1 - y0);
         corners := [ (Num x0, Num y0); (Num x1, Num y0);
                      (Num x1, Num y1); (Num x0, Num y1) ] |}
    ∧ (∀ p, p ∈ contour → (x0 ≤ p_x p ≤ x1)%Z ∧ (y0 ≤ p_y p ≤ y1)%Z)
    ∧ (∃ p, p ∈ contour ∧ p_x p = x0) ∧ (∃ p, p ∈ contour ∧ p_x p = x1)
    ∧ (∃ p, p ∈ contour ∧ p_y p = y0) ∧ (∃ p, p ∈ contour ∧ p_y p = y1).
Proof.
  destruct contour as [|p l]; [done|]. intros _.
  destruct (least_value p_x p l) as (x0 & Hx0 & Hx0le & Hx0in).
  destruct (least_value p_y p l) as (y0 & Hy0 & Hy0le & Hy0in).
  destruct (greatest_value p_x p l) as (x1 & Hx1 & Hx1le & Hx1in).
  destruct (greatest_value p_y p l) as (y1 & Hy1 & Hy1le & Hy1in).
  exists x0, y0, x1, y1. unfold getContourBounds. rewrite Hx0, Hy0, Hx1, Hy1.
  split; [done|]. split; [|done].
  intros q Hq. specialize (Hx0le q Hq). specialize (Hy0le q Hq).
  specialize (Hx1le q Hq). specialize (Hy1le q Hq). lia.
Qed.

Lemma getContourBounds_box_witness :
  contour_sample ≠ []
  ∧ ∃ x0 y0 x1 y1 : Z,
    getContourBounds contour_sample
    = {| b_x := Num x0; b_y := Num y0;
         b_width := Num (x1 - x0); b_height := Num (y1 - y0);
         corners := [ (Num x0, Num y0); (Num x1, Num y0);
                      (Num x1, Num y1); (Num x0, Num y1) ] |}
    ∧ (∀ p, p ∈ contour_sample → (x0 ≤ p_x p ≤ x1)%Z ∧ (y0 ≤ p_y p ≤ y1)%Z)
    ∧ (∃ p, p ∈ contour_sample ∧ p_x p = x0) ∧ (∃ p, p ∈ contour_sample ∧ p_x p = x1)
    ∧ (∃ p, p ∈ contour_sample ∧ p_y p = y0) ∧ (∃ p, p ∈ contour_sample ∧ p_y p = y1).
Proof.
  assert (Hne : contour_sample ≠ []) by discriminate.
  split; [exact Hne | apply (getContourBounds_box contour_sample Hne)].
Defined.
